(** * archivers-common: a shallow embedding of [archivers-common.js]

    The JavaScript module is embedded function by function.  Strings are
    sequences of UTF-16 code units ([list N]), buffers are lists of bytes,
    the module-level [Set]/[Map] objects are stdpp finite sets and maps, and
    everything the module obtains from its environment (the clock, the random
    UUID, environment variables, the outcome of protocol round-trips and of
    caller-supplied handlers) is an explicit input. *)

From Stdlib Require Import ZArith NArith Ascii String Bool Lia.
From Stdlib Require Import Init.Byte.
From Stdlib Require Strings.Byte.
From stdpp Require Import gmap list strings pretty.

Open Scope N_scope.

(** ** JavaScript strings *)

Module JS.

(** The code units of an ASCII literal. *)
Definition str (s : string) : list N :=
  N_of_ascii <$> list_ascii_of_string s.

Definition ch (a : ascii) : N := N_of_ascii a.

(** The backslash. *)
Definition backslash : N := 92.

Arguments str : simpl never.
Arguments ch : simpl never.
Arguments backslash : simpl never.

(** [s.startsWith(p)] *)
Fixpoint startsWith (s p : list N) {struct p} : bool :=
  match p with
  | [] => true
  | b :: p' =>
      match s with
      | a :: s' => (a =? b) && startsWith s' p'
      | [] => false
      end
  end.

(** [s.endsWith(p)] *)
Definition endsWith (s p : list N) : bool :=
  startsWith (reverse s) (reverse p).

(** [s.replaceAll(pat, rep)] for a non-empty string [pat]: the occurrences
    are found from left to right and do not overlap.  [skip] counts the code
    units of the current occurrence that are still to be dropped. *)
Fixpoint replaceAll_from (pat rep : list N) (skip : nat) (s : list N) : list N :=
  match s with
  | [] => []
  | c :: r =>
      match skip with
      | S k => replaceAll_from pat rep k r
      | O =>
          if startsWith s pat
          then rep ++ replaceAll_from pat rep (pred (length pat)) r
          else c :: replaceAll_from pat rep 0 r
      end
  end.

Definition replaceAll (pat rep s : list N) : list N :=
  replaceAll_from pat rep 0 s.

(** [s.replace(/[class]/g, f)] for a regular expression that is a single
    character class with the [g] flag: every code unit in the class is
    replaced on its own, [f c] being the replacement computed from the
    match [c] (so that [$&] is [c] itself). *)
Definition replaceClass (inClass : N -> bool) (f : N -> list N) (s : list N) : list N :=
  flat_map (fun c => if inClass c then f c else [c]) s.

(** [s.slice(0, n)] for [n >= 0] and [s.slice(0, -1)]. *)
Definition slice0 (n : nat) (s : list N) : list N := take n s.
Definition dropLast (s : list N) : list N := take (pred (length s)) s.

(** Line terminators of ECMAScript: LF, CR, U+2028 and U+2029. *)
Definition isLineTerminator (c : N) : bool :=
  (c =? 10) || (c =? 13) || (c =? 8232) || (c =? 8233).

End JS.

(** ** The regular expressions that [wildcardToRegex] builds *)

Module RegExp.

(** The fragment of the pattern language in which the sources built by
    [wildcardToRegex] live: the assertions [^] and [$], a literal code unit
    (written plainly or as an identity escape), the dot, and the star
    quantifier.  No flag is given in the source, so neither [s] (dotAll),
    [m] (multiline) nor [i] applies. *)
Inductive atom :=
  | AChar (c : N)
  | ADot.

Inductive term :=
  | TAssertStart
  | TAssertEnd
  | TAtom (a : atom)
  | TStar (a : atom).

Definition regexp := list term.

(** SyntaxCharacter of the ECMAScript pattern grammar. *)
Definition isSyntaxChar (c : N) : bool :=
  existsb (N.eqb c) (JS.str "^$\.*+?()[]{}|").

(** [new RegExp(source)] on the fragment; [None] stands for a source outside
    the fragment (among them the sources that raise a SyntaxError). *)
Fixpoint parse (src : list N) : option regexp :=
  match src with
  | [] => Some []
  | c :: rest =>
      if c =? JS.ch "^" then cons TAssertStart <$> parse rest
      else if c =? JS.ch "$" then cons TAssertEnd <$> parse rest
      else if c =? JS.backslash then
        match rest with
        | e :: rest' =>
            if isSyntaxChar e then
              match rest' with
              | q :: rest'' =>
                  if q =? JS.ch "*" then cons (TStar (AChar e)) <$> parse rest''
                  else cons (TAtom (AChar e)) <$> parse rest'
              | [] => Some [TAtom (AChar e)]
              end
            else None
        | [] => None
        end
      else
        let a := if c =? JS.ch "." then Some ADot
                 else if isSyntaxChar c then None else Some (AChar c) in
        match a with
        | None => None
        | Some a =>
            match rest with
            | q :: rest' =>
                if q =? JS.ch "*" then cons (TStar a) <$> parse rest'
                else cons (TAtom a) <$> parse rest
            | [] => Some [TAtom a]
            end
        end
  end.

Definition atomMatches (a : atom) (c : N) : bool :=
  match a with
  | AChar x => c =? x
  | ADot => negb (JS.isLineTerminator c)
  end.

(** Whether the terms can be matched starting at index [pos], where [rest]
    is the input from [pos] on.  The star is greedy in the engine; for the
    boolean answer of [test] only the existence of a split matters, which is
    what the inner loop searches. *)
Fixpoint matchHere (ts : regexp) (pos : nat) (rest : list N) : bool :=
  match ts with
  | [] => true
  | TAssertStart :: ts' => Nat.eqb pos 0 && matchHere ts' pos rest
  | TAssertEnd :: ts' =>
      match rest with
      | [] => matchHere ts' pos rest
      | _ :: _ => false
      end
  | TAtom a :: ts' =>
      match rest with
      | c :: r => atomMatches a c && matchHere ts' (S pos) r
      | [] => false
      end
  | TStar a :: ts' =>
      (fix star (pos : nat) (rest : list N) {struct rest} : bool :=
         matchHere ts' pos rest
         || match rest with
            | c :: r => atomMatches a c && star (S pos) r
            | [] => false
            end) pos rest
  end.

Fixpoint testFrom (re : regexp) (pos : nat) (rest : list N) : bool :=
  matchHere re pos rest
  || match rest with
     | _ :: r => testFrom re (S pos) r
     | [] => false
     end.

(** [re.test(s)] for a regular expression without the [g] and [y] flags. *)
Definition test (re : regexp) (s : list N) : bool := testFrom re 0 s.

End RegExp.

(** ** Thrown values and completions *)

(** What a [throw] carries: the module throws plain strings, the engine
    throws a [TypeError], the libraries the module calls throw [Error]
    objects. *)
Inductive thrown :=
  | ThrownString (msg : list N)
  | TypeError (msg : list N)
  | ErrorObject (msg : list N).


Inductive completion (A : Type) :=
  | Returns (a : A)
  | Throws (e : thrown).
Arguments Returns {A} a.
Arguments Throws {A} e.

(** ** [wildcardToRegex] and [RegExpCache] *)

(** The class of the escaping step: the twelve characters
    . + ^ $ { } ( ) | [ ] and the backslash. *)
Definition isSpecialRegexChar (c : N) : bool :=
  existsb (N.eqb c) (JS.str ".+^${}()|[]") || (c =? JS.backslash).

Definition wildcardSource (pattern : list N) : list N :=
  let escaped :=
    JS.replaceClass isSpecialRegexChar (fun c => [JS.backslash; c]) pattern in
  let regexPattern :=
    JS.replaceClass (N.eqb (JS.ch "?")) (fun _ => JS.str ".")
      (JS.replaceClass (N.eqb (JS.ch "*")) (fun _ => JS.str ".*") escaped) in
  JS.str "^" ++ regexPattern ++ JS.str "$".

Definition wildcardToRegex (pattern : list N) : option RegExp.regexp :=
  RegExp.parse (wildcardSource pattern).

(** A pattern matches a string: [regExpCache.get(pattern).test(string)] for
    a cache built with [{wildcardToRegex: true}]. *)
Definition wildcardMatches (pattern s : list N) : bool :=
  match wildcardToRegex pattern with
  | Some re => RegExp.test re s
  | None => false
  end.

(** [RegExpCache]: the private [#cache] map and the [#wildcardToRegex]
    flag.  A cached expression is always truthy, so [get] compiles a pattern
    exactly when the map has no entry for it.  With the flag the expression
    is the one [wildcardToRegex] builds; without it, it is what the
    constructor [RegExp] of the engine makes of an arbitrary source, which
    is taken from the environment. *)
Module RegExpCache.

(** A regular expression object: one that [wildcardToRegex] returned, or
    one that [new RegExp(pattern)] made, of which what its [test] answers
    is kept. *)
Inductive regExp :=
  | Wildcard (re : RegExp.regexp)
  | Native (test : list N -> bool).

(** [regExp.test(string)] *)
Definition test (regExp : regExp) (s : list N) : bool :=
  match regExp with
  | Wildcard re => RegExp.test re s
  | Native test => test s
  end.

(** [new RegExp(pattern)] for any source: the [test] of the expression, or
    the SyntaxError that the constructor throws. *)
Definition engine := list N -> completion (list N -> bool).

Record t := {
  cache : gmap (list N) regExp;
  wildcard : bool;
}.

Definition new (wildcard : bool) : t :=
  {| cache := ∅; wildcard := wildcard |}.

Definition syntaxError : thrown :=
  ErrorObject (JS.str "Invalid regular expression").

(** [this.#wildcardToRegex ? wildcardToRegex(pattern) : new RegExp(pattern)].
    The sources that [wildcardToRegex] builds are all in the fragment, so
    its error case does not arise. *)
Definition compile (newRegExp : engine) (wildcard : bool) (pattern : list N)
  : completion regExp :=
  if wildcard then
    match wildcardToRegex pattern with
    | Some re => Returns (Wildcard re)
    | None => Throws syntaxError
    end
  else
    match newRegExp pattern with
    | Returns test => Returns (Native test)
    | Throws e => Throws e
    end.

(** [get(pattern)] *)
Definition get (newRegExp : engine) (pattern : list N) (rc : t)
  : completion regExp * t :=
  match cache rc !! pattern with
  | Some regExp => (Returns regExp, rc)
  | None =>
      match compile newRegExp (wildcard rc) pattern with
      | Returns regExp =>
          (Returns regExp,
           {| cache := <[pattern := regExp]> (cache rc); wildcard := wildcard rc |})
      | Throws e => (Throws e, rc)
      end
  end.

(** [testMultiple(string, patterns)]: [true] at the first pattern that
    matches, [undefined] (read as [false]) when none does; an error of
    [get] ends the loop. *)
Fixpoint testMultiple (newRegExp : engine) (s : list N)
    (patterns : list (list N)) (rc : t) : completion bool * t :=
  match patterns with
  | [] => (Returns false, rc)
  | pattern :: patterns' =>
      match get newRegExp pattern rc with
      | (Returns regExp, rc') =>
          if test regExp s then (Returns true, rc')
          else testMultiple newRegExp s patterns' rc'
      | (Throws e, rc') => (Throws e, rc')
      end
  end.

End RegExpCache.

(** What [regExpCache.testMultiple(string, patterns)] answers for the cache
    of [initializeIntercept] (built with [{wildcardToRegex: true}]); the
    cache itself only saves recompilation, see [testMultiple_cache]. *)
Definition testMultiple (s : list N) (patterns : list (list N)) : bool :=
  existsb (fun pattern => wildcardMatches pattern s) patterns.

(** ** The archive writer

    [getImgExt], [imgFilename], [dateDir], [ensureDirectory] and
    [archiveImage].  Ids and prompts are strings.  The file system is a map
    from paths to contents and a set of directories.  Its two operations
    throw when what is on the disk stands in the way (a file where a
    directory is to be made, a directory where a file is to be written, no
    directory to write the file in) and
    when the system refuses the path (it is too long, permission is denied,
    the disk is full), which is taken from the environment path by path.
    The calendar fields of a date, the clock, the UUID generator and
    [JSON.stringify] are taken from the environment as well. *)

Module Archive.

(** [buffer.toString('hex')]: two lower-case digits per byte. *)
Definition hexDigit (n : N) : N :=
  if n <? 10 then 48 + n else 87 + n.

Definition hexOfByte (b : byte) : list N :=
  let n := Strings.Byte.to_N b in [hexDigit (n / 16); hexDigit (n mod 16)].

Definition toHex (buffer : list byte) : list N := flat_map hexOfByte buffer.

(** The [magicMarkers] object, as [Object.entries] lists it: the key
    [47494638] is an array index and is enumerated first, the other keys
    follow in the order of the literal (bmp, jpg, png, webp). *)
Definition magicMarkers : list (list N * list N) :=
  [ (JS.str "47494638", JS.str "gif");
    (JS.str "424d", JS.str "bmp");
    (JS.str "ffd8ff", JS.str "jpg");
    (JS.str "89504e470d0a1a0a", JS.str "png");
    (JS.str "5249464657454250", JS.str "webp") ].

Fixpoint firstMarker (firstBytes : list N) (entries : list (list N * list N))
  : option (list N) :=
  match entries with
  | [] => None
  | (marker, ext) :: entries' =>
      if JS.startsWith firstBytes marker then Some ext
      else firstMarker firstBytes entries'
  end.

Definition getImgExt (buffer : list byte) : completion (list N) :=
  let firstBytes := toHex (take 8 buffer) in
  match firstMarker firstBytes magicMarkers with
  | Some ext => Returns ext
  | None => Throws (ThrownString (JS.str "Unknown image type."))
  end.

(** The class [[^a-z-_0-9]] with the [i] flag.  A code unit is in the
    positive class when its canonical form is that of a member; without the
    [u] flag the canonical form of a code unit is its upper case, and a
    non-ASCII code unit is never mapped to an ASCII one, so only the ASCII
    letters need a case mapping here. *)
Definition canonicalize (c : N) : N :=
  if (97 <=? c) && (c <=? 122) then c - 32 else c.

Definition classMembers : list N :=
  JS.str "abcdefghijklmnopqrstuvwxyz-_0123456789".

Definition inFilenameClass (c : N) : bool :=
  existsb (fun m => canonicalize m =? canonicalize c) classMembers.

(** The three code units of the truncation marker of the source text. *)
Definition truncationMarker : list N := [226; 8364; 166].

Definition maxLength : nat := 240.

(** [imgFilename({id, prompt})] *)
Definition imgFilename (id prompt : list N) : list N :=
  let prompt :=
    JS.replaceClass (fun c => negb (inFilenameClass c)) (fun _ => [])
      (JS.replaceAll (JS.str " ") (JS.str "-")
        (JS.replaceAll (JS.str ",") (JS.str "_")
          (JS.replaceAll (JS.str ".") (JS.str "_")
            (JS.replaceAll (JS.str ", ") (JS.str "_")
              (JS.replaceAll (JS.str ". ") (JS.str "_") prompt))))) in
  let prompt :=
    if JS.endsWith prompt (JS.str "_") || JS.endsWith prompt (JS.str "-")
    then JS.dropLast prompt else prompt in
  let filename := id ++ JS.str "-" ++ prompt in
  if (maxLength <? length filename)%nat
  then JS.slice0 maxLength filename ++ truncationMarker
  else filename.

(** The [details] object, for the three properties the module reads and
    writes; [None] is an absent ([undefined] or [null]) property. *)
Record details := {
  id : option (list N);
  prompt : option (list N);
  unixTime : option Z;
}.

Definition emptyDetails : details :=
  {| id := None; prompt := None; unixTime := None |}.

(** What the function takes from its environment. *)
Record Env := {
  archivePath : list N;             (* [cfg.archivePath] *)
  randomUUID : list N;              (* [crypto.randomUUID()] *)
  now : Z;                          (* [Date.now()], milliseconds *)
  SKIP_RECORD : bool;               (* [process.env['SKIP_RECORD']] is set *)
  DEBUG : bool;                     (* [process.env['DEBUG']] is set *)
  getFullYear : Z -> Z;             (* of [new Date(ms)], local time zone *)
  getMonth : Z -> Z;
  getDate : Z -> Z;
  stringify : details -> list N;    (* [JSON.stringify(details, null, 2)] *)
  mkdirError : list N -> option thrown;   (* what [fs.mkdirSync] throws for a path *)
  writeError : list N -> option thrown;   (* what [fs.writeFileSync] throws for a path *)
}.

Inductive fileContent :=
  | Binary (data : list byte)
  | Text (text : list N).

Inductive consoleLine :=
  | Plain (msg : list N)            (* [logInfo] *)
  | Stamped (msg : list N).         (* [log]: prefixed with the time of day *)

(** The module-level [archivedImages] set, the objects the caller shares
    with the module, the file system and the console. *)
Record State := {
  archivedImages : gset (list N);
  heap : gmap nat details;
  files : gmap (list N) fileContent;
  dirs : gset (list N);
  console : list consoleLine;
}.

Definition log (msg : list N) (st : State) : State :=
  {| archivedImages := archivedImages st; heap := heap st; files := files st;
     dirs := dirs st; console := console st ++ [Stamped msg] |}.

(** [debug] logs only when the DEBUG environment variable is set. *)
Definition debug (env : Env) (msg : list N) (st : State) : State :=
  if DEBUG env then log (JS.str "DEBUG: " ++ msg) st else st.

(** [''+id] and [!id] *)
Definition toStr (id : option (list N)) : list N :=
  match id with
  | Some s => s
  | None => JS.str "undefined"
  end.

Definition falsy (id : option (list N)) : bool :=
  match id with
  | Some (_ :: _) => false
  | _ => true
  end.

Definition number (z : Z) : list N := JS.str (pretty z).

Definition dateDir (env : Env) (unixTime : Z) : list N :=
  let ms := (unixTime * 1000)%Z in
  number (getFullYear env ms) ++ JS.str "/" ++
  number (getMonth env ms + 1)%Z ++ JS.str "/" ++
  number (getDate env ms).

(** [n_path.dirname] of a path with forward slashes: the path up to its
    last slash. *)
Fixpoint dirname (path : list N) : list N :=
  match path with
  | [] => []
  | c :: rest =>
      if existsb (N.eqb (JS.ch "/")) rest then c :: dirname rest else []
  end.

(** The directories [fs.mkdirSync(dirPath, {recursive: true})] makes sure
    of: [dirPath] and the directories above it. *)
Fixpoint ancestors (fuel : nat) (dirPath : list N) : list (list N) :=
  match fuel with
  | O => []
  | S fuel' =>
      match dirPath with
      | [] => []
      | _ => dirPath :: ancestors fuel' (dirname dirPath)
      end
  end.

(** [fs.existsSync(dirPath) && fs.lstatSync(dirPath).isDirectory()]; the
    top of a path (the root, or the working directory) is always there. *)
Definition isDirectory (dirPath : list N) (st : State) : bool :=
  match dirPath with
  | [] => true
  | _ => bool_decide (dirPath ∈ dirs st)
  end.

Definition quoted (path : list N) : list N :=
  JS.str " '" ++ path ++ JS.str "'".

(** [fs.mkdirSync(dirPath, {recursive: true})]: the directory and the
    directories above it are made, unless one of them is a file or the
    system refuses. *)
Definition mkdirSync (env : Env) (dirPath : list N) (st : State)
  : completion State :=
  let made := ancestors (length dirPath) dirPath in
  if existsb (fun d => bool_decide (is_Some (files st !! d))) made
  then Throws (ErrorObject
         ((if bool_decide (is_Some (files st !! dirPath))
           then JS.str "EEXIST: file already exists, mkdir"
           else JS.str "ENOTDIR: not a directory, mkdir") ++ quoted dirPath))
  else
    match mkdirError env dirPath with
    | Some e => Throws e
    | None =>
        Returns {| archivedImages := archivedImages st; heap := heap st;
                   files := files st;
                   dirs := dirs st ∪ list_to_set made;
                   console := console st |}
    end.

(** [ensureDirectory(filePath)]; the path it returns is the one it was
    given. *)
Definition ensureDirectory (env : Env) (filePath : list N) (st : State)
  : completion State :=
  let dirPath := dirname filePath in
  if isDirectory dirPath st then Returns st
  else mkdirSync env dirPath st.

(** [fs.writeFileSync(path, data)]: the file is made or overwritten,
    unless the path is a directory, its directory is not there, or the
    system refuses. *)
Definition writeFileSync (env : Env) (path : list N) (data : fileContent)
    (st : State) : completion State :=
  if bool_decide (path ∈ dirs st)
  then Throws (ErrorObject
         (JS.str "EISDIR: illegal operation on a directory, open" ++ quoted path))
  else if negb (isDirectory (dirname path) st)
  then Throws (ErrorObject
         (JS.str "ENOENT: no such file or directory, open" ++ quoted path))
  else
    match writeError env path with
    | Some e => Throws e
    | None =>
        Returns {| archivedImages := archivedImages st; heap := heap st;
                   files := <[path := data]> (files st);
                   dirs := dirs st; console := console st |}
    end.

(** [fs.writeFileSync(ensureDirectory(path), data)], with the state in
    which it ends. *)
Definition writeEnsured (env : Env) (path : list N) (data : fileContent)
    (st : State) : completion unit * State :=
  match ensureDirectory env path st with
  | Throws e => (Throws e, st)
  | Returns st1 =>
      match writeFileSync env path data st1 with
      | Throws e => (Throws e, st1)
      | Returns st2 => (Returns (), st2)
      end
  end.

Definition setHeap (h : gmap nat details) (st : State) : State :=
  {| archivedImages := archivedImages st; heap := h; files := files st;
     dirs := dirs st; console := console st |}.

Definition addArchived (id : list N) (st : State) : State :=
  {| archivedImages := archivedImages st ∪ {[ id ]}; heap := heap st;
     files := files st; dirs := dirs st; console := console st |}.

(** The two template strings of [archiveImage]. *)
Definition imgPath (env : Env) (id prompt : list N) (unixTime : Z) (ext : list N)
  : list N :=
  archivePath env ++ JS.str "/images/" ++ dateDir env unixTime ++ JS.str "/"
  ++ imgFilename id prompt ++ JS.str "." ++ ext.

Definition recPath (env : Env) (id : list N) (unixTime : Z) : list N :=
  archivePath env ++ JS.str "/database/" ++ dateDir env unixTime ++ JS.str "/"
  ++ id ++ JS.str ".json".

(** The id the function works with once line 83 is passed. *)
Definition effectiveId (env : Env) (id0 : option (list N)) : list N :=
  if falsy id0 then randomUUID env else toStr id0.

(** [archiveImage({id, details, imgData})].  [details] is a reference to
    the caller's object ([None] when the caller passes none); the object
    literal of line 86 is allocated at a fresh address. *)
Definition archiveImage (env : Env)
    (id0 : option (list N)) (details0 : option nat) (imgData : list byte)
    (st : State) : completion unit * State :=
  if bool_decide (toStr id0 ∈ archivedImages st) then (Returns (), st)
  else
    let id1 := effectiveId env id0 in
    let st :=
      if falsy id0
      then debug env (JS.str "Missing ID, generated one: " ++ id1) st
      else st in
    let '(ref, st) :=
      match details0 with
      | Some ref => (ref, st)
      | None =>
          let st := debug env (JS.str "No details for: " ++ id1) st in
          let ref := fresh (dom (heap st)) in
          (ref, setHeap (<[ref := emptyDetails]> (heap st)) st)
      end in
    if (length imgData =? 0)%nat
    then (Throws (ThrownString (JS.str "Error, zero length: " ++ id1)), st)
    else
      let old := default emptyDetails (heap st !! ref) in
      let thePrompt := default (JS.str "[unknown prompt]") (prompt old) in
      let theTime := default (Z.quot (now env) 1000) (unixTime old) in
      let d := {| id := Some id1; prompt := Some thePrompt;
                  unixTime := Some theTime |} in
      let st := setHeap (<[ref := d]> (heap st)) st in
      let st := log (JS.str "Archiving: " ++ id1 ++ JS.str " - " ++ thePrompt) st in
      match getImgExt imgData with
      | Throws e => (Throws e, st)
      | Returns ext =>
          let path := imgPath env id1 thePrompt theTime ext in
          match writeEnsured env path (Binary imgData) st with
          | (Throws e, st) => (Throws e, st)
          | (Returns _, st) =>
              if SKIP_RECORD env then (Returns (), st)
              else
                let path := recPath env id1 theTime in
                match writeEnsured env path (Text (stringify env d)) st with
                | (Throws e, st) => (Throws e, st)
                | (Returns _, st) => (Returns (), addArchived id1 st)
                end
          end
      end.

End Archive.

(** ** The interception engine

    [initializeIntercept] and the handlers it registers.  The handlers are
    functions on the variables they share; what they call outside (the
    protocol, the caller's handlers, the console) is listed as effects, and
    how those calls end is an input.  Three things are fixed by the model:
    a run of [inspectTargetOrNot] is not interleaved with other events at
    its [await]s; [targetHandler] calls [registerInspection] only before it
    returns, as the comment of line 184 expects; and the transport is free
    to deliver an event to any session object on which a listener is
    registered (the module itself never removes a listener).  The listener
    of [Fetch.requestPaused] touches the shared variables only before its
    first [await], so running it in one piece loses no interleaving of
    its effects on them. *)

Module Intercept.

(** A [from] or [intercept] property: one pattern or an array of them. *)
Inductive strings :=
  | One (s : list N)
  | Many (l : list (list N)).

(** [if (typeof x == 'string') x = [x]] *)
Definition toArray (x : strings) : list (list N) :=
  match x with
  | One s => [s]
  | Many l => l
  end.

(** An element of [catchResponses]. *)
Record rule := {
  from : strings;
  intercept : strings;
  serviceWorkerOnly : bool;
  enableNetworkFetch : bool;
}.

(** The arguments of [initializeIntercept] that the model reads, and the
    DEBUG environment variable.  Of a handler only its presence is part of
    the configuration; what a call of it does is an input of the event
    that calls it. *)
Record config := {
  catchResponses : option (list rule);
  responseReceivedHandler : bool;
  targetHandler : bool;
  requestPausedHandler : bool;
  DEBUG : bool;
}.

Record request := {
  requestUrl : list N;
  method : list N;
}.

Record response := {
  status : Z;
  statusText : list N;
  headers : list (list N * list N);
}.

(** The object given to [responseReceivedHandler]; for the observation
    channel it is the very object that waits in the queue.  [oid] is the
    identity of the object. *)
Record report := {
  oid : nat;
  initiator : list N;
  asFetch : bool;
  requestId : list N;
  networkId : option (list N);
  sessionId : list N;
  theRequest : request;
  theResponse : option response;
}.

(** The argument of a [Fetch.requestPaused] event. *)
Record pausedArgs := {
  pausedRequestId : list N;
  pausedNetworkId : option (list N);
  pausedRequest : request;
  responseStatusCode : Z;
  responseHeaders : list (list N * list N);
  responseStatusText : list N;
}.

(** A session object of [cdp.newSession]: its id, the variables its
    listeners close over, and which listeners are registered on it. *)
Record session := {
  sid : list N;
  target : list N;
  url : list N;
  patterns : list (list N);
  shouldInspect : N;
  detachedListener : bool;
  networkListeners : bool;
  pausedListener : bool;
}.

(** The variables of [initializeIntercept] that its handlers share: the
    [sessions] map, the session objects it points to (addressed by their
    position), the [networkResponseCatchQueue] map, and the next object
    identity. *)
Record State := {
  sessions : gmap (list N) nat;
  objects : list session;
  networkResponseCatchQueue : gmap (list N) report;
  nextOid : nat;
}.

Definition initial : State :=
  {| sessions := ∅; objects := []; networkResponseCatchQueue := ∅;
     nextOid := 0 |}.

Inductive sendCommand :=
  | FetchEnable (urlPatterns : list (list N))
  | NetworkEnable
  | FetchContinueRequest (requestId : list N).

Inductive debugArg :=
  | StartMonitor (targetId url : list N)
  | StopMonitor (targetId url : list N)
  | NetworkFetchEnabled
  | ErrorMonitor (e : thrown)
  | Caught (e : thrown).

(** What a handler does that is visible outside the shared variables, in
    the order in which it does it. *)
Inductive effect :=
  | CallTargetHandler (type url : list N)
  | ResolveRegistration (session : option nat)
  | NewSession (targetId : list N)
  | SessionSend (session : nat) (command : sendCommand)
  | SessionDetach (session : nat)
  | CallResponseReceived (r : report)
  | CallRequestPaused (args : pausedArgs)
  | ConsoleLog (arg : debugArg).

(** [debug(...)]: a line on the console when DEBUG is set, nothing
    otherwise. *)
Definition debug (c : config) (arg : debugArg) : list effect :=
  if DEBUG c then [ConsoleLog arg] else [].

(** The outcome of awaiting a promise. *)
Inductive settled (A : Type) :=
  | Resolved (a : A)
  | Rejected (e : thrown).
Arguments Resolved {A} a.
Arguments Rejected {A} e.

(** *** [initializeIntercept] up to target discovery *)






Definition truthy {A} (x : option A) : bool :=
  match x with
  | Some _ => true
  | None => false
  end.

(** The test of line 115. *)
Definition mismatched (c : config) : bool :=
  (truthy (catchResponses c) || responseReceivedHandler c)
  && negb (truthy (catchResponses c) && responseReceivedHandler c).




(** *** [inspectTargetOrNot] *)

Definition byTargetHandler : N := 1.
Definition byResponseCatcher : N := 2.

Definition flagged (mask flag : N) : bool := negb (N.land mask flag =? 0).

(** The loop over [catchResponses]: the patterns pushed and whether a
    matching rule asked for the observation channel. *)
Fixpoint catchLoop (rules : list rule) (theUrl type : list N)
  : list (list N) * bool :=
  match rules with
  | [] => ([], false)
  | r :: rules' =>
      let '(ps, net) := catchLoop rules' theUrl type in
      if testMultiple theUrl (toArray (from r))
         && (negb (serviceWorkerOnly r)
             || bool_decide (type = JS.str "service_worker"))
      then (toArray (intercept r) ++ ps, enableNetworkFetch r || net)
      else (ps, net)
  end.

Inductive stage := AtNewSession | AtReady | AtFetchEnable | AtNetworkEnable.

(** What the environment contributes to one run of [inspectTargetOrNot]:
    the [intercept] argument of each call of [registerInspection] that
    [targetHandler] makes before it returns, whether [targetHandler]
    throws, the id of the session that [cdp.newSession] would make, the
    step of the binding that fails, if one does, and whether the promise of
    [detach()] is rejected. *)
Record targetInput := {
  registrations : list (list (list N));
  handlerThrows : option thrown;
  newSessionId : list N;
  failsAt : option (stage * thrown);
  detachRejects : option thrown;
}.

Definition fails (i : targetInput) (s : stage) : option thrown :=
  match failsAt i with
  | Some (s', e) =>
      match s, s' with
      | AtNewSession, AtNewSession | AtReady, AtReady
      | AtFetchEnable, AtFetchEnable | AtNetworkEnable, AtNetworkEnable => Some e
      | _, _ => None
      end
  | None => None
  end.

Definition setSessions (m : gmap (list N) nat) (st : State) : State :=
  {| sessions := m; objects := objects st;
     networkResponseCatchQueue := networkResponseCatchQueue st;
     nextOid := nextOid st |}.

Definition setObjects (l : list session) (st : State) : State :=
  {| sessions := sessions st; objects := l;
     networkResponseCatchQueue := networkResponseCatchQueue st;
     nextOid := nextOid st |}.

Definition setQueue (q : gmap (list N) report) (st : State) : State :=
  {| sessions := sessions st; objects := objects st;
     networkResponseCatchQueue := q; nextOid := nextOid st |}.

Definition bumpOid (st : State) : State :=
  {| sessions := sessions st; objects := objects st;
     networkResponseCatchQueue := networkResponseCatchQueue st;
     nextOid := S (nextOid st) |}.

(** The [try] block of lines 189-262 for a target that is not inspected
    yet: the session object as the block leaves it, and its effects.
    [registered] says whether [registerInspectionResolve] is set. *)
Definition bind (c : config) (i : targetInput) (targetId theUrl : list N)
    (mask : N) (pats : list (list N)) (net registered : bool) (st : State)
  : State * list effect :=
  let caught e :=
    debug c (ErrorMonitor e)
    ++ (if registered then [ResolveRegistration None] else []) in
  match fails i AtNewSession with
  | Some e => (st, NewSession targetId :: caught e)
  | None =>
      let ref := length (objects st) in
      let made listeners_net listeners_paused :=
        {| sid := newSessionId i; target := targetId; url := theUrl;
           patterns := pats; shouldInspect := mask;
           detachedListener := true;
           networkListeners := listeners_net;
           pausedListener := listeners_paused |} in
      let store s :=
        setObjects (objects st ++ [s])
          (setSessions (<[targetId := ref]> (sessions st)) st) in
      let e0 := NewSession targetId :: debug c (StartMonitor targetId theUrl) in
      match fails i AtReady with
      | Some e => (store (made false false), e0 ++ caught e)
      | None =>
          let e1 :=
            e0 ++ (if registered then [ResolveRegistration (Some ref)] else []) in
          if flagged mask byResponseCatcher then
            let e2 := e1 ++ [SessionSend ref (FetchEnable pats)] in
            match fails i AtFetchEnable with
            | Some e => (store (made false false), e2 ++ caught e)
            | None =>
                if net then
                  let e3 :=
                    e2 ++ debug c NetworkFetchEnabled
                       ++ [SessionSend ref NetworkEnable] in
                  match fails i AtNetworkEnable with
                  | Some e => (store (made false false), e3 ++ caught e)
                  | None => (store (made true true), e3)
                  end
                else (store (made false true), e2)
            end
          else (store (made false true), e1)
      end
  end.

Definition notIterable : thrown :=
  TypeError (JS.str "catchResponses is not iterable").

Definition inspectTargetOrNot (c : config) (targetId theUrl type : list N)
    (i : targetInput) (st : State) : State * list effect * completion unit :=
  let beingInspected := bool_decide (is_Some (sessions st !! targetId)) in
  match catchResponses c with
  | None => (st, [], Throws notIterable)
  | Some rules =>
      let '(pats, net) := catchLoop rules theUrl type in
      let mask := if bool_decide (pats = []) then 0 else byResponseCatcher in
      (* the call of [targetHandler] and what [registerInspection] did *)
      let called := targetHandler c in
      let regs := if called then registrations i else [] in
      let registered := bool_decide (regs <> []) in
      let mask := if registered then N.lor mask byTargetHandler else mask in
      let pats := pats ++ concat regs in
      let e0 := if called then [CallTargetHandler type theUrl] else [] in
      match (if called then handlerThrows i else None) with
      | Some e => (st, e0, Throws e)
      | None =>
          let '(st, e1) :=
            if negb (mask =? 0) && negb beingInspected
            then bind c i targetId theUrl mask pats net registered st
            else (st, if registered then [ResolveRegistration None] else []) in
          if beingInspected && (mask =? 0)
          then
            match sessions st !! targetId with
            | Some ref =>
                (setSessions (delete targetId (sessions st)) st,
                 e0 ++ e1 ++ [SessionDetach ref]
                 ++ match detachRejects i with
                    | Some e => debug c (Caught e)
                    | None => []
                    end,
                 Returns ())
            | None => (st, e0 ++ e1, Returns ())
            end
          else (st, e0 ++ e1, Returns ())
      end
  end.

(** *** The listeners of a session *)

(** The [once('detached')] listener. *)
Definition onDetached (c : config) (ref : nat) (s : session) (st : State)
  : State * list effect * completion unit :=
  let s' := {| sid := sid s; target := target s; url := url s;
               patterns := patterns s; shouldInspect := shouldInspect s;
               detachedListener := false;
               networkListeners := networkListeners s;
               pausedListener := pausedListener s |} in
  (setObjects (<[ref := s']> (objects st))
     (setSessions (delete (target s) (sessions st)) st),
   debug c (StopMonitor (target s) (url s)), Returns ()).

Definition onRequestWillBeSent (s : session) (req : request) (rid : list N)
    (st : State) : State * list effect * completion unit :=
  if testMultiple (requestUrl req) (patterns s)
  then
    let details :=
      {| oid := nextOid st; initiator := url s; asFetch := false;
         requestId := rid; networkId := None; sessionId := sid s;
         theRequest := req; theResponse := None |} in
    (bumpOid (setQueue (<[rid := details]> (networkResponseCatchQueue st)) st),
     [], Returns ())
  else (st, [], Returns ()).

Definition setResponse (resp : response) (r : report) : report :=
  {| oid := oid r; initiator := initiator r; asFetch := asFetch r;
     requestId := requestId r; networkId := networkId r;
     sessionId := sessionId r; theRequest := theRequest r;
     theResponse := Some resp |}.

Definition onResponseReceived (resp : response) (rid : list N) (st : State)
  : State * list effect * completion unit :=
  match networkResponseCatchQueue st !! rid with
  | Some result =>
      (setQueue (<[rid := setResponse resp result]> (networkResponseCatchQueue st)) st,
       [], Returns ())
  | None => (st, [], Returns ())
  end.

Definition notAFunction : thrown :=
  TypeError (JS.str "responseReceivedHandler is not a function").

(** [handlerThrew]: what the synchronous part of the handler throws, if it
    throws. *)
Definition onLoadingFinished (c : config) (rid : list N)
    (handlerThrew : option thrown) (st : State)
  : State * list effect * completion unit :=
  match networkResponseCatchQueue st !! rid with
  | Some result =>
      let st := setQueue (delete rid (networkResponseCatchQueue st)) st in
      if responseReceivedHandler c
      then (st, [CallResponseReceived result],
            match handlerThrew with
            | Some e => Throws e
            | None => Returns ()
            end)
      else (st, [], Throws notAFunction)
  | None => (st, [], Returns ())
  end.

(** What the environment contributes to one [Fetch.requestPaused] event:
    how the promise of [responseReceivedHandler] settles, how that of
    [requestPausedHandler] settles (and whether its value is truthy), and
    how the [Fetch.continueRequest] command settles. *)
Record pausedInput := {
  received : settled unit;
  rawPause : settled bool;
  continued : settled unit;
}.

(** Lines 236-238: the part of the [try] block that runs before
    [responseReceivedHandler] is called. *)
Definition pausedEvict (s : session) (args : pausedArgs) (st : State) : State :=
  if flagged (shouldInspect s) byResponseCatcher
  then
    match pausedNetworkId args with
    | Some nid => setQueue (delete nid (networkResponseCatchQueue st)) st
    | None => st
    end
  else st.

Definition pausedReport (s : session) (args : pausedArgs) (st : State) : report :=
  {| oid := nextOid st; initiator := url s; asFetch := true;
     requestId := pausedRequestId args; networkId := pausedNetworkId args;
     sessionId := sid s; theRequest := pausedRequest args;
     theResponse :=
       Some {| status := responseStatusCode args;
               statusText := responseStatusText args;
               headers := responseHeaders args |} |}.

(** Whether [requestPausedHandler] is called: the call of
    [responseReceivedHandler], if there was one, did not throw, the target
    handler registered its interest, and the handler exists. *)
Definition rawPauseRuns (c : config) (s : session) (i : pausedInput) : bool :=
  (if flagged (shouldInspect s) byResponseCatcher
   then responseReceivedHandler c
        && match received i with Resolved _ => true | Rejected _ => false end
   else true)
  && flagged (shouldInspect s) byTargetHandler
  && requestPausedHandler c.

(** The [Fetch.requestPaused] listener. *)
Definition onRequestPaused (c : config) (ref : nat) (s : session)
    (args : pausedArgs) (i : pausedInput) (st : State)
  : State * list effect * completion unit :=
  let st1 := pausedEvict s args st in
  (* the [try] block, up to the first thing that throws *)
  let '(st2, e1, r1) :=
    if flagged (shouldInspect s) byResponseCatcher
    then
      if responseReceivedHandler c
      then (bumpOid st1, [CallResponseReceived (pausedReport s args st1)],
            received i)
      else (st1, [], Rejected notAFunction)
    else (st1, [], Resolved ()) in
  let '(e2, r2) :=
    match r1 with
    | Rejected e => ([], Rejected e)
    | Resolved _ =>
        if flagged (shouldInspect s) byTargetHandler && requestPausedHandler c
        then ([CallRequestPaused args], rawPause i)
        else ([], Resolved false)
    end in
  (* [catch] *)
  let '(e3, doNotContinue) :=
    match r2 with
    | Rejected e => (debug c (Caught e), false)
    | Resolved b => ([], b)
    end in
  (* [finally] *)
  let e4 :=
    if doNotContinue then []
    else SessionSend ref (FetchContinueRequest (pausedRequestId args))
         :: match continued i with
            | Rejected e => debug c (Caught e)
            | Resolved _ => []
            end in
  (st2, e1 ++ e2 ++ e3 ++ e4, Returns ()).

(** *** The [Fetch.requestPaused] listener between its awaits

    The listener is an async function: it runs up to an [await], gives the
    control back, and goes on when the awaited promise has settled; in
    between, the listeners of other events run on the same shared
    variables.  [onRequestPaused] above is the listener run in one go; here
    it is cut at its awaits.  A journal pairs every effect with the shared
    variables as they are when the effect happens. *)

Inductive suspension :=
  | AwaitsReceived        (* line 240: the promise of [responseReceivedHandler] *)
  | AwaitsRawPause        (* line 249: the promise of [requestPausedHandler] *)
  | Completed.

Definition journal := list (effect * State).

(** [catch] and [finally], given how the [try] block ended. *)
Definition pausedFinish (c : config) (ref : nat) (args : pausedArgs)
    (i : pausedInput) (ended : settled bool) (st : State) : journal :=
  let e3 :=
    match ended with
    | Rejected e => debug c (Caught e)
    | Resolved _ => []
    end in
  let doNotContinue :=
    match ended with
    | Rejected _ => false
    | Resolved b => b
    end in
  let e4 :=
    if doNotContinue then []
    else SessionSend ref (FetchContinueRequest (pausedRequestId args))
         :: match continued i with
            | Rejected e => debug c (Caught e)
            | Resolved _ => []
            end in
  (fun e => (e, st)) <$> (e3 ++ e4).

(** Lines 246-250: the second [if] of the [try] block, up to its [await]
    or to the end of the listener. *)
Definition pausedSecond (c : config) (ref : nat) (s : session)
    (args : pausedArgs) (i : pausedInput) (st : State) : journal * suspension :=
  if flagged (shouldInspect s) byTargetHandler && requestPausedHandler c
  then ([(CallRequestPaused args, st)], AwaitsRawPause)
  else (pausedFinish c ref args i (Resolved false) st, Completed).

(** From the event up to the first [await]: line 238 deletes the entry,
    line 240 builds the report and calls the handler with it. *)
Definition pausedStart (c : config) (ref : nat) (s : session)
    (args : pausedArgs) (i : pausedInput) (st : State)
  : State * journal * suspension :=
  if flagged (shouldInspect s) byResponseCatcher
  then
    let st1 := pausedEvict s args st in
    if responseReceivedHandler c
    then
      let report := pausedReport s args st1 in
      let st2 := bumpOid st1 in
      (st2, [(CallResponseReceived report, st2)], AwaitsReceived)
    else (st1, pausedFinish c ref args i (Rejected notAFunction) st1, Completed)
  else
    let '(j, p) := pausedSecond c ref s args i st in (st, j, p).

(** From the settling of the awaited promise up to the next [await] or to
    the end of the listener, in the state [st] of that moment. *)
Definition pausedResume (c : config) (ref : nat) (s : session)
    (args : pausedArgs) (i : pausedInput) (p : suspension) (st : State)
  : journal * suspension :=
  match p with
  | AwaitsReceived =>
      match received i with
      | Rejected e => (pausedFinish c ref args i (Rejected e) st, Completed)
      | Resolved _ => pausedSecond c ref s args i st
      end
  | AwaitsRawPause => (pausedFinish c ref args i (rawPause i) st, Completed)
  | Completed => ([], Completed)
  end.

(** *** Events *)

Inductive event :=
  | TargetCreated (targetId theUrl type : list N) (i : targetInput)
  | TargetInfoChanged (targetId theUrl type : list N) (i : targetInput)
  | Detached (ref : nat)
  | RequestWillBeSent (ref : nat) (req : request) (rid : list N)
  | ResponseReceived (ref : nat) (resp : response) (rid : list N)
  | LoadingFinished (ref : nat) (rid : list N) (handlerThrew : option thrown)
  | RequestPaused (ref : nat) (args : pausedArgs) (i : pausedInput).

(** An event of a session reaches a listener only if the session object
    exists and the listener is registered on it. *)
Definition withListener (st : State) (ref : nat) (registered : session -> bool)
    (k : session -> State * list effect * completion unit)
  : State * list effect * completion unit :=
  match objects st !! ref with
  | Some s => if registered s then k s else (st, [], Returns ())
  | None => (st, [], Returns ())
  end.

Definition step (c : config) (ev : event) (st : State)
  : State * list effect * completion unit :=
  match ev with
  | TargetCreated targetId theUrl type i
  | TargetInfoChanged targetId theUrl type i =>
      inspectTargetOrNot c targetId theUrl type i st
  | Detached ref =>
      withListener st ref detachedListener (fun s => onDetached c ref s st)
  | RequestWillBeSent ref req rid =>
      withListener st ref networkListeners
        (fun s => onRequestWillBeSent s req rid st)
  | ResponseReceived ref resp rid =>
      withListener st ref networkListeners
        (fun _ => onResponseReceived resp rid st)
  | LoadingFinished ref rid handlerThrew =>
      withListener st ref networkListeners
        (fun _ => onLoadingFinished c rid handlerThrew st)
  | RequestPaused ref args i =>
      withListener st ref pausedListener
        (fun s => onRequestPaused c ref s args i st)
  end.

(** The events of a run, one after the other.  A handler that throws
    leaves the shared variables as they were when it threw; the run goes
    on with the next event. *)
Fixpoint run (c : config) (evs : list event) (st : State)
  : State * list effect :=
  match evs with
  | [] => (st, [])
  | ev :: evs' =>
      let '(st', effects, _) := step c ev st in
      let '(st'', effects') := run c evs' st' in
      (st'', effects ++ effects')
  end.

(** The reports handed to [responseReceivedHandler]. *)
Fixpoint emitted (effects : list effect) : list report :=
  match effects with
  | [] => []
  | CallResponseReceived r :: effects' => r :: emitted effects'
  | _ :: effects' => emitted effects'
  end.

End Intercept.

(** ** The scan of the database directory

    [detectArchivedImages].  The directory tree is what [fs.readdirSync]
    answers, path by path; an entry is a name and what [isDirectory()]
    says.  The property [entry.isFile] of line 293 is a method that is not
    called, so it is always truthy and nothing of it is modelled.  The
    [while] loop has no bound of its own and takes fuel. *)
Module Scan.

Record Dirent := {
  name : list N;
  isDirectory : bool;
}.

(** [fs.readdirSync(path, {withFileTypes: true})] *)
Definition readdirSync := list N -> completion (list Dirent).

(** [array.pop()]: the last element, and the array without it. *)
Fixpoint pop {A : Type} (a : list A) : option (A * list A) :=
  match a with
  | [] => None
  | x :: a' =>
      match pop a' with
      | None => Some (x, [])
      | Some (y, r) => Some (y, x :: r)
      end
  end.

(** [name.slice(0, -5)] *)
Definition withoutJson (name : list N) : list N :=
  take (length name - 5) name.

(** One round of the [for] loop over the entries of [path]. *)
Definition visit (path : list N)
    (acc : list (list N) * gset (list N)) (entry : Dirent)
  : list (list N) * gset (list N) :=
  let '(dirsToScan, archivedImages) := acc in
  if isDirectory entry
  then (dirsToScan ++ [path ++ JS.str "/" ++ name entry], archivedImages)
  else if JS.endsWith (name entry) (JS.str ".json")
  then (dirsToScan, archivedImages ∪ {[ withoutJson (name entry) ]})
  else (dirsToScan, archivedImages).

(** The [while] loop; [None] when the fuel runs out.  An empty path is
    falsy and ends the loop like an empty array does. *)
Fixpoint scan (fuel : nat) (readdir : readdirSync)
    (dirsToScan : list (list N)) (archivedImages : gset (list N))
  : option (completion unit * gset (list N)) :=
  match fuel with
  | O => None
  | S fuel' =>
      match pop dirsToScan with
      | None => Some (Returns (), archivedImages)
      | Some ([], _) => Some (Returns (), archivedImages)
      | Some (path, dirsToScan) =>
          match readdir path with
          | Throws e => Some (Throws e, archivedImages)
          | Returns entries =>
              let '(dirsToScan, archivedImages) :=
                foldl (visit path) (dirsToScan, archivedImages) entries in
              scan fuel' readdir dirsToScan archivedImages
          end
      end
  end.

Definition detectArchivedImages (fuel : nat) (archivePath : list N)
    (readdir : readdirSync) (archivedImages : gset (list N))
  : option (completion unit * gset (list N)) :=
  scan fuel readdir [archivePath ++ JS.str "/database"] archivedImages.

End Scan.

(** ** The command line and the configuration file

    [parseCliArgs] (for [asMap = true], the only way the module calls it),
    [handleCliArguments], [loadConfig] and [pickPathThatExists].  A [Map]
    is the list of its entries in insertion order.  The configuration is
    the object [JSON.parse] returns, a map from property names to values;
    what the file system, the path library, the platform and the random
    generator answer is taken from the environment.  [process.exit()] ends
    a run for good, so it is an outcome of its own beside returning and
    throwing. *)
Module Cli.

Definition apostrophe : N := 39.
Definition doubleQuote : N := 34.
Definition lineFeed : N := 10.
Definition percent : N := 37.

(** [s.indexOf(c)] *)
Fixpoint indexOf (c : N) (s : list N) : option nat :=
  match s with
  | [] => None
  | d :: r => if d =? c then Some 0%nat else S <$> indexOf c r
  end.

(** [wrappedIn(value, ...chars)]: the first of [chars] that [value] both
    starts and ends with. *)
Definition wrappedIn (value : list N) (chars : list N) : option N :=
  find (fun char => JS.startsWith value [char] && JS.endsWith value [char]) chars.

(** [value.slice(1, -1)] *)
Definition slice1 (value : list N) : list N :=
  take (length value - 2) (drop 1 value).

(** A [Map] from titles to values; [None] is the value [undefined]. *)
Definition args := list (list N * option (list N)).

Fixpoint set (title : list N) (value : option (list N)) (m : args) : args :=
  match m with
  | [] => [(title, value)]
  | (title', value') :: m' =>
      if bool_decide (title' = title) then (title, value) :: m'
      else (title', value') :: set title value m'
  end.

Fixpoint get (title : list N) (m : args) : option (option (list N)) :=
  match m with
  | [] => None
  | (title', value') :: m' =>
      if bool_decide (title' = title) then Some value' else get title m'
  end.

Definition has (title : list N) (m : args) : bool :=
  bool_decide (is_Some (get title m)).

(** The body of the loop of [parseCliArgs]: the title and the value of one
    argument. *)
Definition parseArg (arg : list N) : list N * option (list N) :=
  match indexOf (JS.ch "=") arg with
  | Some eqSign =>
      let title := take eqSign arg in
      let value := drop (S eqSign) arg in
      let value :=
        match wrappedIn value [apostrophe; doubleQuote] with
        | Some _ => slice1 value
        | None => value
        end in
      (title, Some value)
  | None => (arg, None)
  end.

(** [parseCliArgs(true)], [argv] being [process.argv]. *)
Definition parseCliArgs (argv : list (list N)) : args :=
  foldl (fun args arg => let '(title, value) := parseArg arg in
                         set title value args)
        [] (drop 2 argv).

(** The values of the properties of the configuration object.  JSON has
    no [undefined]; it appears when a command without a value is stored.
    Arrays, objects and [null] are [VOther]. *)
Inductive value :=
  | VUndefined
  | VBool (b : bool)
  | VNumber (q : QArith_base.Q)
  | VString (s : list N)
  | VOther.


(** What [JSON.parse(fs.readFileSync(cfgPath, 'utf-8'))] gives: an error
    of the file system or of the parser, [null], an object, or another
    value (a number, a string, a boolean or an array). *)
Inductive parsed :=
  | Unreadable (error : thrown)
  | ParsedNull
  | ParsedObject (cfg : gmap (list N) value)
  | ParsedOther.

Record Env := {
  archiverName : list N;                     (* [archiverName_] *)
  argv : list (list N);                      (* [process.argv] *)
  readConfig : list N -> parsed;
  basename : list N -> list N;               (* [n_path.basename] *)
  isAbsolute : list N -> bool;               (* [n_path.isAbsolute] *)
  platform : list N;                         (* [process.platform] *)
  cwd : list N;                              (* [process.cwd()] *)
  getenv : list N -> option (list N);        (* [process.env[key]] *)
  existsSync : list N -> bool;               (* [fs.existsSync] *)
  randomInt : Z -> Z -> Z;                   (* [randomInt(min, max)] *)
  mkdirThrows : option thrown;               (* of [ensureDirectory(cfgPath)] *)
  writeThrows : option thrown;               (* of [fs.writeFileSync(cfgPath, ...)] *)
}.

(** An argument of [console.log]. *)
Inductive logValue :=
  | LString (s : list N)
  | LUndefined
  | LThrown (error : thrown).

(** The default values of lines 344 to 362. *)
Record defaults := {
  cdpPort : Z;
  chromiumPath : list N;
  archivePath : list N;
}.

Inductive effect :=
  | ReadConfig (cfgPath : list N)
  | LogInfo (values : list logValue)
  | EnsureDirectory (filePath : list N)
  | WriteFile (path : list N) (content : defaults).   (* [JSON.stringify(cfg, null, 2)] *)

Inductive error :=
  | TypeErrorValueOfUndefined      (* [argMap.get('--config').value] *)
  | ReferenceErrorCmd.             (* [cmd] is not declared *)

Inductive outcome (A : Type) :=
  | Returned (a : A)
  | Raised (e : error)
  | Exited.
Arguments Returned {A} a.
Arguments Raised {A} e.
Arguments Exited {A}.

(** [path.replace(/%([^%]+)%/g, (_, key) => process.env[key])].  A match
    is a percent sign, one or more code units that are no percent sign,
    and a percent sign; [key] holds, in reverse, the code units read since
    a percent sign that may open a match.  A variable that is not set is
    replaced by the text [undefined]. *)
Fixpoint expand (getenv : list N -> option (list N))
    (key : option (list N)) (path : list N) : list N :=
  match path with
  | [] =>
      match key with
      | Some k => percent :: reverse k
      | None => []
      end
  | c :: rest =>
      match key with
      | None =>
          if c =? percent then expand getenv (Some []) rest
          else c :: expand getenv None rest
      | Some [] =>
          if c =? percent then percent :: expand getenv (Some []) rest
          else expand getenv (Some [c]) rest
      | Some k =>
          if c =? percent
          then default (JS.str "undefined") (getenv (reverse k))
               ++ expand getenv None rest
          else expand getenv (Some (c :: k)) rest
      end
  end.

Fixpoint pickPathThatExists (env : Env) (choices : list (list N))
  : option (list N) :=
  match choices with
  | [] => None
  | path :: choices' =>
      let path :=
        if bool_decide (platform env = JS.str "win32")
        then JS.replaceAll [JS.backslash] (JS.str "/") (expand (getenv env) None path)
        else path in
      if existsSync env path then Some path
      else pickPathThatExists env choices'
  end.

(** [a || b] for a string or [undefined] on the left. *)
Definition orElse (a : option (list N)) (b : list N) : list N :=
  match a with
  | Some (c :: s) => c :: s
  | _ => b
  end.

Definition defaultConfig (env : Env) : defaults :=
  {| cdpPort := randomInt env 10000 65534;
     chromiumPath :=
       if bool_decide (platform env = JS.str "win32") then
         orElse (pickPathThatExists env
                   [ JS.str "%ProgramFiles%/Google/Chrome/Application/chrome.exe";
                     JS.str "%ProgramFiles(x86)%/Google/Chrome/Application/chrome.exe";
                     JS.str "%LocalAppData%/Google/Chrome/Application/chrome.exe" ])
                (JS.str "c:/path/to/chromium-compatible-browser.exe")
       else if bool_decide (platform env = JS.str "darwin") then
         orElse (pickPathThatExists env
                   [ JS.str "~/Library/Application Support/Google/Chrome" ])
                (JS.str "/path/to/chromium-compatible-browser")
       else JS.str "google-chrome";
     archivePath :=
       if bool_decide (platform env = JS.str "win32")
       then JS.replaceAll [JS.backslash] (JS.str "/") (cwd env)
       else cwd env |}.

(** The [try] block of lines 330 to 339, given what was read. *)
Definition validate (env : Env) (cfgFileName : list N) (p : parsed)
  : completion (gmap (list N) value) :=
  match p with
  | Unreadable error => Throws error
  | ParsedNull =>
      Throws (TypeError
        (JS.str "Cannot read properties of null (reading 'cdpPort')"))
  | ParsedOther =>
      Throws (ThrownString (JS.str "Missing cdpPort in " ++ cfgFileName ++ JS.str "."))
  | ParsedObject cfg =>
      match cfg !! JS.str "cdpPort" with
      | Some (VNumber _) =>
          match cfg !! JS.str "chromiumPath" with
          | Some (VString _) =>
              match cfg !! JS.str "archivePath" with
              | Some (VString archivePath) =>
                  let archivePath :=
                    if JS.endsWith archivePath (JS.str "/")
                       || JS.endsWith archivePath [JS.backslash]
                    then JS.dropLast archivePath else archivePath in
                  if negb (isAbsolute env archivePath)
                  then Throws (ThrownString
                         (JS.str "The archivePath must be absolute, not this relative path: "
                          ++ archivePath))
                  else Returns
                         (<[JS.str "archivePath" :=
                              VString (JS.replaceAll [JS.backslash] (JS.str "/")
                                         archivePath)]> cfg)
              | _ => Throws (ThrownString
                       (JS.str "Missing archivePath in " ++ cfgFileName ++ JS.str "."))
              end
          | _ => Throws (ThrownString
                   (JS.str "Missing chromiumPath in " ++ cfgFileName ++ JS.str "."))
          end
      | _ => Throws (ThrownString
               (JS.str "Missing cdpPort in " ++ cfgFileName ++ JS.str "."))
      end
  end.

(** [error.message]: a thrown string has none. *)
Definition message (error : thrown) : logValue :=
  match error with
  | ThrownString _ => LUndefined
  | TypeError msg => LString msg
  | ErrorObject msg => LString msg
  end.

(** The inner [try] of the [catch] block: the default file is written,
    or the failure to do so is reported. *)
Definition createDefault (env : Env) (cfgPath : list N) : list effect :=
  let failed error :=
    [LogInfo [LString (JS.str "Failed creating it, error:"); LThrown error]] in
  match mkdirThrows env with
  | Some error => failed error
  | None =>
      EnsureDirectory cfgPath ::
      match writeThrows env with
      | Some error => failed error
      | None => [WriteFile cfgPath (defaultConfig env)]
      end
  end.

(** [loadConfig(cfgPath)]; [None] is an argument that is [undefined], for
    which the default of the parameter is taken. *)
Definition loadConfig (env : Env) (cfgPath : option (list N))
  : list effect * outcome (gmap (list N) value) :=
  let cfgPath := default (archiverName env ++ JS.str ".json") cfgPath in
  let cfgFileName := basename env cfgPath in
  match validate env cfgFileName (readConfig env cfgPath) with
  | Returns cfg =>
      ([ReadConfig cfgPath],
       Returned (<[JS.str "cfgFileName" := VString cfgFileName]> cfg))
  | Throws error =>
      (ReadConfig cfgPath ::
       LogInfo [LString (JS.str "No valid " ++ cfgFileName
                  ++ JS.str " found, creating one with default values. Please check it before running me again! The error message was:");
                message error] ::
       createDefault env cfgPath,
       Exited)
  end.

(** [x.value] where [x] is what [argMap.get] returned: reading a property
    of [undefined] throws, and a string has no property of that name. *)
Definition valueProperty (x : option (list N)) : outcome (option (list N)) :=
  match x with
  | None => Raised TypeErrorValueOfUndefined
  | Some _ => Returned None
  end.

Definition usage (env : Env) : list N :=
  JS.str "Usage: [--config=location] " ++ [lineFeed]
  ++ JS.str "See https://github.com/JoakimCh/" ++ archiverName env
  ++ JS.str " for more help.".

Definition toValue (v : option (list N)) : value :=
  match v with
  | Some s => VString s
  | None => VUndefined
  end.

(** What [console.log] is given for a property of the configuration. *)
Definition logged (v : option value) : logValue :=
  match v with
  | Some (VString s) => LString s
  | _ => LUndefined
  end.

(** The loop over the entries of [argMap] with its [switch]. *)
Fixpoint commands (env : Env) (entries : args) (cfg : gmap (list N) value)
  : list effect * outcome (gmap (list N) value) :=
  match entries with
  | [] => ([], Returned cfg)
  | (title, value) :: entries' =>
      if bool_decide (title = JS.str "-h") || bool_decide (title = JS.str "--help")
      then ([LogInfo [LString (usage env)]], Exited)
      else if bool_decide (title = JS.str "-v") || bool_decide (title = JS.str "-V")
              || bool_decide (title = JS.str "--version")
      then ([], Exited)
      else if bool_decide (title = JS.str "--webSocketDebuggerUrl")
      then commands env entries'
             (<[JS.str "webSocketDebuggerUrl" := toValue value]> cfg)
      else if bool_decide (title = JS.str "--printWebSocketDebuggerUrl")
      then commands env entries'
             (<[JS.str "printWebSocketDebuggerUrl" := VBool true]> cfg)
      else ([], Raised ReferenceErrorCmd)
  end.

(** [handleCliArguments()]; what it returns here is the value it leaves
    in the module variable [cfg]. *)
Definition handleCliArguments (env : Env) : list effect * outcome (gmap (list N) value) :=
  let argMap := parseCliArgs (argv env) in
  let loaded :=
    if has (JS.str "--config") argMap
    then match valueProperty (mjoin (get (JS.str "--config") argMap)) with
         | Returned cfgPath => loadConfig env cfgPath
         | Raised e => ([], Raised e)
         | Exited => ([], Exited)
         end
    else loadConfig env None in
  match loaded with
  | (effects, Returned cfg) =>
      let '(effects', result) := commands env argMap cfg in
      (effects
       ++ LogInfo [LString (JS.str "Using archive directory:");
                   logged (cfg !! JS.str "archivePath")]
       :: effects',
       result)
  | (effects, Raised e) => (effects, Raised e)
  | (effects, Exited) => (effects, Exited)
  end.

End Cli.

(* ================================================================== *)
(** * Definitions for the statements

    The readings of the specification that the code is compared with, the
    invariants of the shared state, and the concrete inputs of the
    examples. *)

Section WildcardTerms.

Import RegExp.

(** What one code unit of a wildcard pattern becomes in the source. *)
Definition unitSource (c : N) : list N :=
  if isSpecialRegexChar c then [JS.backslash; c]
  else if c =? JS.ch "*" then JS.str ".*"
  else if c =? JS.ch "?" then JS.str "."
  else [c].

(** ... and in the compiled expression. *)
Definition unitTerm (c : N) : term :=
  if c =? JS.ch "*" then TStar ADot
  else if c =? JS.ch "?" then TAtom ADot
  else TAtom (AChar c).

End WildcardTerms.

Section FilenameSpec.

Import Archive.








End FilenameSpec.

Section Signatures.

Import Archive.

(** The signature table in bytes, in the order of the source literal. *)
Definition signatures : list (list byte * list N) :=
  [ ([x42; x4d], JS.str "bmp");
    ([xff; xd8; xff], JS.str "jpg");
    ([x47; x49; x46; x38], JS.str "gif");
    ([x89; x50; x4e; x47; x0d; x0a; x1a; x0a], JS.str "png");
    ([x52; x49; x46; x46; x57; x45; x42; x50], JS.str "webp") ].

(** Reading two hexadecimal digits back. *)
Definition unhexDigit (c : N) : N := if c <? 58 then c - 48 else c - 87.

Definition unhex (h l : N) : option byte :=
  Strings.Byte.of_N (16 * unhexDigit h + unhexDigit l).

End Signatures.

(** A concrete environment and an empty archive, for the examples. *)
Definition sampleEnv : Archive.Env :=
  {| Archive.archivePath := JS.str "/archive";
     Archive.randomUUID := JS.str "0b0e3c1e-uuid";
     Archive.now := 1709636400500;
     Archive.SKIP_RECORD := false;
     Archive.DEBUG := false;
     Archive.getFullYear := fun _ => 2024%Z;
     Archive.getMonth := fun _ => 2%Z;
     Archive.getDate := fun _ => 5%Z;
     Archive.stringify := fun d => JS.str "{}";
     Archive.mkdirError := fun _ => None;
     Archive.writeError := fun _ => None |}.

(** The same environment with the SKIP_RECORD variable set. *)
Definition skipEnv : Archive.Env :=
  {| Archive.archivePath := JS.str "/archive";
     Archive.randomUUID := JS.str "0b0e3c1e-uuid";
     Archive.now := 1709636400500;
     Archive.SKIP_RECORD := true;
     Archive.DEBUG := false;
     Archive.getFullYear := fun _ => 2024%Z;
     Archive.getMonth := fun _ => 2%Z;
     Archive.getDate := fun _ => 5%Z;
     Archive.stringify := fun d => JS.str "{}";
     Archive.mkdirError := fun _ => None;
     Archive.writeError := fun _ => None |}.

(** The eight bytes that open a PNG file. *)
Definition pngBytes : list byte := [x89; x50; x4e; x47; x0d; x0a; x1a; x0a].

(** An empty archive with two details objects of the caller, for two
    prompts. *)
Definition twoDetails : Archive.State :=
  {| Archive.archivedImages := ∅;
     Archive.heap :=
       <[0%nat := {| Archive.id := None; Archive.prompt := Some (JS.str "a cat");
                     Archive.unixTime := None |}]>
         (<[1%nat := {| Archive.id := None; Archive.prompt := Some (JS.str "a dog");
                        Archive.unixTime := None |}]> ∅);
     Archive.files := ∅; Archive.dirs := ∅; Archive.console := [] |}.

Definition emptyArchive : Archive.State :=
  {| Archive.archivedImages := ∅; Archive.heap := ∅; Archive.files := ∅;
     Archive.dirs := ∅; Archive.console := [] |}.

(** Every entry of the cache is what compiling its key gives. *)
Definition coherent (newRegExp : RegExpCache.engine) (rc : RegExpCache.t) : Prop :=
  forall p regExp,
    RegExpCache.cache rc !! p = Some regExp ->
    RegExpCache.compile newRegExp (RegExpCache.wildcard rc) p = Returns regExp.

(** [testMultiple] without a cache: every pattern is compiled when it is
    its turn. *)
Fixpoint testEach (newRegExp : RegExpCache.engine) (wildcard : bool)
    (s : list N) (patterns : list (list N)) : completion bool :=
  match patterns with
  | [] => Returns false
  | pattern :: patterns' =>
      match RegExpCache.compile newRegExp wildcard pattern with
      | Returns regExp =>
          if RegExpCache.test regExp s then Returns true
          else testEach newRegExp wildcard s patterns'
      | Throws e => Throws e
      end
  end.

(** The handler asked for the request not to be continued:
    [requestPausedHandler] was called and its promise resolved with a
    truthy value. *)
Definition doNotContinue (c : Intercept.config) (s : Intercept.session)
    (i : Intercept.pausedInput) : bool :=
  Intercept.rawPauseRuns c s i
  && match Intercept.rawPause i with
     | Intercept.Resolved b => b
     | Intercept.Rejected _ => false
     end.

(** The first error thrown in the [try] block of the listener. *)
Definition handlerError (c : Intercept.config) (s : Intercept.session)
    (i : Intercept.pausedInput) : option thrown :=
  let fromRawPause :=
    if Intercept.flagged (Intercept.shouldInspect s) Intercept.byTargetHandler
       && Intercept.requestPausedHandler c
    then match Intercept.rawPause i with
         | Intercept.Rejected e => Some e
         | Intercept.Resolved _ => None
         end
    else None in
  if Intercept.flagged (Intercept.shouldInspect s) Intercept.byResponseCatcher
  then
    if Intercept.responseReceivedHandler c
    then match Intercept.received i with
         | Intercept.Rejected e => Some e
         | Intercept.Resolved _ => fromRawPause
         end
    else Some Intercept.notAFunction
  else fromRawPause.

(** A rule that watches the pages of one site for PNG responses, on both
    channels, and the inputs of a binding that succeeds. *)
Definition sampleConfig : Intercept.config :=
  {| Intercept.catchResponses :=
       Some [ {| Intercept.from := Intercept.One (JS.str "https://app.example/*");
                 Intercept.intercept := Intercept.Many [JS.str "*.png"];
                 Intercept.serviceWorkerOnly := false;
                 Intercept.enableNetworkFetch := true |} ];
     Intercept.responseReceivedHandler := true;
     Intercept.targetHandler := false;
     Intercept.requestPausedHandler := false;
     Intercept.DEBUG := false |}.

(** The same configuration with the DEBUG environment variable set. *)
Definition debugConfig : Intercept.config :=
  {| Intercept.catchResponses := Intercept.catchResponses sampleConfig;
     Intercept.responseReceivedHandler := true;
     Intercept.targetHandler := false;
     Intercept.requestPausedHandler := false;
     Intercept.DEBUG := true |}.



Definition bindsAs (sessionId : list N) : Intercept.targetInput :=
  {| Intercept.registrations := [];
     Intercept.handlerThrows := None;
     Intercept.newSessionId := sessionId;
     Intercept.failsAt := None;
     Intercept.detachRejects := None |}.

Definition pngRequest : Intercept.request :=
  {| Intercept.requestUrl := JS.str "https://cdn.example/cat.png";
     Intercept.method := JS.str "GET" |}.

Section QueueInvariants.

Import Intercept.

(** Object identities are given out in order, and no object sits in the
    queue under two keys. *)
Definition wellFormed (st : State) : Prop :=
  (forall k r, networkResponseCatchQueue st !! k = Some r ->
               (oid r < nextOid st)%nat)
  /\ (forall k k' r r',
        networkResponseCatchQueue st !! k = Some r ->
        networkResponseCatchQueue st !! k' = Some r' ->
        oid r = oid r' -> k = k').

(** The object [o] has been made and is no longer in the queue. *)
Definition gone (o : nat) (st : State) : Prop :=
  (o < nextOid st)%nat
  /\ forall k r, networkResponseCatchQueue st !! k = Some r -> oid r <> o.

(** A step changes the queue in one of four ways; it may also use up
    object identities. *)
Inductive queueChange (st st' : State) : Prop :=
  | Unchanged n :
      networkResponseCatchQueue st' = networkResponseCatchQueue st ->
      nextOid st' = (n + nextOid st)%nat -> queueChange st st'
  | Added k r :
      oid r = nextOid st ->
      networkResponseCatchQueue st' = <[k := r]> (networkResponseCatchQueue st) ->
      nextOid st' = S (nextOid st) -> queueChange st st'
  | Updated k r r' :
      networkResponseCatchQueue st !! k = Some r -> oid r' = oid r ->
      networkResponseCatchQueue st' = <[k := r']> (networkResponseCatchQueue st) ->
      nextOid st' = nextOid st -> queueChange st st'
  | Removed k n :
      networkResponseCatchQueue st' = delete k (networkResponseCatchQueue st) ->
      nextOid st' = (n + nextOid st)%nat -> queueChange st st'.

End QueueInvariants.

(** A run in which a tab of the site is bound and then sends a request
    that matches: the session object and the pending entry it leaves. *)
Definition boundRun : list Intercept.event :=
  [ Intercept.TargetCreated (JS.str "tab-A") (JS.str "https://app.example/a")
      (JS.str "page") (bindsAs (JS.str "S-A"));
    Intercept.RequestWillBeSent 0 pngRequest (JS.str "1000.7") ].

Definition boundSession : Intercept.session :=
  {| Intercept.sid := JS.str "S-A"; Intercept.target := JS.str "tab-A";
     Intercept.url := JS.str "https://app.example/a";
     Intercept.patterns := [JS.str "*.png"];
     Intercept.shouldInspect := Intercept.byResponseCatcher;
     Intercept.detachedListener := true;
     Intercept.networkListeners := true;
     Intercept.pausedListener := true |}.

Definition pendingEntry : Intercept.report :=
  {| Intercept.oid := 0; Intercept.initiator := JS.str "https://app.example/a";
     Intercept.asFetch := false; Intercept.requestId := JS.str "1000.7";
     Intercept.networkId := None; Intercept.sessionId := JS.str "S-A";
     Intercept.theRequest := pngRequest; Intercept.theResponse := None |}.

Definition pausedPng : Intercept.pausedArgs :=
  {| Intercept.pausedRequestId := JS.str "interception-job-1.0";
     Intercept.pausedNetworkId := Some (JS.str "1000.7");
     Intercept.pausedRequest := pngRequest;
     Intercept.responseStatusCode := 200;
     Intercept.responseHeaders := [(JS.str "content-type", JS.str "image/png")];
     Intercept.responseStatusText := JS.str "OK" |}.

(** The listener cut at its awaits, run with nothing in between: the
    state it leaves and its effects. *)
Definition pausedAtOnce (c : Intercept.config) (ref : nat) (s : Intercept.session)
    (args : Intercept.pausedArgs) (i : Intercept.pausedInput)
    (st : Intercept.State) : Intercept.State * list Intercept.effect :=
  let '(st1, j1, p1) := Intercept.pausedStart c ref s args i st in
  let '(j2, p2) := Intercept.pausedResume c ref s args i p1 st1 in
  let '(j3, _) := Intercept.pausedResume c ref s args i p2 st1 in
  (st1, (j1 ++ j2 ++ j3).*1).

Definition settles : Intercept.pausedInput :=
  {| Intercept.received := Intercept.Resolved ();
     Intercept.rawPause := Intercept.Resolved false;
     Intercept.continued := Intercept.Resolved () |}.

(** The handler settles, the [Fetch.continueRequest] command is rejected. *)
Definition continueFails : Intercept.pausedInput :=
  {| Intercept.received := Intercept.Resolved ();
     Intercept.rawPause := Intercept.Resolved false;
     Intercept.continued :=
       Intercept.Rejected (ErrorObject (JS.str "Invalid InterceptionId.")) |}.

(** The wildcard language read directly: a star stands for any run of code
    units that are not line terminators, a question mark for one such code
    unit, every other code unit for itself; the whole string is matched. *)
Fixpoint glob (pattern s : list N) : bool :=
  match pattern with
  | [] =>
      match s with
      | [] => true
      | _ :: _ => false
      end
  | c :: pattern' =>
      if c =? JS.ch "*" then
        (fix star (s : list N) : bool :=
           glob pattern' s
           || match s with
              | d :: s' => negb (JS.isLineTerminator d) && star s'
              | [] => false
              end) s
      else
        match s with
        | d :: s' =>
            (if c =? JS.ch "?" then negb (JS.isLineTerminator d) else d =? c)
            && glob pattern' s'
        | [] => false
        end
  end.

(** The cache after [get] was called for each pattern of a list, in order. *)
Definition afterGets (newRegExp : RegExpCache.engine) (patterns : list (list N))
    (rc : RegExpCache.t) : RegExpCache.t :=
  foldl (fun rc p => (RegExpCache.get newRegExp p rc).2) rc patterns.

(** An engine for the examples: it knows the source [a+], which is
    outside the fragment of [wildcardToRegex], and refuses every other
    source. *)
Definition sampleEngine : RegExpCache.engine := fun source =>
  if bool_decide (source = JS.str "a+")
  then Returns (fun s => bool_decide (JS.ch "a" ∈ s))
  else Throws RegExpCache.syntaxError.

(** The state [st'] has only more than the state [st]: no id, directory or
    file is gone, the console has only grown, and the objects at the
    references outside [touched] are what they were. *)
Definition growsExcept (touched : nat -> Prop) (st st' : Archive.State) : Prop :=
  Archive.archivedImages st ⊆ Archive.archivedImages st'
  /\ Archive.dirs st ⊆ Archive.dirs st'
  /\ (forall p, is_Some (Archive.files st !! p) -> is_Some (Archive.files st' !! p))
  /\ (forall ref d, Archive.heap st !! ref = Some d -> ~ touched ref ->
                    Archive.heap st' !! ref = Some d)
  /\ Archive.console st `prefix_of` Archive.console st'.

(** The object [archiveImage] leaves at the reference it worked with, given
    what it found there. *)
Definition completed (env : Archive.Env) (id0 : option (list N))
    (old : Archive.details) : Archive.details :=
  {| Archive.id := Some (Archive.effectiveId env id0);
     Archive.prompt :=
       Some (default (JS.str "[unknown prompt]") (Archive.prompt old));
     Archive.unixTime :=
       Some (default (Z.quot (Archive.now env) 1000) (Archive.unixTime old)) |}.

(** The five extensions of [magicMarkers]. *)
Definition extensions : list (list N) :=
  [JS.str "bmp"; JS.str "jpg"; JS.str "gif"; JS.str "png"; JS.str "webp"].

(** The first four bytes of a RIFF container and the form type of WebP. *)
Definition riff : list byte := [x52; x49; x46; x46].
Definition webpTag : list byte := [x57; x45; x42; x50].

(** The directory tree under a path, read recursively down to a depth: the
    paths of the directories an entry list names, the ids its record files
    stand for, whether every directory down to the depth can be listed and
    none lies deeper, how many directories there are, and the ids of all
    the record files. *)
Definition subdirs (path : list N) (entries : list Scan.Dirent) : list (list N) :=
  (fun e => path ++ JS.str "/" ++ Scan.name e) <$> filter (fun e => Scan.isDirectory e = true) entries.

Definition recordIds (entries : list Scan.Dirent) : gset (list N) :=
  list_to_set
    ((fun e => Scan.withoutJson (Scan.name e)) <$>
       filter (fun e => Scan.isDirectory e = false
                        /\ JS.endsWith (Scan.name e) (JS.str ".json") = true)
              entries).

Fixpoint listable (readdir : Scan.readdirSync) (depth : nat) (path : list N) : bool :=
  match depth with
  | O => false
  | S depth' =>
      match readdir path with
      | Returns entries => forallb (listable readdir depth') (subdirs path entries)
      | Throws _ => false
      end
  end.

Fixpoint dirCount (readdir : Scan.readdirSync) (depth : nat) (path : list N) : nat :=
  match depth with
  | O => 0
  | S depth' =>
      match readdir path with
      | Returns entries =>
          S (sum_list_with (dirCount readdir depth') (subdirs path entries))
      | Throws _ => 0
      end
  end.

Fixpoint idsUnder (readdir : Scan.readdirSync) (depth : nat) (path : list N)
  : gset (list N) :=
  match depth with
  | O => ∅
  | S depth' =>
      match readdir path with
      | Returns entries =>
          recordIds entries ∪ ⋃ (idsUnder readdir depth' <$> subdirs path entries)
      | Throws _ => ∅
      end
  end.

(** A small tree: the database directory holds one record and a directory
    with one record and one other file. *)
Definition sampleTree : Scan.readdirSync := fun path =>
  if bool_decide (path = JS.str "/archive/database")
  then Returns [ {| Scan.name := JS.str "2024"; Scan.isDirectory := true |};
                 {| Scan.name := JS.str "x.json"; Scan.isDirectory := false |} ]
  else if bool_decide (path = JS.str "/archive/database/2024")
  then Returns [ {| Scan.name := JS.str "7.json"; Scan.isDirectory := false |};
                 {| Scan.name := JS.str "note.txt"; Scan.isDirectory := false |} ]
  else Throws (ErrorObject (JS.str "ENOENT")).

(** The titles the [switch] of [handleCliArguments] goes on after, and the
    ones it ends the process for. *)
Definition accepted : list (list N) :=
  [JS.str "--webSocketDebuggerUrl"; JS.str "--printWebSocketDebuggerUrl"].

Definition exiting : list (list N) :=
  [JS.str "-h"; JS.str "--help"; JS.str "-v"; JS.str "-V"; JS.str "--version"].

(** One round of the loop of [parseCliArgs]. *)
Definition parseStep (args : Cli.args) (arg : list N) : Cli.args :=
  let '(title, value) := Cli.parseArg arg in Cli.set title value args.

(** The path [loadConfig] reads when it is given none. *)
Definition defaultConfigPath (env : Cli.Env) : list N :=
  Cli.archiverName env ++ JS.str ".json".

(** An environment with a valid configuration file and the arguments
    [--config=my.json --webSocketDebuggerUrl='ws://x']. *)
Definition sampleCli : Cli.Env :=
  {| Cli.archiverName := JS.str "archiver";
     Cli.argv := [ JS.str "node"; JS.str "main.js"; JS.str "--config=my.json";
                   JS.str "--webSocketDebuggerUrl='ws://x'" ];
     Cli.readConfig := fun _ =>
       Cli.ParsedObject
         (<[JS.str "cdpPort" := Cli.VNumber (QArith_base.inject_Z 9222)]>
            (<[JS.str "chromiumPath" := Cli.VString (JS.str "chrome")]>
               (<[JS.str "archivePath" :=
                    Cli.VString (JS.str "C:" ++ [JS.backslash] ++ JS.str "archive"
                                 ++ [JS.backslash])]> ∅)));
     Cli.basename := fun p => p;
     Cli.isAbsolute := fun _ => true;
     Cli.platform := JS.str "win32";
     Cli.cwd := JS.str "C:/";
     Cli.getenv := fun _ => None;
     Cli.existsSync := fun _ => false;
     Cli.randomInt := fun min _ => min;
     Cli.mkdirThrows := None;
     Cli.writeThrows := None |}.

(** The path in the configuration file without one trailing separator,
    and what [loadConfig] puts in its place. *)
Definition stripped (raw : list N) : list N :=
  if JS.endsWith raw (JS.str "/") || JS.endsWith raw [JS.backslash]
  then JS.dropLast raw else raw.

Definition normalized (raw : list N) : list N :=
  JS.replaceAll [JS.backslash] (JS.str "/") (stripped raw).

(** The report the observation channel builds for a request of a session,
    as it is when the response has (or has not) been seen. *)
Definition observed (st : Intercept.State) (s : Intercept.session)
    (req : Intercept.request) (rid : list N)
    (resp : option Intercept.response) : Intercept.report :=
  {| Intercept.oid := Intercept.nextOid st;
     Intercept.initiator := Intercept.url s;
     Intercept.asFetch := false;
     Intercept.requestId := rid;
     Intercept.networkId := None;
     Intercept.sessionId := Intercept.sid s;
     Intercept.theRequest := req;
     Intercept.theResponse := resp |}.

(** The state in which the one session is [boundSession], and a
    response. *)
Definition boundState : Intercept.State :=
  {| Intercept.sessions := {[ JS.str "tab-A" := 0%nat ]};
     Intercept.objects := [boundSession];
     Intercept.networkResponseCatchQueue := ∅;
     Intercept.nextOid := 0 |}.

Definition okResponse : Intercept.response :=
  {| Intercept.status := 200; Intercept.statusText := JS.str "OK";
     Intercept.headers := [(JS.str "content-type", JS.str "image/png")] |}.

(** What holds of every entry of the queue in a run: it sits under its own
    request id, is marked as not coming from the pausing channel, and was
    made for a request that matched the patterns of a session that is
    still among the session objects, whose id and url it carries. *)
Definition queueOrigin (st : Intercept.State) : Prop :=
  forall k r,
    Intercept.networkResponseCatchQueue st !! k = Some r ->
    Intercept.requestId r = k
    /\ Intercept.asFetch r = false
    /\ Intercept.networkId r = None
    /\ exists ref s,
         Intercept.objects st !! ref = Some s
         /\ Intercept.sessionId r = Intercept.sid s
         /\ Intercept.initiator r = Intercept.url s
         /\ testMultiple (Intercept.requestUrl (Intercept.theRequest r))
              (Intercept.patterns s) = true.

(** The readiness of the session is refused. *)
Definition notReady (sessionId : list N) : Intercept.targetInput :=
  {| Intercept.registrations := [];
     Intercept.handlerThrows := None;
     Intercept.newSessionId := sessionId;
     Intercept.failsAt :=
       Some (Intercept.AtReady, ErrorObject (JS.str "No target with given id found"));
     Intercept.detachRejects := None |}.

(** The identity of a session object is kept by every step: the object
    stays where it is, with its id, its url and its patterns. *)
Definition sameSession (s s' : Intercept.session) : Prop :=
  Intercept.sid s' = Intercept.sid s /\ Intercept.url s' = Intercept.url s /\ Intercept.patterns s' = Intercept.patterns s.

(** The effects other than the lines [debug] prints. *)
Fixpoint quiet (effects : list Intercept.effect) : list Intercept.effect :=
  match effects with
  | [] => []
  | Intercept.ConsoleLog _ :: effects' => quiet effects'
  | e :: effects' => e :: quiet effects'
  end.

(** The configuration with the DEBUG environment variable set or unset. *)
Definition withDebug (b : bool) (c : Intercept.config) : Intercept.config :=
  {| Intercept.catchResponses := Intercept.catchResponses c;
     Intercept.responseReceivedHandler := Intercept.responseReceivedHandler c;
     Intercept.targetHandler := Intercept.targetHandler c;
     Intercept.requestPausedHandler := Intercept.requestPausedHandler c;
     Intercept.DEBUG := b |}.

(** A tab is bound, leaves the site (its session is detached), comes back
    and is bound again. *)
Definition reboundRun : list Intercept.event :=
  [ Intercept.TargetCreated (JS.str "tab-A") (JS.str "https://app.example/a")
      (JS.str "page") (bindsAs (JS.str "S-A"));
    Intercept.TargetInfoChanged (JS.str "tab-A") (JS.str "https://other.example/")
      (JS.str "page") (bindsAs (JS.str "S-X"));
    Intercept.TargetInfoChanged (JS.str "tab-A") (JS.str "https://app.example/b")
      (JS.str "page") (bindsAs (JS.str "S-B")) ].

(* ================================================================== *)
(** * Properties *)

(** Tactics for goals about code units. *)

Ltac chars :=
  repeat match goal with
    | |- context [JS.ch ?a] =>
        let v := eval vm_compute in (JS.ch a) in change (JS.ch a) with v
    | |- context [JS.str ?a] =>
        let v := eval vm_compute in (JS.str a) in change (JS.str a) with v
    | |- context [JS.backslash] => change JS.backslash with 92
    | H : context [JS.ch ?a] |- _ =>
        let v := eval vm_compute in (JS.ch a) in change (JS.ch a) with v in H
    | H : context [JS.str ?a] |- _ =>
        let v := eval vm_compute in (JS.str a) in change (JS.str a) with v in H
    | H : context [JS.backslash] |- _ => change JS.backslash with 92 in H
    end.

Ltac char_cases :=
  repeat match goal with
    | |- context [?c =? ?k] => is_var c; destruct (N.eqb_spec c k) as [->|?]
    | |- context [?k =? ?c] => is_var c; destruct (N.eqb_spec k c) as [<-|?]
    | |- context [N.eqb ?a ?b] =>
        let v := eval vm_compute in (N.eqb a b) in
        match v with true => idtac | false => idtac end;
        change (N.eqb a b) with v
    end.

Ltac char_solve :=
  repeat (chars; char_cases; cbn); first [reflexivity | congruence | idtac].

(** ** Wildcard compilation *)

Section Wildcards.

Import RegExp.

#[local] Arguments N.eqb : simpl never.

Lemma flat_map_flat_map {A B C} (f : A -> list B) (g : B -> list C) l :
  flat_map g (flat_map f l) = flat_map (fun x => flat_map g (f x)) l.
Proof.
  induction l as [|x l IH]; simpl; [done|].
  by rewrite flat_map_app, IH.
Qed.

Lemma wildcardSource_units p :
  wildcardSource p = JS.str "^" ++ flat_map unitSource p ++ JS.str "$".
Proof.
  unfold wildcardSource, JS.replaceClass.
  rewrite !flat_map_flat_map. do 2 f_equal.
  apply flat_map_ext. intros c.
  unfold unitSource, isSpecialRegexChar. chars. cbn [existsb].
  char_solve.
Qed.

Lemma unitSource_head c rest :
  match unitSource c ++ rest with
  | q :: _ => q <> JS.ch "*"
  | [] => False
  end.
Proof.
  unfold unitSource, isSpecialRegexChar. chars. cbn [existsb].
  char_solve.
Qed.

Lemma parse_cons c rest :
  parse (c :: rest) =
      if c =? JS.ch "^" then cons TAssertStart <$> parse rest
      else if c =? JS.ch "$" then cons TAssertEnd <$> parse rest
      else if c =? JS.backslash then
        match rest with
        | e :: rest' =>
            if isSyntaxChar e then
              match rest' with
              | q :: rest'' =>
                  if q =? JS.ch "*" then cons (TStar (AChar e)) <$> parse rest''
                  else cons (TAtom (AChar e)) <$> parse rest'
              | [] => Some [TAtom (AChar e)]
              end
            else None
        | [] => None
        end
      else
        let a := if c =? JS.ch "." then Some ADot
                 else if isSyntaxChar c then None else Some (AChar c) in
        match a with
        | None => None
        | Some a =>
            match rest with
            | q :: rest' =>
                if q =? JS.ch "*" then cons (TStar a) <$> parse rest'
                else cons (TAtom a) <$> parse rest
            | [] => Some [TAtom a]
            end
        end.
Proof. reflexivity. Qed.

#[local] Arguments parse : simpl never.

Lemma parse_nil : parse [] = Some [].
Proof. reflexivity. Qed.

Lemma parse_unitSource c rest :
  match rest with q :: _ => q <> JS.ch "*" | [] => True end ->
  parse (unitSource c ++ rest) = cons (unitTerm c) <$> parse rest.
Proof.
  intros Hrest. unfold unitSource, unitTerm, isSpecialRegexChar.
  chars. cbn [existsb].
  char_cases; cbn [app orb]; rewrite parse_cons; unfold isSyntaxChar;
    chars; cbn [existsb]; char_cases; cbn [orb];
    destruct rest as [|q rest]; rewrite ?parse_nil; try reflexivity;
    char_cases; try reflexivity; try congruence.
Qed.

Lemma parse_units p :
  parse (flat_map unitSource p ++ JS.str "$") =
  Some (map unitTerm p ++ [TAssertEnd]).
Proof.
  induction p as [|c p IH]; [reflexivity|].
  cbn [flat_map map]. rewrite <- app_assoc, parse_unitSource, IH; [reflexivity|].
  destruct p as [|d p]; [by chars|].
  cbn [flat_map]. rewrite <- app_assoc.
  pose proof (unitSource_head d (flat_map unitSource p ++ JS.str "$")) as H.
  by destruct (unitSource d ++ _).
Qed.

(** Every wildcard pattern compiles, and to this expression. *)
Lemma wildcardToRegex_units p :
  wildcardToRegex p = Some (TAssertStart :: map unitTerm p ++ [TAssertEnd]).
Proof.
  unfold wildcardToRegex. rewrite wildcardSource_units.
  change (JS.str "^" ++ ?l) with (JS.ch "^" :: l).
  rewrite parse_cons. chars. char_cases. by rewrite parse_units.
Qed.

Lemma testFrom_anchored_later ts pos rest :
  testFrom (TAssertStart :: ts) (S pos) rest = false.
Proof.
  revert pos. induction rest as [|c rest IH]; intros pos; cbn; [done|].
  apply IH.
Qed.

Lemma test_anchored ts s :
  test (TAssertStart :: ts) s = matchHere ts 0 s.
Proof.
  unfold test. destruct s as [|c s]; cbn; [by rewrite orb_false_r|].
  by rewrite testFrom_anchored_later, orb_false_r.
Qed.

Lemma matchHere_literal (s : list N) ts pos t :
  matchHere (map (fun c => TAtom (AChar c)) s ++ ts) pos t = true <->
  exists t', t = s ++ t' /\ matchHere ts (pos + length s) t' = true.
Proof.
  revert pos t. induction s as [|c s IH]; intros pos t; cbn [map app length].
  - rewrite Nat.add_0_r. split; [eauto|]. by intros (t' & -> & H).
  - cbn [matchHere]. destruct t as [|d t].
    + split; [done|]. by intros (t' & ? & _).
    + cbn [atomMatches]. rewrite andb_true_iff, IH, N.eqb_eq.
      replace (pos + S (length s))%nat with (S pos + length s)%nat by lia.
      split.
      * intros (-> & t' & -> & H). eauto.
      * intros (t' & [= -> ->] & H). eauto.
Qed.

Lemma matchHere_dotstar_end pos t :
  matchHere [TStar ADot; TAssertEnd] pos t =
  forallb (fun c => negb (JS.isLineTerminator c)) t.
Proof.
  revert pos. induction t as [|c t IH]; intros pos; [reflexivity|].
  specialize (IH (S pos)). cbn in IH |- *. by rewrite IH.
Qed.

Lemma unitTerm_literal (s : list N) :
  (forall c, c ∈ s -> isSyntaxChar c = false) ->
  map unitTerm s = map (fun c => TAtom (AChar c)) s.
Proof.
  intros Hs. apply map_ext_in. intros c Hc%list_elem_of_In.
  specialize (Hs c Hc). unfold unitTerm. unfold isSyntaxChar in Hs.
  chars. cbn [existsb] in Hs. revert Hs. char_cases; cbn; congruence.
Qed.

End Wildcards.

(** C7, as the code has it.  For a string [s] without wildcard or
    regular-expression metacharacters, the matcher compiled from [s]
    followed by [*] accepts exactly the strings that start with [s] and
    have no line terminator (LF, CR, U+2028, U+2029) after that prefix: the
    star becomes [.*], and the dot of an expression built without flags
    does not match a line terminator.  The matcher of [a?c] accepts
    [abc] and rejects [ac] and [abbc]. *)
Theorem wildcard_star_prefix (s : list N) :
  (forall c, c ∈ s -> RegExp.isSyntaxChar c = false) ->
  (forall t,
      wildcardMatches (s ++ JS.str "*") t = true <->
      s `prefix_of` t /\
      forall c, c ∈ drop (length s) t -> JS.isLineTerminator c = false)
  /\ wildcardMatches (JS.str "a?c") (JS.str "abc") = true
  /\ wildcardMatches (JS.str "a?c") (JS.str "ac") = false
  /\ wildcardMatches (JS.str "a?c") (JS.str "abbc") = false.
Proof.
  intros Hs. split; [|by vm_compute].
  intros t. unfold wildcardMatches.
  rewrite wildcardToRegex_units, test_anchored.
  rewrite map_app, <- app_assoc, (unitTerm_literal s Hs).
  rewrite matchHere_literal. cbn [map app].
  change (unitTerm _) with (RegExp.TStar RegExp.ADot).
  split.
  - intros (t' & -> & H). rewrite matchHere_dotstar_end in H.
    split; [by exists t'|].
    rewrite drop_app_length. intros c Hc.
    rewrite forallb_forall in H.
    apply negb_true_iff, H. by apply list_elem_of_In.
  - intros [[t' ->] H]. exists t'. split; [done|].
    rewrite matchHere_dotstar_end, forallb_forall.
    intros c Hc. apply negb_true_iff, H.
    rewrite drop_app_length. by apply list_elem_of_In.
Qed.

Lemma wildcard_star_prefix_witness :
  (forall c, c ∈ JS.str "img" -> RegExp.isSyntaxChar c = false) /\
  ((forall t,
      wildcardMatches (JS.str "img" ++ JS.str "*") t = true <->
      JS.str "img" `prefix_of` t /\
      forall c, c ∈ drop (length (JS.str "img")) t ->
                JS.isLineTerminator c = false)
   /\ wildcardMatches (JS.str "a?c") (JS.str "abc") = true
   /\ wildcardMatches (JS.str "a?c") (JS.str "ac") = false
   /\ wildcardMatches (JS.str "a?c") (JS.str "abbc") = false).
Proof.
  assert (forall c, c ∈ JS.str "img" -> RegExp.isSyntaxChar c = false) as H.
  { intros c Hc. apply list_elem_of_In in Hc. simpl in Hc.
    destruct Hc as [<-|[<-|[<-|[]]]]; reflexivity. }
  split; [exact H | exact (wildcard_star_prefix (JS.str "img") H)].
Defined.

(** C7 as stated fails: [a] followed by a line feed has the prefix [a], and
    the matcher compiled from [a*] rejects it. *)
Lemma wildcard_star_prefix_line_feed :
  (forall c, c ∈ JS.str "a" -> RegExp.isSyntaxChar c = false) /\
  JS.str "a" `prefix_of` (JS.str "a" ++ [10]) /\
  wildcardMatches (JS.str "a" ++ JS.str "*") (JS.str "a" ++ [10]) = false.
Proof.
  split; [|split; [by exists [10] | by vm_compute]].
  intros c Hc. apply list_elem_of_In in Hc. simpl in Hc.
  destruct Hc as [<-|[]]; reflexivity.
Qed.

(** ** File names *)

Section Filenames.

Import Archive.

Lemma replaceAll_one a x s :
  JS.replaceAll [a] [x] s = map (fun c => if c =? a then x else c) s.
Proof.
  unfold JS.replaceAll. induction s as [|c s IH]; [reflexivity|].
  cbn. rewrite IH, andb_true_r. by destruct (c =? a).
Qed.











End Filenames.


(** ** The archive writer *)

Section ArchiveWriter.

Import Archive.

Lemma unhex_hexOfByte b :
  match hexOfByte b with
  | [h; l] => unhex h l = Some b
  | _ => False
  end.
Proof. by destruct b. Qed.

Lemma startsWith_toHex (buffer sig : list byte) :
  JS.startsWith (toHex buffer) (toHex sig) = true <-> sig `prefix_of` buffer.
Proof.
  revert buffer. induction sig as [|s sig IH]; intros buffer.
  - split; [intros _; apply prefix_nil | done].
  - destruct buffer as [|b buffer].
    + split; [done|]. intros []%prefix_nil_not.
    + pose proof (unhex_hexOfByte b) as Hb. pose proof (unhex_hexOfByte s) as Hs.
      unfold toHex. cbn [flat_map].
      destruct (hexOfByte b) as [|h1 [|l1 [|]]] eqn:Eb; try done.
      destruct (hexOfByte s) as [|h2 [|l2 [|]]] eqn:Es; try done.
      cbn [app JS.startsWith]. fold (toHex buffer) (toHex sig).
      rewrite !andb_true_iff, !N.eqb_eq, IH. split.
      * intros (-> & -> & Hp). assert (b = s) as -> by congruence.
        by apply prefix_cons.
      * intros Hp. pose proof (prefix_cons_inv_1 _ _ _ _ Hp) as ->.
        apply prefix_cons_inv_2 in Hp.
        assert (h1 = h2 /\ l1 = l2) as [-> ->] by (split; congruence). done.
Qed.

Lemma prefix_take_iff (n : nat) (sig buffer : list byte) :
  (length sig <= n)%nat ->
  sig `prefix_of` take n buffer <-> sig `prefix_of` buffer.
Proof.
  intros Hn. split.
  - intros H. etrans; [done|]. apply prefix_take.
  - intros [k ->]. rewrite take_app_ge by done. by apply prefix_app_r.
Qed.

(** A signature of the table matches in [getImgExt] exactly when its bytes
    are the first bytes of the buffer. *)
Lemma marker_matches (buffer sig : list byte) :
  (length sig <= 8)%nat ->
  JS.startsWith (toHex (take 8 buffer)) (toHex sig) = true <->
  sig `prefix_of` buffer.
Proof.
  intros H. by rewrite startsWith_toHex, prefix_take_iff.
Qed.

(** The keys of [magicMarkers] are the signatures in hexadecimal. *)
Lemma magicMarkers_signatures :
  magicMarkers =
  [ (toHex [x47; x49; x46; x38], JS.str "gif");
    (toHex [x42; x4d], JS.str "bmp");
    (toHex [xff; xd8; xff], JS.str "jpg");
    (toHex [x89; x50; x4e; x47; x0d; x0a; x1a; x0a], JS.str "png");
    (toHex [x52; x49; x46; x46; x57; x45; x42; x50], JS.str "webp") ].
Proof. reflexivity. Qed.

Lemma getImgExt_unknown (buffer : list byte) :
  (forall sig ext, (sig, ext) ∈ signatures -> ~ sig `prefix_of` buffer) ->
  getImgExt buffer = Throws (ThrownString (JS.str "Unknown image type.")).
Proof.
  intros Hnone. unfold getImgExt.
  assert (forall sig ext, (sig, ext) ∈ signatures ->
            JS.startsWith (toHex (take 8 buffer)) (toHex sig) = false) as H.
  { intros sig ext Hin. apply not_true_is_false. intros Hm.
    apply (Hnone sig ext Hin), marker_matches; [|done].
    unfold signatures in Hin. 
    repeat (apply elem_of_cons in Hin as [[= -> _]|Hin]; [cbn; lia|]).
    by apply elem_of_nil in Hin. }
  rewrite magicMarkers_signatures. cbn [firstMarker].
  rewrite (H [x47; x49; x46; x38] (JS.str "gif")) by (unfold signatures; set_solver).
  rewrite (H [x42; x4d] (JS.str "bmp")) by (unfold signatures; set_solver).
  rewrite (H [xff; xd8; xff] (JS.str "jpg")) by (unfold signatures; set_solver).
  rewrite (H [x89; x50; x4e; x47; x0d; x0a; x1a; x0a] (JS.str "png"))
    by (unfold signatures; set_solver).
  rewrite (H [x52; x49; x46; x46; x57; x45; x42; x50] (JS.str "webp"))
    by (unfold signatures; set_solver).
  reflexivity.
Qed.

Lemma debug_frame env msg st :
  archivedImages (debug env msg st) = archivedImages st /\
  heap (debug env msg st) = heap st /\
  files (debug env msg st) = files st /\
  dirs (debug env msg st) = dirs st.
Proof. unfold debug. by destruct (DEBUG env). Qed.

End ArchiveWriter.

(** C4.  For an id that is not archived yet: an empty payload makes
    [archiveImage] throw the zero-length error; a non-empty payload whose
    first bytes are none of the five signatures makes it throw the
    unknown-type error; in both cases no file is written and the index is
    unchanged.  A payload that starts with 89 50 4E 47 0D 0A 1A 0A sniffs
    as png, one that starts with FF D8 FF as jpg. *)
Theorem persist_rejects_payload (env : Archive.Env) (st : Archive.State)
    (id0 : option (list N)) (details0 : option nat) (imgData : list byte) :
  Archive.toStr id0 ∉ Archive.archivedImages st ->
  let r := Archive.archiveImage env id0 details0 imgData st in
  (imgData = [] ->
     r.1 = Throws (ThrownString
             (JS.str "Error, zero length: " ++ Archive.effectiveId env id0))
     /\ Archive.files r.2 = Archive.files st
     /\ Archive.archivedImages r.2 = Archive.archivedImages st)
  /\ (imgData <> [] ->
      (forall sig ext, (sig, ext) ∈ signatures -> ~ sig `prefix_of` imgData) ->
      r.1 = Throws (ThrownString (JS.str "Unknown image type."))
      /\ Archive.files r.2 = Archive.files st
      /\ Archive.archivedImages r.2 = Archive.archivedImages st)
  /\ (forall rest,
        Archive.getImgExt ([x89; x50; x4e; x47; x0d; x0a; x1a; x0a] ++ rest)
        = Returns (JS.str "png"))
  /\ (forall rest,
        Archive.getImgExt ([xff; xd8; xff] ++ rest) = Returns (JS.str "jpg")).
Proof.
  intros Hnew r. subst r. unfold Archive.archiveImage.
  rewrite bool_decide_eq_false_2 by done.
  split; [|split; [|split; intros rest; reflexivity]].
  - intros ->. cbn [length Nat.eqb].
    destruct (Archive.falsy id0), details0 as [ref|]; cbn;
      repeat split; try apply debug_frame;
      repeat (etrans; [apply debug_frame|]); reflexivity.
  - intros Hne Hnone. rewrite (getImgExt_unknown imgData Hnone).
    destruct imgData as [|b imgData]; [done|]. cbn [length Nat.eqb].
    destruct (Archive.falsy id0), details0 as [ref|]; cbn;
      repeat split; try apply debug_frame;
      repeat (etrans; [apply debug_frame|]); reflexivity.
Qed.

Lemma persist_rejects_payload_witness :
  (Archive.toStr (Some (JS.str "42")) ∉ Archive.archivedImages emptyArchive)
  /\ (Archive.archiveImage sampleEnv (Some (JS.str "42")) None [] emptyArchive).1
     = Throws (ThrownString
         (JS.str "Error, zero length: "
          ++ Archive.effectiveId sampleEnv (Some (JS.str "42")))).
Proof.
  assert (Archive.toStr (Some (JS.str "42")) ∉ Archive.archivedImages emptyArchive)
    as H by set_solver.
  split; [exact H|].
  exact (proj1 (proj1 (persist_rejects_payload sampleEnv emptyArchive
                         (Some (JS.str "42")) None [] H) eq_refl)).
Defined.

Lemma isDirectory_dirs dirPath st :
  Archive.isDirectory dirPath st = true ->
  dirPath <> [] -> dirPath ∈ Archive.dirs st.
Proof.
  destruct dirPath; [done|]. cbn. intros H _. by apply bool_decide_eq_true in H.
Qed.


Lemma ancestors_self dirPath :
  dirPath <> [] -> dirPath ∈ Archive.ancestors (length dirPath) dirPath.
Proof. destruct dirPath; [done|]. intros _. cbn. set_solver. Qed.

(** What [fs.writeFileSync(ensureDirectory(path), data)] has done when it
    returns: the file holds the data, its directory exists, the path is no
    directory, and the system did not refuse the write. *)
Lemma writeEnsured_returns env path data st st' :
  Archive.writeEnsured env path data st = (Returns (), st') ->
  Archive.archivedImages st' = Archive.archivedImages st
  /\ Archive.heap st' = Archive.heap st
  /\ Archive.console st' = Archive.console st
  /\ Archive.files st' = <[path := data]> (Archive.files st)
  /\ Archive.dirs st ⊆ Archive.dirs st'
  /\ (Archive.dirname path <> [] -> Archive.dirname path ∈ Archive.dirs st')
  /\ (path ∉ Archive.dirs st')
  /\ Archive.writeError env path = None.
Proof.
  unfold Archive.writeEnsured, Archive.ensureDirectory, Archive.mkdirSync,
    Archive.writeFileSync.
  destruct (Archive.isDirectory (Archive.dirname path) st) eqn:Hdir.
  - case_bool_decide as Hpath; [done|]. rewrite Hdir. cbn [negb].
    destruct (Archive.writeError env path); [done|].
    intros [= <-]. cbn. split_and!; try done.
    intros Hne. by apply isDirectory_dirs in Hdir.
  - destruct (existsb _ _); [done|].
    destruct (Archive.mkdirError env _); [done|].
    cbn [Archive.dirs]. case_bool_decide as Hpath; [done|].
    destruct (negb _); [done|].
    destruct (Archive.writeError env path); [done|].
    intros [= <-]. cbn. split_and!; try done.
    + set_solver.
    + intros Hne. apply elem_of_union_r, elem_of_list_to_set.
      by apply ancestors_self.
Qed.


(** A call that gets past the duplicate test and returns, step by step:
    the state [stA] in which the files are written, the write of the
    artifact, and the write of the record. *)
Lemma archiveImage_unfolds (env : Archive.Env) (st st' : Archive.State)
    (id0 : option (list N)) (details0 : option nat) (imgData : list byte) :
  Archive.toStr id0 ∉ Archive.archivedImages st ->
  Archive.archiveImage env id0 details0 imgData st = (Returns (), st') ->
  exists ref old ext stA stB,
    let id1 := Archive.effectiveId env id0 in
    let thePrompt := default (JS.str "[unknown prompt]") (Archive.prompt old) in
    let theTime := default (Z.quot (Archive.now env) 1000) (Archive.unixTime old) in
    let d := {| Archive.id := Some id1; Archive.prompt := Some thePrompt;
                Archive.unixTime := Some theTime |} in
    match details0 with
    | Some r => ref = r /\ old = default Archive.emptyDetails (Archive.heap st !! r)
    | None => ref = fresh (dom (Archive.heap st)) /\ old = Archive.emptyDetails
    end
    /\ Archive.getImgExt imgData = Returns ext
    /\ (length imgData =? 0)%nat = false
    /\ Archive.archivedImages stA = Archive.archivedImages st
    /\ Archive.files stA = Archive.files st
    /\ Archive.dirs stA = Archive.dirs st
    /\ Archive.heap stA = <[ref := d]>
         (match details0 with
          | Some _ => Archive.heap st
          | None => <[ref := Archive.emptyDetails]> (Archive.heap st)
          end)
    /\ Archive.writeEnsured env (Archive.imgPath env id1 thePrompt theTime ext)
         (Archive.Binary imgData) stA = (Returns (), stB)
    /\ (if Archive.SKIP_RECORD env then st' = stB
        else exists stC,
               Archive.writeEnsured env (Archive.recPath env id1 theTime)
                 (Archive.Text (Archive.stringify env d)) stB = (Returns (), stC)
               /\ st' = Archive.addArchived id1 stC).
Proof.
  intros Hnew Hret. unfold Archive.archiveImage in Hret.
  rewrite bool_decide_eq_false_2 in Hret by done.
  set (st1 := if Archive.falsy id0 then _ else st) in Hret.
  assert (Archive.archivedImages st1 = Archive.archivedImages st /\
          Archive.heap st1 = Archive.heap st /\
          Archive.files st1 = Archive.files st /\
          Archive.dirs st1 = Archive.dirs st) as (Hi1 & Hh1 & Hf1 & Hd1)
    by (subst st1; destruct (Archive.falsy id0); [apply debug_frame|done]).
  clearbody st1.
  destruct details0 as [r|].
  - destruct (length imgData =? 0)%nat eqn:Hlen; [done|].
    destruct (Archive.getImgExt imgData) as [ext|e] eqn:Hext; [|done].
    rewrite Hh1 in Hret.
    match type of Hret with
    | context [Archive.writeEnsured env ?p ?c ?s] =>
        destruct (Archive.writeEnsured env p c s) as [[[]|e] stB] eqn:Hw1;
        [|done];
        exists r, (default Archive.emptyDetails (Archive.heap st !! r)), ext, s, stB
    end.
    cbn zeta. split_and!; try done; try (by cbn; rewrite ?Hh1).
    destruct (Archive.SKIP_RECORD env); [by injection Hret|].
    match type of Hret with
    | context [Archive.writeEnsured env ?p ?c ?s] =>
        destruct (Archive.writeEnsured env p c s) as [[[]|e] stC] eqn:Hw2;
        [|done]
    end.
    exists stC. split; [done|]. by injection Hret.
  - pose proof (debug_frame env
      (JS.str "No details for: " ++ Archive.effectiveId env id0) st1)
      as (Hi2 & Hh2 & Hf2 & Hd2).
    cbn zeta beta iota in Hret.
    set (st2 := Archive.debug env _ st1) in *. clearbody st2.
    destruct (length imgData =? 0)%nat eqn:Hlen; [done|].
    destruct (Archive.getImgExt imgData) as [ext|e] eqn:Hext; [|done].
    cbn [Archive.setHeap Archive.heap] in Hret.
    rewrite !Hh2, !Hh1, !lookup_insert_eq in Hret. cbn [default] in Hret.
    match type of Hret with
    | context [Archive.writeEnsured env ?p ?c ?s] =>
        destruct (Archive.writeEnsured env p c s) as [[[]|e] stB] eqn:Hw1;
        [|done];
        exists (fresh (dom (Archive.heap st))), Archive.emptyDetails, ext, s, stB
    end.
    cbn zeta. split_and!; try done;
      try (by cbn; rewrite ?Hi2, ?Hf2, ?Hd2, ?Hi1, ?Hf1, ?Hd1).
    destruct (Archive.SKIP_RECORD env); [by injection Hret|].
    match type of Hret with
    | context [Archive.writeEnsured env ?p ?c ?s] =>
        destruct (Archive.writeEnsured env p c s) as [[[]|e] stC] eqn:Hw2;
        [|done]
    end.
    exists stC. split; [done|]. by injection Hret.
Qed.

(** What a call that gets past the duplicate test and returns has done:
    the object at [ref] holds the id, the prompt and the time, one artifact
    file was written, and (unless SKIP_RECORD is set) the record was written
    and the id entered the index. *)
Lemma archiveImage_returns (env : Archive.Env) (st st' : Archive.State)
    (id0 : option (list N)) (details0 : option nat) (imgData : list byte) :
  Archive.toStr id0 ∉ Archive.archivedImages st ->
  Archive.archiveImage env id0 details0 imgData st = (Returns (), st') ->
  exists ref old ext,
    let id1 := Archive.effectiveId env id0 in
    let thePrompt := default (JS.str "[unknown prompt]") (Archive.prompt old) in
    let theTime := default (Z.quot (Archive.now env) 1000) (Archive.unixTime old) in
    let d := {| Archive.id := Some id1; Archive.prompt := Some thePrompt;
                Archive.unixTime := Some theTime |} in
    match details0 with
    | Some r => ref = r /\ old = default Archive.emptyDetails (Archive.heap st !! r)
    | None => ref = fresh (dom (Archive.heap st)) /\ old = Archive.emptyDetails
    end
    /\ Archive.getImgExt imgData = Returns ext
    /\ Archive.heap st' = <[ref := d]>
         (match details0 with
          | Some _ => Archive.heap st
          | None => <[ref := Archive.emptyDetails]> (Archive.heap st)
          end)
    /\ (if Archive.SKIP_RECORD env
        then Archive.files st' =
               <[Archive.imgPath env id1 thePrompt theTime ext := Archive.Binary imgData]>
                 (Archive.files st)
             /\ Archive.archivedImages st' = Archive.archivedImages st
        else Archive.files st' =
               <[Archive.recPath env id1 theTime := Archive.Text (Archive.stringify env d)]>
                 (<[Archive.imgPath env id1 thePrompt theTime ext := Archive.Binary imgData]>
                    (Archive.files st))
             /\ Archive.archivedImages st' = Archive.archivedImages st ∪ {[ id1 ]}).
Proof.
  intros Hnew Hret.
  destruct (archiveImage_unfolds env st st' id0 details0 imgData Hnew Hret)
    as (ref & old & ext & stA & stB
        & Hold & Hext & _ & HiA & HfA & _ & HhA & Hw1 & Hrest).
  exists ref, old, ext. cbn zeta in *.
  apply writeEnsured_returns in Hw1 as (Hi1 & Hh1 & _ & Hf1 & _).
  split; [exact Hold|]. split; [exact Hext|].
  destruct (Archive.SKIP_RECORD env).
  - subst st'. by rewrite Hh1, HhA, Hf1, HfA, Hi1, HiA.
  - destruct Hrest as (stC & Hw2 & ->).
    apply writeEnsured_returns in Hw2 as (Hi2 & Hh2 & _ & Hf2 & _).
    cbn [Archive.heap Archive.files Archive.archivedImages Archive.addArchived].
    by rewrite Hh2, Hh1, HhA, Hf2, Hf1, HfA, Hi2, Hi1, HiA.
Qed.

(** C3, as the code has it.  When the id is in the archived-id index,
    [archiveImage] returns without an error and leaves everything as it was
    (index, files, directories, the caller's objects, the console),
    whatever the details and the payload: the artifact files that exist for
    the id are those that existed before the call, be they none, one or
    several.  If moreover the index holds the id because of a first call
    that persisted it, the disk after the second call holds, beyond what
    was there before the first call, the artifact file of the first payload
    and its record. *)
Theorem persist_duplicate_noop (env : Archive.Env) (st : Archive.State)
    (id0 : option (list N)) :
  Archive.toStr id0 ∈ Archive.archivedImages st ->
  (forall details imgData,
      Archive.archiveImage env id0 details imgData st = (Returns (), st))
  /\ (forall st0 details0 imgData0 details imgData,
        Archive.toStr id0 ∉ Archive.archivedImages st0 ->
        Archive.archiveImage env id0 details0 imgData0 st0 = (Returns (), st) ->
        exists thePrompt theTime ext d,
          Archive.files (Archive.archiveImage env id0 details imgData st).2 =
          <[Archive.recPath env (Archive.toStr id0) theTime :=
              Archive.Text (Archive.stringify env d)]>
            (<[Archive.imgPath env (Archive.toStr id0) thePrompt theTime ext :=
                 Archive.Binary imgData0]> (Archive.files st0))).
Proof.
  intros Hin.
  assert (forall details imgData,
            Archive.archiveImage env id0 details imgData st = (Returns (), st))
    as Hnoop.
  { intros details imgData. unfold Archive.archiveImage.
    by rewrite bool_decide_eq_true_2. }
  split; [exact Hnoop|].
  intros st0 details0 imgData0 details imgData Hnew Hfirst.
  rewrite Hnoop. cbn [snd].
  destruct (archiveImage_returns env st0 st id0 details0 imgData0 Hnew Hfirst)
    as (ref & old & ext & _ & _ & _ & Hdisk).
  cbn zeta in Hdisk.
  destruct (Archive.SKIP_RECORD env).
  - destruct Hdisk as [_ Hidx]. rewrite Hidx in Hin. done.
  - destruct Hdisk as [Hfiles Hidx]. rewrite Hidx in Hin.
    apply elem_of_union in Hin as [Hin|Hin%elem_of_singleton]; [done|].
    rewrite <- Hin in Hfiles. eauto.
Qed.

Lemma persist_duplicate_noop_witness :
  let st := (Archive.archiveImage sampleEnv (Some (JS.str "42")) None pngBytes
               emptyArchive).2 in
  Archive.toStr (Some (JS.str "42")) ∈ Archive.archivedImages st
  /\ Archive.archiveImage sampleEnv (Some (JS.str "42")) None [] st
     = (Returns (), st).
Proof.
  intros st.
  assert (Archive.toStr (Some (JS.str "42")) ∈ Archive.archivedImages st) as H
    by (by vm_compute).
  split; [exact H|].
  exact (proj1 (persist_duplicate_noop sampleEnv st (Some (JS.str "42")) H)
           None []).
Defined.

(** C3 as stated fails: the index says nothing about how many artifact
    files there are for an id.  The SKIP_RECORD variable is read at every
    call.  A first call made with the variable set writes an artifact and
    does not index the id; a second call, with the variable unset and with
    another prompt, writes a second artifact under another name, the
    record, and indexes the id.  Both calls return.  The id is then in the
    index, two artifact files exist for it, and a further call with that id
    is the no-op that leaves both where they are. *)
Lemma duplicate_id_two_artifacts :
  let first := Archive.archiveImage skipEnv (Some (JS.str "42")) (Some 0%nat)
                 pngBytes twoDetails in
  let st1 := first.2 in
  let second := Archive.archiveImage sampleEnv (Some (JS.str "42")) (Some 1%nat)
                  pngBytes st1 in
  let st2 := second.2 in
  let cat := Archive.imgPath sampleEnv (JS.str "42") (JS.str "a cat")
               1709636400 (JS.str "png") in
  let dog := Archive.imgPath sampleEnv (JS.str "42") (JS.str "a dog")
               1709636400 (JS.str "png") in
  first.1 = Returns ()
  /\ second.1 = Returns ()
  /\ Archive.toStr (Some (JS.str "42")) ∈ Archive.archivedImages st2
  /\ Archive.files st2 !! cat = Some (Archive.Binary pngBytes)
  /\ Archive.files st2 !! dog = Some (Archive.Binary pngBytes)
  /\ cat <> dog
  /\ Archive.archiveImage sampleEnv (Some (JS.str "42")) None [] st2
     = (Returns (), st2).
Proof.
  intros first st1 second st2 cat dog.
  assert (Archive.toStr (Some (JS.str "42")) ∈ Archive.archivedImages st2) as H
    by (by vm_compute).
  split; [by vm_compute|]. split; [by vm_compute|].
  split; [exact H|].
  split; [by vm_compute|]. split; [by vm_compute|].
  split; [by vm_compute|].
  unfold Archive.archiveImage. by rewrite bool_decide_eq_true_2.
Qed.

(** C9.  [archiveImage] writes into the caller's own [details] object: when
    a call for an id that is not archived yet returns, the object at the
    caller's reference holds the id worked with (the generated one when
    none was given), the sentinel prompt when it had no prompt, and the
    capture time in seconds when it had no time; a prompt and a time that
    were present are kept. *)
Theorem persist_mutates_details (env : Archive.Env) (st st' : Archive.State)
    (id0 : option (list N)) (ref : nat) (old : Archive.details)
    (imgData : list byte) :
  Archive.toStr id0 ∉ Archive.archivedImages st ->
  Archive.heap st !! ref = Some old ->
  Archive.archiveImage env id0 (Some ref) imgData st = (Returns (), st') ->
  Archive.heap st' !! ref =
    Some {| Archive.id :=
              Some (if Archive.falsy id0 then Archive.randomUUID env
                    else Archive.toStr id0);
            Archive.prompt :=
              Some (match Archive.prompt old with
                    | Some p => p
                    | None => JS.str "[unknown prompt]"
                    end);
            Archive.unixTime :=
              Some (match Archive.unixTime old with
                    | Some t => t
                    | None => Z.quot (Archive.now env) 1000
                    end) |}
  /\ forall other, other <> ref ->
       Archive.heap st' !! other = Archive.heap st !! other.
Proof.
  intros Hnew Hold Hret.
  destruct (archiveImage_returns env st st' id0 (Some ref) imgData Hnew Hret)
    as (r & o & ext & [-> ->] & _ & Hheap & _).
  cbn zeta in Hheap. rewrite Hheap, Hold. cbn [default]. split.
  - rewrite lookup_insert_eq. unfold Archive.effectiveId.
    by destruct old as [oi [op|] [ot|]].
  - intros other Hne. by rewrite lookup_insert_ne.
Qed.

Lemma persist_mutates_details_witness :
  let st :=
    {| Archive.archivedImages := ∅;
       Archive.heap :=
         {[ 7%nat := {| Archive.id := None; Archive.prompt := None;
                        Archive.unixTime := None |} ]};
       Archive.files := ∅; Archive.dirs := ∅; Archive.console := [] |} in
  let st' := (Archive.archiveImage sampleEnv None (Some 7%nat)
                [xff; xd8; xff; xe0] st).2 in
  Archive.heap st' !! 7%nat =
    Some {| Archive.id := Some (JS.str "0b0e3c1e-uuid");
            Archive.prompt := Some (JS.str "[unknown prompt]");
            Archive.unixTime := Some 1709636400%Z |}.
Proof.
  intros st st'.
  refine (proj1 (persist_mutates_details sampleEnv st st' None 7%nat
            {| Archive.id := None; Archive.prompt := None;
               Archive.unixTime := None |}
            [xff; xd8; xff; xe0] _ _ _)).
  - set_solver.
  - reflexivity.
  - by vm_compute.
Defined.

(** ** The pattern cache *)

Section Cache.

Context (newRegExp : RegExpCache.engine).

Lemma coherent_new w : coherent newRegExp (RegExpCache.new w).
Proof. intros p re. cbn. by rewrite lookup_empty. Qed.

Lemma get_cache p rc :
  coherent newRegExp rc ->
  (RegExpCache.get newRegExp p rc).1
  = RegExpCache.compile newRegExp (RegExpCache.wildcard rc) p
  /\ RegExpCache.wildcard (RegExpCache.get newRegExp p rc).2
     = RegExpCache.wildcard rc
  /\ coherent newRegExp (RegExpCache.get newRegExp p rc).2.
Proof.
  intros Hc. unfold RegExpCache.get.
  destruct (RegExpCache.cache rc !! p) as [re|] eqn:Hp.
  - split; [by rewrite (Hc p re Hp) | by split].
  - destruct (RegExpCache.compile newRegExp (RegExpCache.wildcard rc) p)
      as [re|e] eqn:Hre; cbn.
    + split; [done|]. split; [done|]. intros q re' Hq. cbn in Hq |- *.
      apply lookup_insert_Some in Hq as [[<- <-]|[_ Hq]]; [done|by apply Hc].
    + by split.
Qed.

(** Every wildcard compiles. *)
Lemma compile_wildcard p :
  exists re, wildcardToRegex p = Some re
             /\ RegExpCache.compile newRegExp true p = Returns (RegExpCache.Wildcard re).
Proof.
  unfold RegExpCache.compile. rewrite wildcardToRegex_units. by eexists.
Qed.

(** The cache does not change the answers. *)
Lemma testMultiple_uncached s ps rc :
  coherent newRegExp rc ->
  (RegExpCache.testMultiple newRegExp s ps rc).1
  = testEach newRegExp (RegExpCache.wildcard rc) s ps
  /\ RegExpCache.wildcard (RegExpCache.testMultiple newRegExp s ps rc).2
     = RegExpCache.wildcard rc
  /\ coherent newRegExp (RegExpCache.testMultiple newRegExp s ps rc).2.
Proof.
  revert rc. induction ps as [|p ps IH]; intros rc Hrc; [by split|].
  cbn [RegExpCache.testMultiple testEach].
  destruct (get_cache p rc Hrc) as (Hget & Hw & Hrc').
  destruct (RegExpCache.get newRegExp p rc) as [[re|e] rc'] eqn:Hg;
    cbn [fst snd] in *; rewrite <- Hget.
  - destruct (RegExpCache.test re s); [by split|].
    rewrite <- Hw. by apply IH.
  - by split.
Qed.

Lemma testEach_wildcard s ps :
  testEach newRegExp true s ps = Returns (testMultiple s ps).
Proof.
  induction ps as [|p ps IH]; [done|].
  cbn [testEach testMultiple existsb].
  destruct (compile_wildcard p) as (re & Hre & ->).
  unfold wildcardMatches at 1. rewrite Hre. cbn [RegExpCache.test].
  destruct (RegExp.test re s); [done|]. exact IH.
Qed.

Lemma testMultiple_cache s ps rc :
  RegExpCache.wildcard rc = true ->
  coherent newRegExp rc ->
  (RegExpCache.testMultiple newRegExp s ps rc).1 = Returns (testMultiple s ps)
  /\ coherent newRegExp (RegExpCache.testMultiple newRegExp s ps rc).2.
Proof.
  intros Hw Hrc.
  destruct (testMultiple_uncached s ps rc Hrc) as (Hans & _ & Hrc').
  split; [|done]. by rewrite Hans, Hw, testEach_wildcard.
Qed.

Lemma afterGets_sound w ps :
  RegExpCache.wildcard (afterGets newRegExp ps (RegExpCache.new w)) = w
  /\ coherent newRegExp (afterGets newRegExp ps (RegExpCache.new w)).
Proof.
  unfold afterGets. induction ps as [|p ps IH] using rev_ind.
  - split; [done|apply coherent_new].
  - rewrite foldl_app. cbn [foldl]. destruct IH as [Hw Hc].
    destruct (get_cache p _ Hc) as (_ & Hw' & Hc').
    split; [by rewrite Hw'|done].
Qed.

Lemma get_twice (p : list N) rc :
  RegExpCache.get newRegExp p (RegExpCache.get newRegExp p rc).2
  = ((RegExpCache.get newRegExp p rc).1, (RegExpCache.get newRegExp p rc).2).
Proof.
  unfold RegExpCache.get.
  destruct (RegExpCache.cache rc !! p) as [re|] eqn:Hp; cbn [fst snd].
  - by rewrite Hp.
  - destruct (RegExpCache.compile newRegExp (RegExpCache.wildcard rc) p)
      as [re|e] eqn:Hre;
      cbn [fst snd RegExpCache.cache RegExpCache.wildcard].
    + by rewrite lookup_insert_eq.
    + by rewrite Hp, Hre.
Qed.

End Cache.

(** ** Start-up *)



(** ** Targets *)

Section Targets.

Import Intercept.

Lemma bind_queue c i targetId theUrl mask pats net registered st :
  networkResponseCatchQueue
    (bind c i targetId theUrl mask pats net registered st).1
  = networkResponseCatchQueue st
  /\ nextOid (bind c i targetId theUrl mask pats net registered st).1
     = nextOid st.
Proof.
  unfold bind.
  repeat match goal with
    | |- context [match ?x with _ => _ end] => destruct x
    end; done.
Qed.

Lemma inspect_queue c targetId theUrl type i st :
  networkResponseCatchQueue (inspectTargetOrNot c targetId theUrl type i st).1.1
  = networkResponseCatchQueue st
  /\ nextOid (inspectTargetOrNot c targetId theUrl type i st).1.1 = nextOid st.
Proof.
  unfold inspectTargetOrNot.
  destruct (catchResponses c) as [rules|]; [|done].
  destruct (catchLoop rules theUrl type) as [pats net].
  destruct (if targetHandler c then handlerThrows i else None); [done|].
  match goal with
  | |- context [bind ?c ?i ?t ?u ?m ?p ?n ?r ?st] =>
      pose proof (bind_queue c i t u m p n r st) as Hb;
      destruct (bind c i t u m p n r st) as [stb eb]
  end.
  cbn [fst snd] in Hb.
  repeat match goal with
    | |- context [if ?x then _ else _] => destruct x
    | |- context [match ?x with _ => _ end] => destruct x
    end; done.
Qed.

Lemma run_app c evs1 evs2 st :
  run c (evs1 ++ evs2) st =
  let '(st1, e1) := run c evs1 st in
  let '(st2, e2) := run c evs2 st1 in
  (st2, e1 ++ e2).
Proof.
  revert st. induction evs1 as [|ev evs1 IH]; intros st; cbn [run app].
  - by destruct (run c evs2 st).
  - destruct (step c ev st) as [[st' e] r]. rewrite IH.
    destruct (run c evs1 st') as [st1 e1], (run c evs2 st1) as [st2 e2].
    by rewrite app_assoc.
Qed.

End Targets.

(** C10.  A configuration with neither [catchResponses] nor
    [responseReceivedHandler] passes the test of [initializeIntercept];
    with it every run of [inspectTargetOrNot] throws the TypeError of
    iterating [undefined], before it has called a handler or touched the
    shared variables; so whatever events arrive, no session object is made
    and the session table stays empty. *)
Theorem absent_rules_never_bind (c : Intercept.config) :
  Intercept.catchResponses c = None ->
  Intercept.responseReceivedHandler c = false ->
  Intercept.mismatched c = false
  /\ (forall targetId theUrl type i st,
        Intercept.inspectTargetOrNot c targetId theUrl type i st
        = (st, [], Throws Intercept.notIterable))
  /\ (forall evs,
        Intercept.sessions (Intercept.run c evs Intercept.initial).1 = ∅
        /\ Intercept.objects (Intercept.run c evs Intercept.initial).1 = []
        /\ (Intercept.run c evs Intercept.initial).2 = []).
Proof.
  intros Hrules Hhandler.
  assert (forall targetId theUrl type i st,
            Intercept.inspectTargetOrNot c targetId theUrl type i st
            = (st, [], Throws Intercept.notIterable)) as Hthrow
    by (intros; unfold Intercept.inspectTargetOrNot; by rewrite Hrules).
  split; [by unfold Intercept.mismatched; rewrite Hrules, Hhandler|].
  split; [exact Hthrow|].
  intros evs.
  assert (Intercept.run c evs Intercept.initial = (Intercept.initial, [])) as ->;
    [|done].
  induction evs as [|ev evs IH]; [done|].
  cbn [Intercept.run].
  assert (exists r, Intercept.step c ev Intercept.initial
                    = (Intercept.initial, [], r)) as [r ->].
  { destruct ev; cbn [Intercept.step]; rewrite ?Hthrow; eauto. }
  by rewrite IH.
Qed.

Lemma absent_rules_never_bind_witness :
  let c := {| Intercept.catchResponses := None;
              Intercept.responseReceivedHandler := false;
              Intercept.targetHandler := true;
              Intercept.requestPausedHandler := true;
              Intercept.DEBUG := false |} in
  Intercept.mismatched c = false
  /\ (forall targetId theUrl type i st,
        Intercept.inspectTargetOrNot c targetId theUrl type i st
        = (st, [], Throws Intercept.notIterable))
  /\ (forall evs,
        Intercept.sessions (Intercept.run c evs Intercept.initial).1 = ∅
        /\ Intercept.objects (Intercept.run c evs Intercept.initial).1 = []
        /\ (Intercept.run c evs Intercept.initial).2 = []).
Proof.
  intros c. exact (absent_rules_never_bind c eq_refl eq_refl).
Defined.

(** ** Paused requests *)

(** A goal [x ∉ [a; b; ...]] whose elements differ from [x] by their
    constructors. *)
Ltac not_in_list :=
  let Hin := fresh "Hin" in
  intros Hin;
  repeat (apply elem_of_cons in Hin as [Hin|Hin]; [discriminate Hin|]);
  by apply elem_of_nil in Hin.

Ltac paused_cases :=
  repeat match goal with
    | |- context [Intercept.flagged ?m ?f] => destruct (Intercept.flagged m f)
    | |- context [Intercept.responseReceivedHandler ?c] =>
        destruct (Intercept.responseReceivedHandler c)
    | |- context [Intercept.requestPausedHandler ?c] =>
        destruct (Intercept.requestPausedHandler c)
    | |- context [Intercept.received ?i] =>
        let e := fresh "e" in destruct (Intercept.received i) as [[]|e]
    | |- context [Intercept.rawPause ?i] =>
        let e := fresh "e" in destruct (Intercept.rawPause i) as [[|]|e]
    | |- context [Intercept.continued ?i] =>
        let e := fresh "e" in destruct (Intercept.continued i) as [[]|e]
    | |- context [Intercept.DEBUG ?c] => destruct (Intercept.DEBUG c)
    end.

(** C5, as the code has it.  The listener of [Fetch.requestPaused] never
    throws, whatever the caller's handlers do.  An error of a handler is
    caught and handed to [debug].  Unless [requestPausedHandler] was called
    and resolved with a truthy value, the last command of the listener is
    [Fetch.continueRequest] for the paused request; when that command
    fails, the failure is handed to [debug] and nothing else happens.
    [debug] prints only when the DEBUG environment variable is set. *)
Theorem paused_request_continues (c : Intercept.config) (ref : nat)
    (s : Intercept.session) (args : Intercept.pausedArgs)
    (i : Intercept.pausedInput) (st : Intercept.State) :
  let effects := (Intercept.onRequestPaused c ref s args i st).1.2 in
  let continueRequest :=
    Intercept.SessionSend ref
      (Intercept.FetchContinueRequest (Intercept.pausedRequestId args)) in
  (Intercept.onRequestPaused c ref s args i st).2 = Returns ()
  /\ (forall e, handlerError c s i = Some e ->
        exists before after,
          effects = before ++ Intercept.debug c (Intercept.Caught e) ++ after)
  /\ (doNotContinue c s i = false ->
        exists before,
          (continueRequest ∉ before) /\
          effects = before ++ continueRequest ::
            match Intercept.continued i with
            | Intercept.Rejected e => Intercept.debug c (Intercept.Caught e)
            | Intercept.Resolved _ => []
            end)
  /\ (doNotContinue c s i = true -> continueRequest ∉ effects)
  /\ (forall a, Intercept.debug c a =
                if Intercept.DEBUG c then [Intercept.ConsoleLog a] else []).
Proof.
  intros effects continueRequest. subst effects continueRequest.
  unfold Intercept.onRequestPaused, doNotContinue, handlerError,
    Intercept.rawPauseRuns.
  split; [|split; [|split; [|split]]].
  - paused_cases; reflexivity.
  - intros e. paused_cases; cbn; intros [= <-];
      first [ by eexists [_], _ | by eexists [_; _], _ | by eexists [], _ ].
  - paused_cases; cbn; try discriminate; intros _;
      unfold Intercept.debug; paused_cases; cbn;
      first [ eexists []; split; [apply not_elem_of_nil|reflexivity]
            | eexists [_]; split; [|reflexivity]; not_in_list
            | eexists [_; _]; split; [|reflexivity]; not_in_list
            | eexists [_; _; _]; split; [|reflexivity]; not_in_list ].
  - paused_cases; cbn; try discriminate; intros _; not_in_list.
  - reflexivity.
Qed.

(** C5 as stated fails where it says that a failure of the
    continue-request call is logged: without the DEBUG environment
    variable the listener prints nothing when [Fetch.continueRequest] is
    rejected. *)
Lemma paused_continue_failure_silent :
  let st := (Intercept.run sampleConfig boundRun Intercept.initial).1 in
  let effects :=
    (Intercept.step sampleConfig
       (Intercept.RequestPaused 0 pausedPng continueFails) st).1.2 in
  Intercept.DEBUG sampleConfig = false
  /\ Intercept.objects st !! 0%nat = Some boundSession
  /\ effects =
       [ Intercept.CallResponseReceived
           (Intercept.pausedReport boundSession pausedPng
              (Intercept.pausedEvict boundSession pausedPng st));
         Intercept.SessionSend 0
           (Intercept.FetchContinueRequest (JS.str "interception-job-1.0")) ]
  /\ forall a, Intercept.ConsoleLog a ∉ effects.
Proof.
  cbv zeta. split; [reflexivity|]. split; [by vm_compute|].
  assert ((Intercept.step sampleConfig
             (Intercept.RequestPaused 0 pausedPng continueFails)
             (Intercept.run sampleConfig boundRun Intercept.initial).1).1.2 =
       [ Intercept.CallResponseReceived
           (Intercept.pausedReport boundSession pausedPng
              (Intercept.pausedEvict boundSession pausedPng
                 (Intercept.run sampleConfig boundRun Intercept.initial).1));
         Intercept.SessionSend 0
           (Intercept.FetchContinueRequest (JS.str "interception-job-1.0")) ])
    as -> by (by vm_compute).
  split; [reflexivity|]. intros a. not_in_list.
Qed.

(** With DEBUG set the same failure is printed, after the command. *)
Lemma paused_request_continues_witness :
  exists before,
    (Intercept.onRequestPaused debugConfig 0 boundSession pausedPng continueFails
       (Intercept.run debugConfig boundRun Intercept.initial).1).1.2 =
    before ++
    [ Intercept.SessionSend 0
        (Intercept.FetchContinueRequest (JS.str "interception-job-1.0"));
      Intercept.ConsoleLog
        (Intercept.Caught (ErrorObject (JS.str "Invalid InterceptionId."))) ].
Proof.
  destruct (proj1 (proj2 (proj2
    (paused_request_continues debugConfig 0 boundSession pausedPng continueFails
       (Intercept.run debugConfig boundRun Intercept.initial).1))) eq_refl)
    as [before [_ H]].
  exists before. exact H.
Defined.

(** ** Detaching a session *)

Section Detaching.

Import Intercept.

Lemma bind_no_detach c i targetId theUrl mask pats net registered st ref :
  SessionDetach ref ∉ (bind c i targetId theUrl mask pats net registered st).2.
Proof.
  unfold bind, debug.
  repeat match goal with
    | |- context [match ?x with _ => _ end] => destruct x
    end; cbn; not_in_list.
Qed.

Lemma inspect_detach c targetId theUrl type i st ref :
  SessionDetach ref ∈ (inspectTargetOrNot c targetId theUrl type i st).1.2 ->
  sessions st !! targetId = Some ref
  /\ sessions (inspectTargetOrNot c targetId theUrl type i st).1.1 !! targetId = None.
Proof.
  unfold inspectTargetOrNot.
  destruct (catchResponses c) as [rules|]; [|by intros ?%elem_of_nil].
  destruct (catchLoop rules theUrl type) as [pats net].
  set (regs := if targetHandler c then registrations i else []).
  set (mask := if bool_decide (regs <> []) then _ else _).
  set (e0 := if targetHandler c then [CallTargetHandler type theUrl] else []).
  assert (SessionDetach ref ∉ e0) as He0
    by (subst e0; destruct (targetHandler c); not_in_list).
  destruct (if targetHandler c then handlerThrows i else None); [done|].
  destruct (bool_decide (is_Some (sessions st !! targetId))) eqn:Hbeing.
  - (* already inspected: no binding *)
    rewrite andb_false_r. cbn [andb].
    destruct (mask =? 0).
    + apply bool_decide_eq_true in Hbeing as [r Hr]. rewrite Hr.
      cbn [fst snd]. intros Hin. split.
      * repeat (apply elem_of_app in Hin as [Hin|Hin]); try done.
        -- destruct (bool_decide (regs <> [])); revert Hin; not_in_list.
        -- apply list_elem_of_singleton in Hin. congruence.
        -- destruct (detachRejects i); unfold debug in Hin;
             try destruct (DEBUG c); revert Hin; not_in_list.
      * cbn. apply lookup_delete_eq.
    + cbn [fst snd]. intros Hin.
      apply elem_of_app in Hin as [Hin|Hin]; [done|].
      destruct (bool_decide (regs <> [])); revert Hin; not_in_list.
  - (* not inspected: the detach branch is not taken *)
    rewrite andb_true_r. cbn [andb].
    destruct (negb (mask =? 0)).
    + pose proof (bind_no_detach c i targetId theUrl mask
        (pats ++ concat regs) net (bool_decide (regs <> [])) st ref) as Hb.
      destruct (bind _ _ _ _ _ _ _ _ _) as [stb eb]. cbn [fst snd] in *.
      intros Hin. by apply elem_of_app in Hin as [Hin|Hin].
    + cbn [fst snd]. intros Hin.
      apply elem_of_app in Hin as [Hin|Hin]; [done|].
      destruct (bool_decide (regs <> [])); revert Hin; not_in_list.
Qed.

End Detaching.

(** C2, as the code has it.  Neither way of detaching a session touches
    the queue of pending observations: when [inspectTargetOrNot] detaches
    the session of a target (no interest is left), the target leaves the
    session table and the queue is what it was; the same holds for the
    listener of the session's [detached] event.  An entry that is in the
    queue is handed to [responseReceivedHandler] by the next
    loading-finished event with its request id. *)
Theorem detach_keeps_pending (c : Intercept.config) (st : Intercept.State) :
  (forall targetId theUrl type i,
      let r := Intercept.inspectTargetOrNot c targetId theUrl type i st in
      Intercept.networkResponseCatchQueue r.1.1
        = Intercept.networkResponseCatchQueue st
      /\ forall ref, Intercept.SessionDetach ref ∈ r.1.2 ->
           Intercept.sessions st !! targetId = Some ref
           /\ Intercept.sessions r.1.1 !! targetId = None)
  /\ (forall ref s,
        let r := Intercept.onDetached c ref s st in
        Intercept.networkResponseCatchQueue r.1.1
          = Intercept.networkResponseCatchQueue st
        /\ Intercept.sessions r.1.1 !! Intercept.target s = None)
  /\ (forall rid entry threw,
        Intercept.networkResponseCatchQueue st !! rid = Some entry ->
        Intercept.responseReceivedHandler c = true ->
        (Intercept.onLoadingFinished c rid threw st).1.2
          = [Intercept.CallResponseReceived entry]).
Proof.
  split; [|split].
  - intros targetId theUrl type i r. subst r. split.
    + apply inspect_queue.
    + intros ref. apply inspect_detach.
  - intros ref s r. subst r. split; [reflexivity|]. cbn. apply lookup_delete_eq.
  - intros rid entry threw Hentry Hhandler. unfold Intercept.onLoadingFinished.
    by rewrite Hentry, Hhandler.
Qed.

Lemma detach_keeps_pending_witness :
  let st := (Intercept.run sampleConfig boundRun Intercept.initial).1 in
  let r :=
    Intercept.inspectTargetOrNot sampleConfig (JS.str "tab-A")
      (JS.str "https://other.example/") (JS.str "page")
      (bindsAs (JS.str "S-A2")) st in
  Intercept.SessionDetach 0 ∈ r.1.2
  /\ Intercept.sessions r.1.1 !! JS.str "tab-A" = None
  /\ Intercept.networkResponseCatchQueue r.1.1 !! JS.str "1000.7"
     = Some pendingEntry.
Proof.
  intros st r.
  destruct (proj1 (detach_keeps_pending sampleConfig st) (JS.str "tab-A")
              (JS.str "https://other.example/") (JS.str "page")
              (bindsAs (JS.str "S-A2"))) as [Hqueue Hdetach].
  fold r in Hqueue, Hdetach.
  assert (Intercept.SessionDetach 0 ∈ r.1.2) as Hin
    by (apply list_elem_of_In; vm_compute; auto).
  split; [exact Hin|]. split; [exact (proj2 (Hdetach 0%nat Hin))|].
  rewrite Hqueue. by vm_compute.
Defined.

(** C2 as stated fails.  Two tabs of the site are bound; the first one
    sends a request that matches, then navigates away and is detached.  The
    entry that its session created is still in the queue, and a
    loading-finished event with its request id hands it to
    [responseReceivedHandler], be it delivered to the listeners of the
    second tab's session or to those that are still registered on the
    detached session object. *)
Lemma detached_session_entry_emitted :
  let evs :=
    [ Intercept.TargetCreated (JS.str "tab-A") (JS.str "https://app.example/a")
        (JS.str "page") (bindsAs (JS.str "S-A"));
      Intercept.TargetCreated (JS.str "tab-B") (JS.str "https://app.example/b")
        (JS.str "page") (bindsAs (JS.str "S-B"));
      Intercept.RequestWillBeSent 0 pngRequest (JS.str "1000.7");
      Intercept.TargetInfoChanged (JS.str "tab-A") (JS.str "https://other.example/")
        (JS.str "page") (bindsAs (JS.str "S-A2")) ] in
  let st := (Intercept.run sampleConfig evs Intercept.initial).1 in
  let entry :=
    {| Intercept.oid := 0; Intercept.initiator := JS.str "https://app.example/a";
       Intercept.asFetch := false; Intercept.requestId := JS.str "1000.7";
       Intercept.networkId := None; Intercept.sessionId := JS.str "S-A";
       Intercept.theRequest := pngRequest; Intercept.theResponse := None |} in
  (Intercept.run sampleConfig evs Intercept.initial).2 = [
      Intercept.NewSession (JS.str "tab-A");
      Intercept.SessionSend 0 (Intercept.FetchEnable [JS.str "*.png"]);
      Intercept.SessionSend 0 Intercept.NetworkEnable;
      Intercept.NewSession (JS.str "tab-B");
      Intercept.SessionSend 1 (Intercept.FetchEnable [JS.str "*.png"]);
      Intercept.SessionSend 1 Intercept.NetworkEnable;
      Intercept.SessionDetach 0 ]
  /\ Intercept.sessions st !! JS.str "tab-A" = None
  /\ Intercept.networkResponseCatchQueue st !! JS.str "1000.7" = Some entry
  /\ Intercept.emitted
       (Intercept.run sampleConfig
          [Intercept.LoadingFinished 1 (JS.str "1000.7") None] st).2 = [entry]
  /\ Intercept.emitted
       (Intercept.run sampleConfig
          [Intercept.LoadingFinished 0 (JS.str "1000.7") None] st).2 = [entry].
Proof. cbv zeta. repeat split; by vm_compute. Qed.

(** ** The queue of pending observations *)

Section PendingObservations.

Import Intercept.

Lemma wellFormed_initial : wellFormed initial.
Proof. split; intros k; intros; cbn in *; by rewrite lookup_empty in *. Qed.

Lemma wellFormed_change st st' :
  queueChange st st' -> wellFormed st -> wellFormed st'.
Proof.
  intros Hch [Hlt Huniq].
  destruct Hch as [n Hq Hn|k r Ho Hq Hn|k r r' Hk Ho Hq Hn|k n Hq Hn];
    unfold wellFormed; rewrite Hq, Hn.
  - split; [|done]. intros j x Hj. specialize (Hlt _ _ Hj). lia.
  - split.
    + intros j x [[<- <-]|[_ Hj]]%lookup_insert_Some; [lia|].
      specialize (Hlt _ _ Hj). lia.
    + intros j j' x x' [[<- <-]|[? Hj]]%lookup_insert_Some
        [[<- <-]|[? Hj']]%lookup_insert_Some Heq; try done.
      * specialize (Hlt _ _ Hj'). lia.
      * specialize (Hlt _ _ Hj). lia.
      * by eapply Huniq.
  - split.
    + intros j x [[<- <-]|[_ Hj]]%lookup_insert_Some; [|by eapply Hlt].
      rewrite Ho. by eapply Hlt.
    + intros j j' x x' [[<- <-]|[? Hj]]%lookup_insert_Some
        [[<- <-]|[? Hj']]%lookup_insert_Some Heq; try done.
      * rewrite Ho in Heq. by eapply Huniq.
      * rewrite Ho in Heq. by eapply Huniq.
      * by eapply Huniq.
  - split.
    + intros j x [_ Hj]%lookup_delete_Some. specialize (Hlt _ _ Hj). lia.
    + intros j j' x x' [_ Hj]%lookup_delete_Some [_ Hj']%lookup_delete_Some.
      by eapply Huniq.
Qed.

Lemma gone_change o st st' :
  queueChange st st' -> gone o st -> gone o st'.
Proof.
  intros Hch [Hlt Hne].
  destruct Hch as [n Hq Hn|k r Ho Hq Hn|k r r' Hk Ho Hq Hn|k n Hq Hn];
    unfold gone; rewrite Hq, Hn.
  - split; [lia|done].
  - split; [lia|].
    intros j x [[<- <-]|[_ Hj]]%lookup_insert_Some; [lia|by eapply Hne].
  - split; [done|].
    intros j x [[<- <-]|[_ Hj]]%lookup_insert_Some; [|by eapply Hne].
    rewrite Ho. by eapply Hne.
  - split; [lia|].
    intros j x [_ Hj]%lookup_delete_Some. by eapply Hne.
Qed.

Lemma emitted_app e1 e2 : emitted (e1 ++ e2) = emitted e1 ++ emitted e2.
Proof.
  induction e1 as [|[] e1 IH]; cbn [emitted app]; by rewrite ?IH.
Qed.

Lemma debug_emits_nothing c a : emitted (debug c a) = [].
Proof. unfold debug. by destruct (DEBUG c). Qed.

Lemma bind_emits_nothing c i targetId theUrl mask pats net registered st :
  emitted (bind c i targetId theUrl mask pats net registered st).2 = [].
Proof.
  unfold bind.
  repeat match goal with
    | |- context [match ?x with _ => _ end] => destruct x
    end;
    cbn [fst snd emitted app];
    rewrite ?emitted_app, ?debug_emits_nothing; reflexivity.
Qed.

Lemma inspect_emits_nothing c targetId theUrl type i st :
  emitted (inspectTargetOrNot c targetId theUrl type i st).1.2 = [].
Proof.
  unfold inspectTargetOrNot.
  destruct (catchResponses c) as [rules|]; [|done].
  destruct (catchLoop rules theUrl type) as [pats net].
  set (regs := if targetHandler c then registrations i else []).
  set (mask := if bool_decide (regs <> []) then _ else _).
  set (e0 := if targetHandler c then [CallTargetHandler type theUrl] else []).
  assert (emitted e0 = []) as He0 by (subst e0; by destruct (targetHandler c)).
  destruct (if targetHandler c then handlerThrows i else None); [done|].
  match goal with
  | |- context [bind ?c ?i ?t ?u ?m ?p ?n ?r ?st] =>
      pose proof (bind_emits_nothing c i t u m p n r st) as Hb;
      destruct (bind c i t u m p n r st) as [stb eb]
  end.
  cbn [fst snd] in Hb.
  repeat match goal with
    | |- context [if ?x then _ else _] => destruct x
    | |- context [match ?x with _ => _ end] => destruct x
    end;
    cbn [fst snd];
    rewrite ?emitted_app, ?He0, ?Hb, ?debug_emits_nothing; reflexivity.
Qed.

(** What a step does to the queue, and what it hands to
    [responseReceivedHandler]: an object taken out of the queue, or a new
    one. *)
Lemma step_change c ev st :
  queueChange st (step c ev st).1.1
  /\ forall r, r ∈ emitted (step c ev st).1.2 ->
       (exists k, networkResponseCatchQueue st !! k = Some r)
       \/ (nextOid st <= oid r)%nat.
Proof.
  assert (queueChange st st) as Hrefl by by apply (Unchanged _ _ 0).
  assert (forall r : report, r ∈ emitted [] ->
            (exists k, networkResponseCatchQueue st !! k = Some r)
            \/ (nextOid st <= oid r)%nat) as Hnil
    by (intros r Hr; by apply elem_of_nil in Hr).
  destruct ev as [t u ty i|t u ty i|ref|ref req rid|ref resp rid|ref rid threw|ref args i];
    cbn [step]; unfold withListener.
  - split; [apply (Unchanged _ _ 0); apply inspect_queue|].
    by rewrite inspect_emits_nothing.
  - split; [apply (Unchanged _ _ 0); apply inspect_queue|].
    by rewrite inspect_emits_nothing.
  - destruct (objects st !! ref) as [s|]; [|done].
    destruct (detachedListener s); [|done].
    split; [by apply (Unchanged _ _ 0)|].
    cbn [onDetached fst snd]. by rewrite debug_emits_nothing.
  - destruct (objects st !! ref) as [s|]; [|done].
    destruct (networkListeners s); [|done].
    unfold onRequestWillBeSent. destruct (testMultiple _ _); [|done].
    cbn [fst snd]. split; [|done].
    eapply (Added _ _ rid); [|reflexivity|reflexivity]; reflexivity.
  - destruct (objects st !! ref) as [s|]; [|done].
    destruct (networkListeners s); [|done].
    unfold onResponseReceived.
    destruct (networkResponseCatchQueue st !! rid) as [result|] eqn:Hrid; [|done].
    cbn [fst snd]. split; [|done].
    eapply (Updated _ _ rid result); [exact Hrid| |reflexivity|reflexivity];
      reflexivity.
  - destruct (objects st !! ref) as [s|]; [|done].
    destruct (networkListeners s); [|done].
    unfold onLoadingFinished.
    destruct (networkResponseCatchQueue st !! rid) as [result|] eqn:Hrid; [|done].
    destruct (responseReceivedHandler c); cbn [fst snd].
    + split; [by apply (Removed _ _ rid 0)|].
      intros r ->%list_elem_of_singleton. eauto.
    + split; [by apply (Removed _ _ rid 0)|done].
  - destruct (objects st !! ref) as [s|]; [|done].
    destruct (pausedListener s); [|done].
    unfold onRequestPaused, pausedEvict, pausedReport, debug.
    destruct (pausedNetworkId args) as [nid|].
    + paused_cases; cbn;
        (split;
         [first [ by apply (Removed _ _ nid 1) | by apply (Removed _ _ nid 0)
                | by apply (Unchanged _ _ 0) ]|]);
        try done; intros r ->%list_elem_of_singleton; right; cbn; lia.
    + paused_cases; cbn;
        (split; [first [ by apply (Unchanged _ _ 1) | by apply (Unchanged _ _ 0) ]|]);
        try done; intros r ->%list_elem_of_singleton; right; cbn; lia.
Qed.

Lemma wellFormed_run c evs st :
  wellFormed st -> wellFormed (run c evs st).1.
Proof.
  revert st. induction evs as [|ev evs IH]; intros st Hwf; [done|].
  cbn [run]. pose proof (step_change c ev st) as [Hch _].
  destruct (step c ev st) as [[st' e] r]. cbn [fst] in Hch.
  specialize (IH st' (wellFormed_change _ _ Hch Hwf)).
  by destruct (run c evs st').
Qed.

(** An object that is gone is never handed to [responseReceivedHandler]
    again. *)
Lemma gone_run c evs o st :
  gone o st -> forall r, r ∈ emitted (run c evs st).2 -> oid r <> o.
Proof.
  revert st. induction evs as [|ev evs IH]; intros st Hgone r;
    [by intros ?%elem_of_nil|].
  cbn [run]. pose proof (step_change c ev st) as [Hch Hem].
  destruct (step c ev st) as [[st' e] res]. cbn [fst snd] in Hch, Hem.
  specialize (IH st' (gone_change _ _ _ Hch Hgone) r).
  destruct (run c evs st') as [st'' e']. cbn [fst snd] in *.
  rewrite emitted_app. intros [Hr|Hr]%elem_of_app; [|by apply IH].
  destruct Hgone as [Hlt Hne].
  destruct (Hem r Hr) as [[k Hk]|Hnew]; [by eapply Hne|lia].
Qed.

Lemma evicted_gone st nid entry :
  wellFormed st ->
  networkResponseCatchQueue st !! nid = Some entry ->
  gone (oid entry) (setQueue (delete nid (networkResponseCatchQueue st)) st).
Proof.
  intros [Hlt Huniq] Hentry. split; [by eapply Hlt|].
  cbn. intros k r [Hne Hk]%lookup_delete_Some Heq.
  apply Hne. by eapply Huniq.
Qed.

Lemma gone_after_run c evs o st :
  gone o st -> gone o (run c evs st).1.
Proof.
  revert st. induction evs as [|ev evs IH]; intros st Hgone; [done|].
  cbn [run]. pose proof (step_change c ev st) as [Hch _].
  destruct (step c ev st) as [[st' e] res]. cbn [fst] in Hch.
  specialize (IH st' (gone_change _ _ _ Hch Hgone)).
  by destruct (run c evs st').
Qed.

Lemma pausedFinish_emits_nothing c ref args i ended st :
  emitted (pausedFinish c ref args i ended st).*1 = [].
Proof.
  unfold pausedFinish, debug.
  destruct ended as [[|]|e], (continued i), (DEBUG c); reflexivity.
Qed.

Lemma pausedResume_emits_nothing c ref s args i p st :
  emitted (pausedResume c ref s args i p st).1.*1 = [].
Proof.
  unfold pausedResume, pausedSecond.
  destruct p; [| |done]; repeat match goal with
    | |- context [match ?x with _ => _ end] => destruct x
    end; cbn [fst]; try apply pausedFinish_emits_nothing; reflexivity.
Qed.

(** Run without anything in between, the listener cut at its awaits is the
    listener run in one go. *)
Lemma paused_at_once c ref s args i st :
  onRequestPaused c ref s args i st = (pausedAtOnce c ref s args i st, Returns ()).
Proof.
  unfold onRequestPaused, pausedAtOnce, pausedStart, pausedResume,
    pausedSecond, pausedFinish, pausedEvict, debug.
  destruct (pausedNetworkId args); paused_cases; reflexivity.
Qed.

End PendingObservations.

(** C1.  Take a [Fetch.requestPaused] event on a session for which
    response capture is enabled, carrying a network id under which an
    observation is pending.  The listener runs up to its first [await]: in
    that stretch it calls [responseReceivedHandler], once, with a new
    object, and the shared variables as they are at that call hold no entry
    for the network id, nor do they when the listener gives the control
    back.  From then on, whatever events are handled while the promise of
    the handler is pending, while that of [requestPausedHandler] is pending,
    and after the listener has ended, the object of the entry is never
    handed to [responseReceivedHandler], by the observation channel or
    otherwise; nor is it when the listener is run in one go. *)
Theorem paused_report_evicts_pending (c : Intercept.config)
    (st : Intercept.State) (ref : nat) (s : Intercept.session)
    (args : Intercept.pausedArgs) (i : Intercept.pausedInput)
    (nid : list N) (entry : Intercept.report) :
  wellFormed st ->
  Intercept.objects st !! ref = Some s ->
  Intercept.pausedListener s = true ->
  Intercept.flagged (Intercept.shouldInspect s) Intercept.byResponseCatcher = true ->
  Intercept.responseReceivedHandler c = true ->
  Intercept.pausedNetworkId args = Some nid ->
  Intercept.networkResponseCatchQueue st !! nid = Some entry ->
  let start := Intercept.pausedStart c ref s args i st in
  let waiting := start.1.1 in
  (exists report atCall,
      start.1.2 = [(Intercept.CallResponseReceived report, atCall)]
      /\ Intercept.networkResponseCatchQueue atCall !! nid = None
      /\ Intercept.oid report <> Intercept.oid entry)
  /\ start.2 = Intercept.AwaitsReceived
  /\ Intercept.networkResponseCatchQueue waiting !! nid = None
  /\ (forall during between after r,
        let st2 := (Intercept.run c during waiting).1 in
        let resumed := Intercept.pausedResume c ref s args i start.2 st2 in
        let st3 := (Intercept.run c between st2).1 in
        let finished := Intercept.pausedResume c ref s args i resumed.2 st3 in
        r ∈ Intercept.emitted
              ((Intercept.run c during waiting).2 ++ resumed.1.*1
               ++ (Intercept.run c between st2).2 ++ finished.1.*1
               ++ (Intercept.run c after st3).2) ->
        Intercept.oid r <> Intercept.oid entry)
  /\ (forall evs r,
        r ∈ Intercept.emitted
              (Intercept.run c (Intercept.RequestPaused ref args i :: evs) st).2 ->
        Intercept.oid r <> Intercept.oid entry).
Proof.
  intros Hwf Hobj Hlistener Hcapture Hhandler Hnid Hentry start waiting.
  subst waiting start.
  pose proof (evicted_gone st nid entry Hwf Hentry) as Hgone1.
  set (st1 := Intercept.setQueue
                (delete nid (Intercept.networkResponseCatchQueue st)) st) in *.
  assert (gone (Intercept.oid entry) (Intercept.bumpOid st1)) as Hgone
    by (apply (gone_change _ st1); [by apply (Unchanged _ _ 1)|done]).
  assert (Intercept.nextOid st1 <> Intercept.oid entry) as Hfresh
    by (destruct Hgone1 as [Hlt _]; lia).
  unfold Intercept.pausedStart, Intercept.pausedEvict.
  rewrite Hcapture, Hhandler, Hnid. fold st1. cbn [fst snd].
  split; [|split; [done|split; [apply lookup_delete_eq|split]]].
  - eexists _, _. split; [reflexivity|]. split; [apply lookup_delete_eq|done].
  - intros during between after r. cbn zeta.
    rewrite !emitted_app, !pausedResume_emits_nothing. cbn [app].
    pose proof (gone_after_run c during _ _ Hgone) as Hgone2.
    pose proof (gone_after_run c between _ _ Hgone2) as Hgone3.
    rewrite !elem_of_app. intros [Hr|[Hr|Hr]]; revert Hr; by apply gone_run.
  - intros evs r. cbn [Intercept.run Intercept.step].
    unfold Intercept.withListener. rewrite Hobj, Hlistener, paused_at_once.
    assert ((pausedAtOnce c ref s args i st).1 = Intercept.bumpOid st1
            /\ Intercept.emitted (pausedAtOnce c ref s args i st).2
               = [Intercept.pausedReport s args st1]) as [Hst Hem].
    { unfold pausedAtOnce, Intercept.pausedStart, Intercept.pausedEvict,
        Intercept.pausedResume, Intercept.pausedSecond, Intercept.pausedFinish,
        Intercept.debug.
      rewrite Hcapture, Hhandler, Hnid. fold st1.
      paused_cases; split; reflexivity. }
    destruct (pausedAtOnce c ref s args i st) as [stP eP].
    cbn [fst snd] in Hst, Hem. subst stP.
    pose proof (gone_run c evs _ _ Hgone r) as Hrest.
    destruct (Intercept.run c evs (Intercept.bumpOid st1)) as [st' e'].
    cbn [fst snd] in *. rewrite emitted_app, Hem.
    intros [->%list_elem_of_singleton|Hr]%elem_of_app; [done|by apply Hrest].
Qed.

Lemma paused_report_evicts_pending_witness :
  let st := (Intercept.run sampleConfig boundRun Intercept.initial).1 in
  let waiting :=
    (Intercept.pausedStart sampleConfig 0 boundSession pausedPng settles st).1.1 in
  Intercept.networkResponseCatchQueue st !! JS.str "1000.7" = Some pendingEntry
  /\ Intercept.networkResponseCatchQueue waiting !! JS.str "1000.7" = None
  /\ Intercept.emitted
       (Intercept.run sampleConfig
          [Intercept.LoadingFinished 0 (JS.str "1000.7") None] waiting).2 = [].
Proof.
  intros st waiting.
  assert (wellFormed st) as Hwf
    by apply wellFormed_run, wellFormed_initial.
  assert (Intercept.networkResponseCatchQueue st !! JS.str "1000.7"
          = Some pendingEntry) as Hentry by (by vm_compute).
  pose proof (paused_report_evicts_pending sampleConfig st 0 boundSession
                pausedPng settles (JS.str "1000.7") pendingEntry Hwf
                ltac:(by vm_compute) eq_refl eq_refl eq_refl eq_refl Hentry)
    as (_ & _ & Hnone & _).
  split; [exact Hentry|]. split; [exact Hnone|]. by vm_compute.
Defined.

(** ** More on wildcards and on the cache *)

Section WildcardsMore.

Import RegExp.

Lemma matchHere_glob (p : list N) pos t :
  matchHere (map unitTerm p ++ [TAssertEnd]) pos t = glob p t.
Proof.
  revert pos t. induction p as [|c p IH]; intros pos t.
  - by destruct t.
  - cbn [map app glob]. unfold unitTerm.
    destruct (c =? JS.ch "*").
    + cbn [matchHere]. revert pos.
      induction t as [|d t IHt]; intros pos.
      * by rewrite IH.
      * rewrite IH. f_equal. cbn [atomMatches]. f_equal. apply IHt.
    + destruct (c =? JS.ch "?"); cbn [matchHere atomMatches];
        destruct t as [|d t]; try reflexivity; by rewrite IH.
Qed.

Lemma glob_literal (p t : list N) :
  (forall c, c ∈ p -> c <> JS.ch "*" /\ c <> JS.ch "?") ->
  glob p t = true <-> t = p.
Proof.
  revert t. induction p as [|c p IH]; intros t Hp.
  - destruct t; cbn; split; congruence.
  - destruct (Hp c) as [Hstar Hq]; [left|].
    cbn [glob]. rewrite (proj2 (N.eqb_neq c _) Hstar), (proj2 (N.eqb_neq c _) Hq).
    destruct t as [|d t]; [split; congruence|].
    rewrite andb_true_iff, N.eqb_eq, IH by (intros x Hx; apply Hp; by right).
    split; [intros [-> ->]; done | intros [= -> ->]; done].
Qed.

Lemma glob_star_nil c (p : list N) :
  (c =? JS.ch "*") = true -> glob (c :: p) [] = glob p [].
Proof. intros Hc. cbn [glob]. rewrite Hc. apply orb_false_r. Qed.

Lemma glob_star_cons c (p : list N) d s :
  (c =? JS.ch "*") = true ->
  glob (c :: p) (d :: s) =
  glob p (d :: s) || (negb (JS.isLineTerminator d) && glob (c :: p) s).
Proof. intros Hc. cbn [glob]. rewrite Hc. reflexivity. Qed.

Lemma glob_app (p q t u : list N) :
  glob p t = true -> glob q u = true -> glob (p ++ q) (t ++ u) = true.
Proof.
  revert t. induction p as [|c p IH]; intros t.
  - destruct t; [done|discriminate].
  - destruct (c =? JS.ch "*") eqn:Hc.
    + induction t as [|d t IHt]; intros Hp Hq.
      * rewrite glob_star_nil in Hp by done.
        specialize (IH [] Hp Hq). cbn [app] in *.
        destruct u as [|e u].
        -- by rewrite glob_star_nil.
        -- rewrite glob_star_cons by done. by rewrite IH.
      * rewrite glob_star_cons in Hp by done.
        change ((c :: p) ++ q) with (c :: (p ++ q)).
        change ((d :: t) ++ u) with (d :: (t ++ u)).
        rewrite glob_star_cons by done.
        apply orb_true_iff in Hp as [Hp|Hp].
        -- pose proof (IH (d :: t) Hp Hq) as H. cbn [app] in H. by rewrite H.
        -- apply andb_true_iff in Hp as [Hd Hp].
           pose proof (IHt Hp Hq) as H. cbn [app] in H.
           rewrite Hd, H. apply orb_true_r.
    + cbn [app glob]. rewrite Hc.
      destruct t as [|d t]; [discriminate|].
      intros [Hd Hp]%andb_true_iff Hq. cbn [app]. by rewrite Hd, IH.
Qed.

End WildcardsMore.

(** X1.  A compiled wildcard pattern decides exactly the wildcard language:
    for every pattern and every string, [regExpCache.get(pattern).test(s)]
    is true if and only if the string can be read against the pattern with
    a star as any run of code units other than line terminators, a question
    mark as one such code unit, and every other code unit (the
    metacharacters of regular expressions among them) as itself.  Matches
    of two patterns concatenate. *)
Theorem wildcard_is_glob :
  (forall pattern s, wildcardMatches pattern s = glob pattern s)
  /\ (forall p q t u,
        wildcardMatches p t = true -> wildcardMatches q u = true ->
        wildcardMatches (p ++ q) (t ++ u) = true).
Proof.
  assert (forall pattern s, wildcardMatches pattern s = glob pattern s) as H.
  { intros pattern s. unfold wildcardMatches.
    by rewrite wildcardToRegex_units, test_anchored, matchHere_glob. }
  split; [exact H|].
  intros p q t u. rewrite !H. apply glob_app.
Qed.

(** X2.  A pattern without star and question mark matches its own text
    and nothing else, whatever metacharacters of regular expressions it
    contains: the escaping step leaves none of them active. *)
Theorem wildcard_literal_matches_itself (pattern s : list N) :
  (forall c, c ∈ pattern -> c <> JS.ch "*" /\ c <> JS.ch "?") ->
  wildcardMatches pattern s = true <-> s = pattern.
Proof.
  intros Hp. unfold wildcardMatches.
  rewrite wildcardToRegex_units, test_anchored, matchHere_glob.
  by apply glob_literal.
Qed.

Lemma wildcard_literal_matches_itself_witness :
  wildcardMatches (JS.str "https://a.b/(x)+[y]^{z}|$\d")
                  (JS.str "https://a.b/(x)+[y]^{z}|$\d") = true
  /\ wildcardMatches (JS.str "a.b") (JS.str "axb") = false.
Proof.
  assert (forall p : list N,
            forallb (fun c => negb (c =? JS.ch "*") && negb (c =? JS.ch "?")) p = true ->
            forall c, c ∈ p -> c <> JS.ch "*" /\ c <> JS.ch "?") as Hdec.
  { intros p Hall c Hc%list_elem_of_In.
    rewrite forallb_forall in Hall. specialize (Hall c Hc).
    apply andb_true_iff in Hall as [H1%negb_true_iff%N.eqb_neq H2%negb_true_iff%N.eqb_neq].
    done. }
  split.
  - apply (wildcard_literal_matches_itself
             (JS.str "https://a.b/(x)+[y]^{z}|$\d") _
             (Hdec (JS.str "https://a.b/(x)+[y]^{z}|$\d") eq_refl)).
    reflexivity.
  - apply not_true_is_false. intros H.
    apply (wildcard_literal_matches_itself (JS.str "a.b") _
             (Hdec (JS.str "a.b") eq_refl)) in H.
    discriminate H.
Defined.

(** X3.  The pattern cache is transparent and compiles a pattern once,
    whichever of the two compilers it was built for and whatever the
    engine makes of a source.  Whatever patterns were looked up before,
    [get] answers with what compiling the pattern afresh gives (the
    expression, or the error of the constructor, after which nothing is
    stored); asking again for the same pattern gives the same answer and
    leaves the cache as it is; [testMultiple] answers what it would answer
    without a cache, compiling every pattern at its turn; and for a cache
    of wildcards this is whether one of the patterns matches. *)
Theorem cache_is_transparent (newRegExp : RegExpCache.engine)
    (wildcard : bool) (before : list (list N)) (pattern : list N) :
  let rc := afterGets newRegExp before (RegExpCache.new wildcard) in
  (RegExpCache.get newRegExp pattern rc).1
  = RegExpCache.compile newRegExp wildcard pattern
  /\ RegExpCache.get newRegExp pattern (RegExpCache.get newRegExp pattern rc).2
     = ((RegExpCache.get newRegExp pattern rc).1,
        (RegExpCache.get newRegExp pattern rc).2)
  /\ (forall s patterns,
        (RegExpCache.testMultiple newRegExp s patterns rc).1
        = testEach newRegExp wildcard s patterns)
  /\ (forall s patterns,
        (RegExpCache.testMultiple newRegExp s patterns
           (afterGets newRegExp before (RegExpCache.new true))).1
        = Returns (existsb (fun p => wildcardMatches p s) patterns)).
Proof.
  intros rc. subst rc.
  destruct (afterGets_sound newRegExp wildcard before) as [Hw Hc].
  split.
  { destruct (get_cache newRegExp pattern _ Hc) as (Hget & _). by rewrite Hget, Hw. }
  split; [apply get_twice|]. split.
  - intros s patterns.
    destruct (testMultiple_uncached newRegExp s patterns _ Hc) as (Hans & _).
    by rewrite Hans, Hw.
  - intros s patterns.
    destruct (afterGets_sound newRegExp true before) as [Hw' Hc'].
    by apply (testMultiple_cache newRegExp s patterns).
Qed.

Lemma cache_is_transparent_witness :
  (RegExpCache.testMultiple sampleEngine (JS.str "caab") [JS.str "a+"]
     (afterGets sampleEngine [JS.str "a+"; JS.str "("] (RegExpCache.new false))).1
  = Returns true.
Proof.
  rewrite (proj1 (proj2 (proj2 (cache_is_transparent sampleEngine false
             [JS.str "a+"; JS.str "("] (JS.str "a+")))) (JS.str "caab")
             [JS.str "a+"]).
  reflexivity.
Defined.

(** ** More on the archive writer *)

Section ArchiveMore.

Import Archive.

Lemma getImgExt_signature sig ext rest :
  (sig, ext) ∈ signatures -> getImgExt (sig ++ rest) = Returns ext.
Proof.
  unfold signatures. intros Hin.
  repeat (apply elem_of_cons in Hin as [[= -> ->]|Hin]; [reflexivity|]).
  by apply elem_of_nil in Hin.
Qed.

Lemma getImgExt_returns buffer ext :
  getImgExt buffer = Returns ext ->
  exists sig, (sig, ext) ∈ signatures /\ sig `prefix_of` buffer.
Proof.
  unfold getImgExt. rewrite magicMarkers_signatures. cbn [firstMarker].
  repeat match goal with
    | |- context [JS.startsWith ?fb (toHex ?sig)] =>
        let H := fresh "H" in
        destruct (JS.startsWith fb (toHex sig)) eqn:H;
        [ intros [= <-]; exists sig; split;
          [ unfold signatures; set_solver
          | apply marker_matches in H; [exact H | cbn; lia] ]
        | ]
    end.
  discriminate.
Qed.

Lemma getImgExt_extension buffer ext :
  getImgExt buffer = Returns ext -> ext ∈ extensions.
Proof.
  intros (sig & Hin & _)%getImgExt_returns. unfold signatures in Hin.
  unfold extensions.
  repeat (apply elem_of_cons in Hin as [[= -> ->]|Hin]; [set_solver|]).
  by apply elem_of_nil in Hin.
Qed.

End ArchiveMore.

(** X4.  [getImgExt] answers with an extension exactly when the bytes of
    the signature listed for that extension are the first bytes of the
    buffer, so the order in which the table is enumerated does not matter;
    it throws exactly when no signature of the table starts the buffer; and
    only the first eight bytes of the buffer are looked at. *)
Theorem getImgExt_characterized (buffer : list byte) :
  (forall ext,
      Archive.getImgExt buffer = Returns ext <->
      exists sig, (sig, ext) ∈ signatures /\ sig `prefix_of` buffer)
  /\ (Archive.getImgExt buffer = Throws (ThrownString (JS.str "Unknown image type."))
      <-> forall sig ext, (sig, ext) ∈ signatures -> ~ sig `prefix_of` buffer)
  /\ Archive.getImgExt buffer = Archive.getImgExt (take 8 buffer).
Proof.
  assert (forall ext,
      Archive.getImgExt buffer = Returns ext <->
      exists sig, (sig, ext) ∈ signatures /\ sig `prefix_of` buffer) as Hret.
  { intros ext. split; [apply getImgExt_returns|].
    intros (sig & Hin & [rest ->]). by apply getImgExt_signature. }
  split; [exact Hret|]. split.
  - split; [|apply getImgExt_unknown].
    intros Hthrow sig ext Hin Hpre.
    assert (Archive.getImgExt buffer = Returns ext) as H by (apply Hret; eauto).
    congruence.
  - unfold Archive.getImgExt. by rewrite take_take.
Qed.

(** X5.  A RIFF container is taken for WebP only when the form type [WEBP]
    comes directly after [RIFF]: with four bytes in between (where a RIFF
    file has its length field) the buffer is a WebP exactly when those four
    bytes are themselves [WEBP], and is an unknown type otherwise. *)
Theorem webp_tag_must_follow_riff (size rest : list byte) :
  length size = 4%nat ->
  (size = webpTag ->
   Archive.getImgExt (riff ++ size ++ webpTag ++ rest) = Returns (JS.str "webp"))
  /\ (size <> webpTag ->
      Archive.getImgExt (riff ++ size ++ webpTag ++ rest)
      = Throws (ThrownString (JS.str "Unknown image type."))).
Proof.
  intros Hlen.
  destruct size as [|a [|b [|c [|d [|]]]]]; try discriminate Hlen.
  split; intros Heq.
  - injection Heq as -> -> -> ->. reflexivity.
  - apply getImgExt_unknown. intros sig ext Hin Hpre. unfold signatures in Hin.
    repeat (apply elem_of_cons in Hin as [[= -> ->]|Hin];
            [ try (apply prefix_cons_inv_1 in Hpre; discriminate Hpre) | ]).
    + repeat (let H := fresh in
              pose proof (prefix_cons_inv_1 _ _ _ _ Hpre) as H;
              apply prefix_cons_inv_2 in Hpre; revert H).
      intros. apply Heq. unfold webpTag. congruence.
    + by apply elem_of_nil in Hin.
Qed.

Lemma webp_tag_must_follow_riff_witness :
  Archive.getImgExt
    (riff ++ [x24; x00; x00; x00] ++ webpTag ++ [x56; x50; x38; x20])
  = Throws (ThrownString (JS.str "Unknown image type.")).
Proof.
  apply (webp_tag_must_follow_riff [x24; x00; x00; x00] [x56; x50; x38; x20]
           eq_refl).
  discriminate.
Defined.

Section ArchiveFrame.

Import Archive.

Context (touched : nat -> Prop).

Lemma grows_refl st : growsExcept touched st st.
Proof. by repeat split. Qed.

Lemma grows_trans st1 st2 st3 :
  growsExcept touched st1 st2 -> growsExcept touched st2 st3 ->
  growsExcept touched st1 st3.
Proof.
  intros (Ha & Hd & Hf & Hh & Hc) (Ha' & Hd' & Hf' & Hh' & Hc').
  repeat split; [set_solver|set_solver|auto|auto|by etrans].
Qed.

Lemma grows_log msg st : growsExcept touched st (log msg st).
Proof. repeat split; try done. by apply prefix_app_r. Qed.

Lemma grows_debug env msg st : growsExcept touched st (debug env msg st).
Proof. unfold debug. destruct (DEBUG env); [apply grows_log|apply grows_refl]. Qed.

Lemma grows_writeEnsured env path data st :
  growsExcept touched st (writeEnsured env path data st).2.
Proof.
  assert (forall st0 : State,
            growsExcept touched st0
              {| archivedImages := archivedImages st0; heap := heap st0;
                 files := <[path := data]> (files st0);
                 dirs := dirs st0; console := console st0 |}) as Hwrite.
  { intros st0. repeat split; try done. intros p Hp. cbn.
    destruct (decide (path = p)) as [->|Hne];
      [by rewrite lookup_insert_eq | by rewrite lookup_insert_ne]. }
  unfold writeEnsured, ensureDirectory, mkdirSync, writeFileSync.
  destruct (isDirectory (dirname path) st) eqn:Hdir.
  - case_bool_decide; [apply grows_refl|]. rewrite Hdir. cbn [negb].
    destruct (writeError env path); [apply grows_refl|]. apply Hwrite.
  - destruct (existsb _ _); [apply grows_refl|].
    destruct (mkdirError env _); [apply grows_refl|].
    set (st1 := {| archivedImages := _; dirs := _ ∪ _ |}).
    assert (growsExcept touched st st1) as Hmk
      by (repeat split; try done; cbn; set_solver).
    case_bool_decide; [exact Hmk|].
    destruct (negb _); [exact Hmk|].
    destruct (writeError env path); [exact Hmk|].
    eapply grows_trans; [exact Hmk|]. apply (Hwrite st1).
Qed.

Lemma grows_addArchived id st : growsExcept touched st (addArchived id st).
Proof. repeat split; try done. cbn. set_solver. Qed.

Lemma grows_setHeap ref d st :
  touched ref -> growsExcept touched st (setHeap (<[ref := d]> (heap st)) st).
Proof.
  intros Ht. repeat split; try done. intros r d' Hr Hnt. cbn.
  rewrite lookup_insert_ne; [done|]. by intros <-.
Qed.

End ArchiveFrame.

Lemma grows_untouched (touched touched' : nat -> Prop) st st' :
  (forall ref, touched ref -> touched' ref \/ Archive.heap st !! ref = None) ->
  growsExcept touched st st' -> growsExcept touched' st st'.
Proof.
  intros Hsub (Ha & Hd & Hf & Hh & Hc). repeat split; try done.
  intros ref d Hr Hnt. apply Hh; [done|].
  intros [?|Hnone]%Hsub; [done|congruence].
Qed.

Ltac grows_chain :=
  repeat first
    [ apply grows_refl
    | eapply grows_trans;
      [ | first [ eassumption | apply grows_log | apply grows_debug
                | apply grows_addArchived
                | apply grows_setHeap; reflexivity ] ] ].

(** The two writes at the end of [archiveImage], each with what it leaves
    behind. *)
Ltac grows_writes :=
  repeat match goal with
    | |- growsExcept ?T _ _ =>
        match goal with
        | |- context [Archive.writeEnsured ?env ?p ?c ?s] =>
            let Hw := fresh "Hw" in
            pose proof (grows_writeEnsured T env p c s) as Hw;
            destruct (Archive.writeEnsured env p c s) as [[[]|?] ?];
            cbn [snd] in Hw
        | |- context [Archive.SKIP_RECORD ?env] =>
            destruct (Archive.SKIP_RECORD env)
        end
    end.

(** X6.  Whatever its arguments and however it ends, [archiveImage] only
    adds: no id leaves the index, no directory and no file disappears, the
    console keeps what it had printed, and the only object of the caller it
    writes into is the [details] object it was given. *)
Theorem archiveImage_only_adds (env : Archive.Env) (id0 : option (list N))
    (details0 : option nat) (imgData : list byte) (st : Archive.State) :
  growsExcept (fun ref => details0 = Some ref) st
    (Archive.archiveImage env id0 details0 imgData st).2.
Proof.
  unfold Archive.archiveImage. case_bool_decide; [apply grows_refl|].
  destruct details0 as [r|].
  - destruct (length imgData =? 0)%nat.
    { cbn [snd]. destruct (Archive.falsy id0); grows_chain. }
    destruct (Archive.getImgExt imgData), (Archive.falsy id0);
      grows_writes; cbn [snd]; grows_chain.
  - cbn zeta beta iota.
    set (st1 := if Archive.falsy id0 then _ else st).
    assert (Archive.heap st1 = Archive.heap st) as Hh1
      by (subst st1; destruct (Archive.falsy id0); [apply debug_frame|done]).
    assert (forall touched, growsExcept touched st st1)
      as Hg1 by (intros; subst st1; destruct (Archive.falsy id0); grows_chain).
    clearbody st1.
    set (st2 := Archive.debug env _ st1).
    assert (Archive.heap st2 = Archive.heap st) as Hh2
      by (subst st2; rewrite <- Hh1; apply debug_frame).
    assert (forall touched, growsExcept touched st st2)
      as Hg2 by (intros; subst st2; grows_chain; apply Hg1).
    clearbody st2.
    eapply (grows_untouched (fun ref => ref = fresh (dom (Archive.heap st2)))).
    { intros ref ->. right. rewrite Hh2. apply not_elem_of_dom, is_fresh. }
    destruct (length imgData =? 0)%nat;
      [|destruct (Archive.getImgExt imgData)];
      grows_writes; cbn [snd]; grows_chain; apply Hg2.
Qed.

Section ArchiveOutcome.

Import Archive.


Lemma dirname_cons_nonempty c rest :
  JS.ch "/" ∈ rest -> dirname (c :: rest) <> [].
Proof.
  intros Hin. cbn [dirname].
  assert (existsb (N.eqb (JS.ch "/")) rest = true) as ->; [|done].
  apply existsb_exists. exists (JS.ch "/"). split; [|apply N.eqb_refl].
  by apply list_elem_of_In.
Qed.

Lemma dirname_under root sub rest :
  JS.ch "/" ∈ sub -> dirname (root ++ JS.ch "/" :: sub ++ rest) <> [].
Proof.
  intros Hin. destruct root as [|c root]; cbn [app].
  - apply dirname_cons_nonempty. set_solver.
  - apply dirname_cons_nonempty. set_solver.
Qed.

Lemma imgPath_dirname env id prompt unixTime ext :
  dirname (imgPath env id prompt unixTime ext) <> [].
Proof.
  unfold imgPath.
  change (JS.str "/images/") with (JS.ch "/" :: JS.str "images/").
  cbn [app]. apply dirname_under.
  change (JS.str "images/") with (JS.str "images" ++ [JS.ch "/"]). set_solver.
Qed.

Lemma recPath_dirname env id unixTime :
  dirname (recPath env id unixTime) <> [].
Proof.
  unfold recPath.
  change (JS.str "/database/") with (JS.ch "/" :: JS.str "database/").
  cbn [app]. apply dirname_under.
  change (JS.str "database/") with (JS.str "database" ++ [JS.ch "/"]). set_solver.
Qed.

Lemma imgPath_recPath env id id' prompt unixTime unixTime' ext :
  imgPath env id prompt unixTime ext <> recPath env id' unixTime'.
Proof.
  unfold imgPath, recPath. intros Heq. apply app_inv_head in Heq.
  change (JS.str "/images/") with (JS.ch "/" :: JS.ch "i" :: JS.str "mages/") in Heq.
  change (JS.str "/database/")
    with (JS.ch "/" :: JS.ch "d" :: JS.str "atabase/") in Heq.
  cbn [app] in Heq. injection Heq as Hc _. vm_compute in Hc. discriminate Hc.
Qed.

End ArchiveOutcome.



(** X8.  The two errors of [archiveImage] differ in what they leave behind
    in the caller's [details] object.  The zero-length error is thrown
    before the object is written: the objects are all as they were.  The
    unknown-type error is thrown after: the object already holds the id, the
    prompt and the time, and the line announcing the archiving is the last
    one printed, although nothing was archived. *)
Theorem errors_before_and_after_update (env : Archive.Env) (st : Archive.State)
    (id0 : option (list N)) (ref : nat) (old : Archive.details)
    (imgData : list byte) :
  Archive.toStr id0 ∉ Archive.archivedImages st ->
  Archive.heap st !! ref = Some old ->
  let r := Archive.archiveImage env id0 (Some ref) imgData st in
  (imgData = [] -> Archive.heap r.2 = Archive.heap st)
  /\ (forall e, imgData <> [] -> Archive.getImgExt imgData = Throws e ->
        r.1 = Throws e
        /\ Archive.heap r.2 = <[ref := completed env id0 old]> (Archive.heap st)
        /\ last (Archive.console r.2) =
             Some (Archive.Stamped
                     (JS.str "Archiving: " ++ Archive.effectiveId env id0
                      ++ JS.str " - "
                      ++ default (JS.str "[unknown prompt]") (Archive.prompt old)))).
Proof.
  intros Hnew Hold r. subst r. unfold Archive.archiveImage.
  rewrite bool_decide_eq_false_2 by done.
  set (st1 := if Archive.falsy id0 then _ else st).
  assert (Archive.heap st1 = Archive.heap st) as Hh1
    by (subst st1; destruct (Archive.falsy id0); [apply debug_frame|done]).
  clearbody st1. cbn zeta beta iota. split.
  - intros ->. done.
  - intros e Hne Hext.
    destruct imgData as [|b imgData]; [done|]. cbn [length Nat.eqb].
    rewrite Hext, Hh1, Hold. cbn [fst snd default].
    split; [done|]. split; [done|].
    cbn [Archive.console Archive.log]. by rewrite last_snoc.
Qed.

Lemma errors_before_and_after_update_witness :
  let st := {| Archive.archivedImages := ∅;
               Archive.heap := {[ 0%nat := Archive.emptyDetails ]};
               Archive.files := ∅; Archive.dirs := ∅; Archive.console := [] |} in
  Archive.heap (Archive.archiveImage sampleEnv (Some (JS.str "42")) (Some 0%nat) [] st).2
  = Archive.heap st.
Proof.
  intros st.
  assert (Archive.toStr (Some (JS.str "42")) ∉ Archive.archivedImages st)
    as Hnew by (cbn; set_solver).
  exact (proj1 (errors_before_and_after_update sampleEnv st (Some (JS.str "42"))
                  0%nat Archive.emptyDetails [] Hnew eq_refl) eq_refl).
Defined.

(** X9.  What a returning call has stored can be read back: the artifact
    file holds the payload byte for byte (the record, written after it,
    goes to another path and does not overwrite it), its directory exists,
    and unless SKIP_RECORD is set the record file holds the serialisation of
    the very object left in the caller's hands, its directory exists, and
    the id is in the index. *)
Theorem archived_files_read_back (env : Archive.Env) (st st' : Archive.State)
    (id0 : option (list N)) (details0 : option nat) (imgData : list byte) :
  Archive.toStr id0 ∉ Archive.archivedImages st ->
  Archive.archiveImage env id0 details0 imgData st = (Returns (), st') ->
  exists ref thePrompt theTime ext,
    let id1 := Archive.effectiveId env id0 in
    let d := {| Archive.id := Some id1; Archive.prompt := Some thePrompt;
                Archive.unixTime := Some theTime |} in
    let img := Archive.imgPath env id1 thePrompt theTime ext in
    let rec := Archive.recPath env id1 theTime in
    Archive.heap st' !! ref = Some d
    /\ Archive.getImgExt imgData = Returns ext
    /\ Archive.files st' !! img = Some (Archive.Binary imgData)
    /\ Archive.dirname img ∈ Archive.dirs st'
    /\ (Archive.SKIP_RECORD env = false ->
        Archive.files st' !! rec = Some (Archive.Text (Archive.stringify env d))
        /\ Archive.dirname rec ∈ Archive.dirs st'
        /\ id1 ∈ Archive.archivedImages st').
Proof.
  intros Hnew Hret.
  destruct (archiveImage_unfolds _ _ _ _ _ _ Hnew Hret)
    as (ref & old & ext & stA & stB
        & Hold & Hext & _ & HiA & HfA & _ & HhA & Hw1 & Hrest).
  cbn zeta in *.
  apply writeEnsured_returns in Hw1 as (Hi1 & Hh1 & _ & Hf1 & Hsub1 & Hdir1 & _).
  specialize (Hdir1 (imgPath_dirname _ _ _ _ _)).
  exists ref, (default (JS.str "[unknown prompt]") (Archive.prompt old)),
    (default (Z.quot (Archive.now env) 1000) (Archive.unixTime old)), ext.
  cbn zeta. destruct (Archive.SKIP_RECORD env).
  - subst st'. split_and!; try done.
    + by rewrite Hh1, HhA, lookup_insert_eq.
    + by rewrite Hf1, lookup_insert_eq.
  - destruct Hrest as (stC & Hw2 & ->).
    apply writeEnsured_returns in Hw2 as (Hi2 & Hh2 & _ & Hf2 & Hsub2 & Hdir2 & _).
    specialize (Hdir2 (recPath_dirname _ _ _)).
    cbn [Archive.addArchived Archive.heap Archive.files Archive.dirs
         Archive.archivedImages].
    split_and!; try done.
    + by rewrite Hh2, Hh1, HhA, lookup_insert_eq.
    + rewrite Hf2, lookup_insert_ne, Hf1, lookup_insert_eq; [done|].
      intros Heq. symmetry in Heq. by apply imgPath_recPath in Heq.
    + by apply Hsub2.
    + intros _. split_and!; [by rewrite Hf2, lookup_insert_eq|done|set_solver].
Qed.

Lemma archived_files_read_back_witness :
  let st' := (Archive.archiveImage sampleEnv (Some (JS.str "42")) None
                [x42; x4d] emptyArchive).2 in
  exists path, Archive.files st' !! path = Some (Archive.Binary [x42; x4d]).
Proof.
  intros st'.
  assert (Archive.toStr (Some (JS.str "42")) ∉ Archive.archivedImages emptyArchive)
    as Hnew by (cbn; set_solver).
  assert (Archive.archiveImage sampleEnv (Some (JS.str "42")) None [x42; x4d]
            emptyArchive = (Returns (), st')) as Hret by (by vm_compute).
  destruct (archived_files_read_back sampleEnv emptyArchive st'
              (Some (JS.str "42")) None [x42; x4d] Hnew Hret)
    as (ref & thePrompt & theTime & ext & _ & _ & Hfile & _).
  eexists. exact Hfile.
Defined.

(** ** The scan of the database directory *)

Section ScanProofs.

Import Scan.

Context (readdir : readdirSync).

Lemma pop_snoc {A} (a : list A) (x : A) : pop (a ++ [x]) = Some (x, a).
Proof. induction a as [|y a IH]; [done|]. cbn. by rewrite IH. Qed.

Lemma visit_all path entries dirsToScan ids :
  foldl (visit path) (dirsToScan, ids) entries
  = (dirsToScan ++ subdirs path entries, ids ∪ recordIds entries).
Proof.
  revert dirsToScan ids.
  induction entries as [|e entries IH]; intros dirsToScan ids.
  - cbn. f_equal; [by rewrite app_nil_r|]. unfold recordIds. cbn. set_solver.
  - cbn [foldl visit]. unfold subdirs, recordIds.
    destruct (isDirectory e) eqn:Hdir.
    + rewrite IH.
      rewrite (filter_cons_True (fun e => isDirectory e = true)) by done.
      rewrite filter_cons_False by (rewrite Hdir; intros [? _]; done).
      cbn [fmap list_fmap]. f_equal. by rewrite <- app_assoc.
    + rewrite (filter_cons_False (fun e => isDirectory e = true))
        by (by rewrite Hdir).
      destruct (JS.endsWith (name e) (JS.str ".json")) eqn:Hjson; rewrite IH.
      * rewrite filter_cons_True by done. f_equal. unfold recordIds. cbn.
        set_solver.
      * rewrite filter_cons_False by (rewrite Hjson; intros [_ ?]; done).
        done.
Qed.

Lemma subdirs_nonempty path entries :
  Forall (fun p => p <> []) (subdirs path entries).
Proof.
  unfold subdirs. apply Forall_fmap, Forall_forall. intros e _. cbn.
  change (JS.str "/") with [JS.ch "/"]. by destruct path.
Qed.

Lemma sum_list_with_ext {A} (f g : A -> nat) (l : list A) :
  Forall (fun x => f x = g x) l -> sum_list_with f l = sum_list_with g l.
Proof. induction 1 as [|x l Hx _ IH]; [done|]. cbn. by rewrite Hx, IH. Qed.

Lemma listable_S depth path :
  listable readdir (S depth) path =
  match readdir path with
  | Returns entries => forallb (listable readdir depth) (subdirs path entries)
  | Throws _ => false
  end.
Proof. reflexivity. Qed.

Lemma dirCount_S depth path :
  dirCount readdir (S depth) path =
  match readdir path with
  | Returns entries => S (sum_list_with (dirCount readdir depth) (subdirs path entries))
  | Throws _ => 0%nat
  end.
Proof. reflexivity. Qed.

Lemma idsUnder_S depth path :
  idsUnder readdir (S depth) path =
  match readdir path with
  | Returns entries =>
      recordIds entries ∪ ⋃ (idsUnder readdir depth <$> subdirs path entries)
  | Throws _ => ∅
  end.
Proof. reflexivity. Qed.

Lemma listable_deeper depth path :
  listable readdir depth path = true ->
  listable readdir (S depth) path = true
  /\ dirCount readdir (S depth) path = dirCount readdir depth path
  /\ idsUnder readdir (S depth) path = idsUnder readdir depth path.
Proof.
  revert path. induction depth as [|depth IH]; intros path Hl; [done|].
  rewrite (listable_S (S depth)), (dirCount_S (S depth)), (idsUnder_S (S depth)).
  rewrite (dirCount_S depth), (idsUnder_S depth).
  rewrite listable_S in Hl.
  destruct (readdir path) as [entries|]; [|done].
  rewrite forallb_forall in Hl.
  assert (Forall (fun sub =>
     listable readdir (S depth) sub = true
     /\ dirCount readdir (S depth) sub = dirCount readdir depth sub
     /\ idsUnder readdir (S depth) sub = idsUnder readdir depth sub)
     (subdirs path entries)) as Hsub.
  { apply Forall_forall. intros sub Hin. apply IH, Hl. by apply list_elem_of_In. }
  split; [|split].
  - apply forallb_forall. intros sub Hin%list_elem_of_In.
    rewrite Forall_forall in Hsub. by apply Hsub.
  - f_equal. apply sum_list_with_ext. eapply Forall_impl; [exact Hsub|].
    by intros sub (_ & ? & _).
  - do 2 f_equal. apply Forall_fmap_ext_1. eapply Forall_impl; [exact Hsub|].
    by intros sub (_ & _ & ?).
Qed.

Lemma scan_stack depth :
  forall n dirsToScan ids fuel,
    Forall (fun p => p <> [] /\ listable readdir depth p = true) dirsToScan ->
    sum_list_with (dirCount readdir depth) dirsToScan = n ->
    (n < fuel)%nat ->
    scan fuel readdir dirsToScan ids
    = Some (Returns (), ids ∪ ⋃ (idsUnder readdir depth <$> dirsToScan)).
Proof.
  induction n as [n IHn] using lt_wf_ind.
  intros dirsToScan ids fuel Hall Hsum Hfuel.
  destruct fuel as [|fuel]; [lia|]. cbn [scan].
  destruct dirsToScan as [|p0 rest0] using rev_ind.
  { cbn. do 2 f_equal. set_solver. }
  clear IHrest0. rewrite pop_snoc.
  apply Forall_app in Hall as [Hrest Hp]. apply Forall_singleton in Hp as [Hne Hl].
  destruct p0 as [|c p0]; [done|]. set (path := c :: p0) in *. clearbody path.
  rewrite sum_list_with_app in Hsum. cbn [sum_list_with] in Hsum.
  rewrite fmap_app, union_list_app_L. cbn [fmap list_fmap union_list foldr].
  destruct depth as [|depth']; [done|].
  rewrite listable_S in Hl. rewrite dirCount_S in Hsum. rewrite idsUnder_S.
  destruct (readdir path) as [entries|]; [|done].
  rewrite visit_all.
  assert (Forall (fun sub => listable readdir depth' sub = true)
            (subdirs path entries)) as Hsubs.
  { apply Forall_forall. intros sub Hin. rewrite forallb_forall in Hl.
    by apply Hl, list_elem_of_In. }
  assert (Forall (fun sub => sub <> [] /\ listable readdir (S depth') sub = true
                  /\ dirCount readdir (S depth') sub = dirCount readdir depth' sub
                  /\ idsUnder readdir (S depth') sub = idsUnder readdir depth' sub)
            (subdirs path entries)) as Hdeep.
  { pose proof (subdirs_nonempty path entries) as Hnes.
    apply Forall_forall. intros sub Hin.
    rewrite Forall_forall in Hsubs, Hnes.
    split; [by apply Hnes|]. by apply listable_deeper, Hsubs. }
  assert (sum_list_with (dirCount readdir (S depth')) (subdirs path entries)
          = sum_list_with (dirCount readdir depth') (subdirs path entries)) as Hcount.
  { apply sum_list_with_ext. eapply Forall_impl; [exact Hdeep|].
    by intros sub (_ & _ & ? & _). }
  assert (idsUnder readdir (S depth') <$> subdirs path entries
          = idsUnder readdir depth' <$> subdirs path entries) as Hids.
  { apply Forall_fmap_ext_1. eapply Forall_impl; [exact Hdeep|].
    by intros sub (_ & _ & _ & ?). }
  erewrite (IHn (sum_list_with (dirCount readdir (S depth')) (rest0 ++ subdirs path entries))).
  - f_equal. f_equal. rewrite fmap_app, union_list_app_L, Hids. set_solver.
  - rewrite sum_list_with_app, Hcount. lia.
  - apply Forall_app. split; [done|].
    eapply Forall_impl; [exact Hdeep|]. by intros sub (? & ? & _).
  - reflexivity.
  - rewrite sum_list_with_app, Hcount. lia.
Qed.

End ScanProofs.

(** X10.  When every directory under the database directory can be listed
    and the tree is finite, the scan ends without an error once it has
    fuel for one round per directory, and the index then holds what it held
    before together with the id of every record file of the tree, a record
    file being an entry that is not a directory and whose name ends in
    [.json], and its id the name without these five characters. *)
Theorem scan_finds_all_records (archivePath : list N)
    (readdir : Scan.readdirSync) (archivedImages : gset (list N))
    (depth fuel : nat) :
  listable readdir depth (archivePath ++ JS.str "/database") = true ->
  (dirCount readdir depth (archivePath ++ JS.str "/database") < fuel)%nat ->
  Scan.detectArchivedImages fuel archivePath readdir archivedImages
  = Some (Returns (),
          archivedImages
          ∪ idsUnder readdir depth (archivePath ++ JS.str "/database")).
Proof.
  intros Hl Hfuel. unfold Scan.detectArchivedImages.
  erewrite scan_stack with (depth := depth); [| |reflexivity|].
  - do 2 f_equal. cbn. set_solver.
  - apply Forall_singleton. split; [|done].
    change (JS.str "/database") with (JS.ch "/" :: JS.str "database").
    by destruct archivePath.
  - cbn. lia.
Qed.

Lemma scan_finds_all_records_witness :
  Scan.detectArchivedImages 3 (JS.str "/archive") sampleTree ∅
  = Some (Returns (),
          ∅ ∪ idsUnder sampleTree 2 (JS.str "/archive" ++ JS.str "/database")).
Proof.
  apply (scan_finds_all_records (JS.str "/archive") sampleTree ∅ 2 3).
  - reflexivity.
  - vm_compute. lia.
Defined.

(** X11.  However a scan ends, no id has left the index, and an error it
    ends with is one that [readdirSync] has thrown for some path: the scan
    has no error of its own. *)
Theorem scan_only_adds (fuel : nat) (readdir : Scan.readdirSync)
    (dirsToScan : list (list N)) (archivedImages archivedImages' : gset (list N))
    (outcome : completion unit) :
  Scan.scan fuel readdir dirsToScan archivedImages
  = Some (outcome, archivedImages') ->
  archivedImages ⊆ archivedImages'
  /\ forall e, outcome = Throws e -> exists path, readdir path = Throws e.
Proof.
  revert dirsToScan archivedImages.
  induction fuel as [|fuel IH]; intros dirsToScan ids Hscan; [done|].
  cbn [Scan.scan] in Hscan.
  destruct (Scan.pop dirsToScan) as [[[|c path] rest]|].
  - injection Hscan as <- <-. split; [done|]. intros e. discriminate.
  - destruct (readdir (c :: path)) as [entries|e0] eqn:Hread.
    + rewrite visit_all in Hscan. apply IH in Hscan as [Hsub Hthrow].
      split; [set_solver|done].
    + injection Hscan as <- <-. split; [done|].
      intros e [= <-]. eauto.
  - injection Hscan as <- <-. split; [done|]. intros e. discriminate.
Qed.

Lemma scan_only_adds_witness :
  exists archivedImages',
    Scan.scan 3 sampleTree [JS.str "/archive/database"] {[ JS.str "old" ]}
    = Some (Returns (), archivedImages')
    /\ ({[ JS.str "old" ]} : gset (list N)) ⊆ archivedImages'.
Proof.
  eexists. split; [vm_compute; reflexivity|].
  exact (proj1 (scan_only_adds 3 sampleTree [JS.str "/archive/database"]
                  {[ JS.str "old" ]} _ (Returns ()) eq_refl)).
Defined.

(** ** The command line and the configuration file *)

Section CliProofs.

Import Cli.

Lemma get_set title t v m :
  get title (set t v m) = if bool_decide (t = title) then Some v else get title m.
Proof.
  induction m as [|[t' v'] m IH]; cbn.
  - done.
  - destruct (decide (t' = t)) as [->|Hne].
    + rewrite bool_decide_eq_true_2 by done. cbn.
      by destruct (decide (t = title));
        [rewrite !bool_decide_eq_true_2|rewrite !bool_decide_eq_false_2].
    + rewrite (bool_decide_eq_false_2 (t' = t)) by done. cbn. rewrite IH.
      destruct (decide (t' = title)) as [->|Hne'].
      * rewrite bool_decide_eq_true_2 by done.
        by rewrite (bool_decide_eq_false_2 (t = title)).
      * by rewrite (bool_decide_eq_false_2 (t' = title)).
Qed.

Lemma keys_set title t v m :
  title ∈ (set t v m).*1 <-> title = t \/ title ∈ m.*1.
Proof.
  induction m as [|[t' v'] m IH]; cbn.
  - set_solver.
  - case_bool_decide; cbn; set_solver.
Qed.

Lemma NoDup_set t v m : NoDup m.*1 -> NoDup (set t v m).*1.
Proof.
  induction m as [|[t' v'] m IH]; cbn; intros Hnd.
  - apply NoDup_singleton.
  - apply NoDup_cons in Hnd as [Hnin Hnd].
    case_bool_decide; cbn.
    + subst. by apply NoDup_cons.
    + apply NoDup_cons. split; [|by apply IH].
      rewrite keys_set. intros [->|?]; done.
Qed.

Lemma parse_fold_get title arguments m :
  get title (foldl parseStep m arguments)
  = match last (filter (fun e => e.1 = title) (parseArg <$> arguments)) with
    | Some e => Some e.2
    | None => get title m
    end.
Proof.
  revert m. induction arguments as [|arg arguments IH]; intros m; [done|].
  cbn [foldl fmap list_fmap]. rewrite IH. unfold parseStep.
  destruct (parseArg arg) as [t v] eqn:Harg. rewrite get_set.
  destruct (decide (t = title)) as [->|Hne].
  - rewrite filter_cons_True by done. rewrite bool_decide_eq_true_2 by done.
    by destruct (filter _ _) as [|e l] using rev_ind;
      [|rewrite app_comm_cons, !last_snoc].
  - rewrite filter_cons_False by done. by rewrite bool_decide_eq_false_2.
Qed.

Lemma parse_fold_NoDup arguments m :
  NoDup m.*1 -> NoDup (foldl parseStep m arguments).*1.
Proof.
  revert m. induction arguments as [|arg arguments IH]; intros m Hnd; [done|].
  cbn [foldl]. apply IH. unfold parseStep. destruct (parseArg arg).
  by apply NoDup_set.
Qed.

Lemma indexOf_first c s1 s2 :
  c ∉ s1 -> indexOf c (s1 ++ c :: s2) = Some (length s1).
Proof.
  induction s1 as [|d s1 IH]; intros Hnin; cbn.
  - by rewrite N.eqb_refl.
  - apply not_elem_of_cons in Hnin as [Hne Hnin].
    destruct (N.eqb_spec d c) as [->|_]; [done|]. by rewrite IH.
Qed.

Lemma indexOf_none c s : c ∉ s -> indexOf c s = None.
Proof.
  induction s as [|d s IH]; intros Hnin; cbn; [done|].
  apply not_elem_of_cons in Hnin as [Hne Hnin].
  destruct (N.eqb_spec d c) as [->|_]; [done|]. by rewrite IH.
Qed.

Lemma drop_past {A} (s1 : list A) c s2 :
  drop (S (length s1)) (s1 ++ c :: s2) = s2.
Proof. by induction s1. Qed.

End CliProofs.

(** X12.  The map [parseCliArgs] builds has one entry for each title; the
    value it holds for a title is the one of the last argument with that
    title (the first two elements of [process.argv] are no arguments), and
    it has no entry for a title no argument has. *)
Theorem parseCliArgs_last_wins (argv : list (list N)) (title : list N) :
  Cli.get title (Cli.parseCliArgs argv)
  = snd <$> last (filter (fun e => e.1 = title) (Cli.parseArg <$> drop 2 argv))
  /\ NoDup (Cli.parseCliArgs argv).*1.
Proof.
  split.
  - unfold Cli.parseCliArgs.
    change (foldl _ [] (drop 2 argv)) with (foldl parseStep [] (drop 2 argv)).
    rewrite parse_fold_get. by destruct (last _).
  - apply (parse_fold_NoDup (drop 2 argv) []). constructor.
Qed.

(** X13.  An argument is cut at its first equals sign: what is before is
    the title, what is after is the value, from which one pair of
    enclosing apostrophes or of enclosing double quotes is taken off (a
    value that is a lone quote becomes empty); an argument without an
    equals sign is a title with the value [undefined]. *)
Theorem parseArg_splits (title : list N) :
  JS.ch "=" ∉ title ->
  Cli.parseArg title = (title, None)
  /\ (forall value, Cli.wrappedIn value [Cli.apostrophe; Cli.doubleQuote] = None ->
        Cli.parseArg (title ++ JS.str "=" ++ value) = (title, Some value))
  /\ (forall q inner, q = Cli.apostrophe \/ q = Cli.doubleQuote ->
        Cli.parseArg (title ++ JS.str "=" ++ [q] ++ inner ++ [q])
        = (title, Some inner)
        /\ Cli.parseArg (title ++ JS.str "=" ++ [q]) = (title, Some [])).
Proof.
  intros Hnin. change (JS.str "=") with [JS.ch "="]. split; [|split].
  - unfold Cli.parseArg. by rewrite indexOf_none.
  - intros value Hw. unfold Cli.parseArg. cbn [app].
    rewrite indexOf_first by done.
    rewrite take_app_length, drop_past. by rewrite Hw.
  - intros q inner Hq.
    assert (forall s, Cli.wrappedIn (q :: s ++ [q]) [Cli.apostrophe; Cli.doubleQuote]
                      <> None) as Hwrapped.
    { intros s. unfold Cli.wrappedIn, JS.endsWith.
      rewrite app_comm_cons, reverse_snoc. cbn [find JS.startsWith reverse].
      destruct Hq as [-> | ->]; by vm_compute. }
    assert (Cli.wrappedIn [q] [Cli.apostrophe; Cli.doubleQuote] <> None) as Hlone.
    { destruct Hq as [-> | ->]; by vm_compute. }
    unfold Cli.parseArg. cbn [app]. rewrite !indexOf_first by done.
    rewrite !take_app_length.
    split.
    + rewrite drop_past.
      destruct (Cli.wrappedIn (q :: inner ++ [q]) _) eqn:Hw;
        [|by apply Hwrapped in Hw].
      do 2 f_equal. unfold Cli.slice1.
      replace (length (q :: inner ++ [q]) - 2)%nat with (length inner)
        by (cbn [length]; rewrite length_app; cbn [length]; lia).
      change (drop 1 (q :: inner ++ [q])) with (inner ++ [q]).
      by rewrite take_app_length.
    + rewrite drop_past.
      destruct (Cli.wrappedIn [q] _) eqn:Hw; [|by destruct Hlone].
      done.
Qed.

Lemma parseArg_splits_witness :
  Cli.parseArg (JS.str "--webSocketDebuggerUrl" ++ JS.str "="
                ++ [Cli.apostrophe] ++ JS.str "ws://x?a=b" ++ [Cli.apostrophe])
  = (JS.str "--webSocketDebuggerUrl", Some (JS.str "ws://x?a=b")).
Proof.
  refine (proj1 (proj2 (proj2 (parseArg_splits (JS.str "--webSocketDebuggerUrl") _))
                   Cli.apostrophe (JS.str "ws://x?a=b") (or_introl eq_refl))).
  vm_compute. not_in_list.
Defined.

Section CliSwitch.

Import Cli.

Context (env : Env).

Lemma commands_cons title value entries cfg :
  commands env ((title, value) :: entries) cfg =
  if bool_decide (title ∈ [JS.str "-h"; JS.str "--help"])
  then ([LogInfo [LString (usage env)]], Exited)
  else if bool_decide (title ∈ [JS.str "-v"; JS.str "-V"; JS.str "--version"])
  then ([], Exited)
  else if bool_decide (title = JS.str "--webSocketDebuggerUrl")
  then commands env entries (<[JS.str "webSocketDebuggerUrl" := toValue value]> cfg)
  else if bool_decide (title = JS.str "--printWebSocketDebuggerUrl")
  then commands env entries (<[JS.str "printWebSocketDebuggerUrl" := VBool true]> cfg)
  else ([], Raised ReferenceErrorCmd).
Proof.
  cbn [commands].
  destruct (decide (title = JS.str "-h")) as [->|H1]; [done|].
  destruct (decide (title = JS.str "--help")) as [->|H2]; [done|].
  rewrite (bool_decide_eq_false_2 (title = JS.str "-h")) by done.
  rewrite (bool_decide_eq_false_2 (title = JS.str "--help")) by done.
  rewrite (bool_decide_eq_false_2 (title ∈ [JS.str "-h"; JS.str "--help"]))
    by set_solver.
  cbn [orb].
  destruct (decide (title = JS.str "-v")) as [->|H3]; [done|].
  destruct (decide (title = JS.str "-V")) as [->|H4]; [done|].
  destruct (decide (title = JS.str "--version")) as [->|H5]; [done|].
  rewrite (bool_decide_eq_false_2 (title = JS.str "-v")) by done.
  rewrite (bool_decide_eq_false_2 (title = JS.str "-V")) by done.
  rewrite (bool_decide_eq_false_2 (title = JS.str "--version")) by done.
  rewrite (bool_decide_eq_false_2
             (title ∈ [JS.str "-v"; JS.str "-V"; JS.str "--version"]))
    by set_solver.
  done.
Qed.

Lemma accepted_not_exiting title : title ∈ accepted -> title ∉ exiting.
Proof.
  unfold accepted, exiting. intros Hin Hex.
  repeat (apply elem_of_cons in Hin as [->|Hin]);
    try (by apply elem_of_nil in Hin);
    repeat (apply elem_of_cons in Hex as [Hex|Hex]; [by vm_compute in Hex|]);
    by apply elem_of_nil in Hex.
Qed.

Lemma exiting_split title :
  title ∉ exiting ->
  (title ∉ [JS.str "-h"; JS.str "--help"])
  /\ (title ∉ [JS.str "-v"; JS.str "-V"; JS.str "--version"]).
Proof. unfold exiting. set_solver. Qed.

Lemma commands_accepted title value entries cfg :
  title ∈ accepted ->
  exists cfg', commands env ((title, value) :: entries) cfg
               = commands env entries cfg'.
Proof.
  intros Hin. rewrite commands_cons.
  destruct (exiting_split title (accepted_not_exiting _ Hin)) as [Hh Hv].
  rewrite (bool_decide_eq_false_2 _ Hh), (bool_decide_eq_false_2 _ Hv).
  unfold accepted in Hin.
  apply elem_of_cons in Hin as [->|Hin]; [by eexists|].
  apply list_elem_of_singleton in Hin as ->.
  rewrite bool_decide_eq_false_2 by (by vm_compute).
  rewrite bool_decide_eq_true_2 by done. by eexists.
Qed.

Lemma commands_returned entries cfg :
  (exists cfg', (commands env entries cfg).2 = Returned cfg')
  <-> Forall (fun e => e.1 ∈ accepted) entries.
Proof.
  revert cfg. induction entries as [|[title value] entries IH]; intros cfg.
  - split; [by constructor|]. intros _. by exists cfg.
  - destruct (decide (title ∈ accepted)) as [Hin|Hnin].
    + destruct (commands_accepted title value entries cfg Hin) as [cfg1 ->].
      rewrite IH. split; [by constructor|]. by inversion 1.
    + split.
      * intros [cfg' Hret]. exfalso. rewrite commands_cons in Hret.
        unfold accepted in Hnin.
        repeat case_bool_decide; try discriminate Hret; set_solver.
      * inversion 1; by subst.
Qed.

Lemma commands_unknown title value rest cfg :
  title ∉ accepted -> title ∉ exiting ->
  commands env ((title, value) :: rest) cfg = ([], Raised ReferenceErrorCmd).
Proof.
  intros Hnin Hne. rewrite commands_cons.
  destruct (exiting_split title Hne) as [Hh Hv].
  rewrite (bool_decide_eq_false_2 _ Hh), (bool_decide_eq_false_2 _ Hv).
  unfold accepted in Hnin.
  rewrite !bool_decide_eq_false_2 by set_solver. done.
Qed.

Lemma commands_reference before title value rest cfg :
  Forall (fun e => e.1 ∉ exiting) before ->
  title ∉ accepted -> title ∉ exiting ->
  commands env (before ++ (title, value) :: rest) cfg
  = ([], Raised ReferenceErrorCmd).
Proof.
  intros Hall Hnin Hne. revert cfg.
  induction before as [|[t v] before IH]; intros cfg; cbn [app].
  - by apply commands_unknown.
  - apply Forall_cons in Hall as [Ht Hall]. cbn [fst] in Ht.
    destruct (decide (t ∈ accepted)) as [Hin|Hout].
    + destruct (commands_accepted t v (before ++ (title, value) :: rest) cfg Hin)
        as [cfg1 ->].
      by apply IH.
    + by apply commands_unknown.
Qed.

Lemma commands_exit before title value rest cfg :
  Forall (fun e => e.1 ∈ accepted) before ->
  title ∈ exiting ->
  commands env (before ++ (title, value) :: rest) cfg
  = (if bool_decide (title ∈ [JS.str "-h"; JS.str "--help"])
     then [LogInfo [LString (usage env)]] else [],
     Exited).
Proof.
  intros Hall Hex. revert cfg.
  induction before as [|[t v] before IH]; intros cfg; cbn [app].
  - rewrite commands_cons. case_bool_decide; [done|].
    rewrite bool_decide_eq_true_2; [done|]. unfold exiting in Hex. set_solver.
  - apply Forall_cons in Hall as [Ht Hall]. cbn [fst] in Ht.
    destruct (commands_accepted t v (before ++ (title, value) :: rest) cfg Ht)
      as [cfg1 ->].
    by apply IH.
Qed.

Lemma commands_prints entries cfg e :
  e ∈ (commands env entries cfg).1 -> e = LogInfo [LString (usage env)].
Proof.
  revert cfg. induction entries as [|[title value] entries IH]; intros cfg.
  - cbn. by intros ?%elem_of_nil.
  - rewrite commands_cons. repeat case_bool_decide; cbn [fst]; try apply IH.
    + by intros ->%list_elem_of_singleton.
    + by intros ?%elem_of_nil.
    + by intros ?%elem_of_nil.
Qed.

Lemma has_entry title m :
  has title m = true -> exists value, (title, value) ∈ m.
Proof.
  unfold has. intros [v Hv]%bool_decide_eq_true.
  induction m as [|[t' v'] m IH]; [done|]. cbn in Hv.
  case_bool_decide; [subst; exists v'; left|].
  destruct (IH Hv) as [value Hin]. exists value. by right.
Qed.

Lemma createDefault_no_read cfgPath p :
  ReadConfig p ∉ createDefault env cfgPath.
Proof.
  unfold createDefault.
  destruct (mkdirThrows env), (writeThrows env); not_in_list.
Qed.

Lemma loadConfig_reads cfgPath p :
  ReadConfig p ∈ (loadConfig env cfgPath).1 ->
  p = default (defaultConfigPath env) cfgPath.
Proof.
  unfold loadConfig. fold (defaultConfigPath env).
  destruct (validate _ _ _); cbn [fst].
  - by intros [= ->]%list_elem_of_singleton.
  - intros [[= ->]|Hin]%elem_of_cons; [done|].
    apply elem_of_cons in Hin as [Hin|Hin]; [done|].
    by apply createDefault_no_read in Hin.
Qed.

End CliSwitch.

(** X14.  The option [--config] never selects a configuration file and
    never lets the start go on.  Whatever the arguments, the only file
    [handleCliArguments] reads is the one named after the archiver: the
    value given with [--config=...] is a string, whose property [value] is
    [undefined].  And when [handleCliArguments] returns, every title of the
    command line is one of the two WebSocket options: with [--config]
    among the arguments it throws or ends the process. *)
Theorem config_option_is_never_used (env : Cli.Env) :
  (forall p, Cli.ReadConfig p ∈ (Cli.handleCliArguments env).1 ->
             p = defaultConfigPath env)
  /\ (forall cfg, (Cli.handleCliArguments env).2 = Cli.Returned cfg ->
        Forall (fun e => e.1 ∈ accepted) (Cli.parseCliArgs (Cli.argv env)))
  /\ (Cli.has (JS.str "--config") (Cli.parseCliArgs (Cli.argv env)) = true ->
      forall cfg, (Cli.handleCliArguments env).2 <> Cli.Returned cfg).
Proof.
  assert (forall cfg, (Cli.handleCliArguments env).2 = Cli.Returned cfg ->
        Forall (fun e => e.1 ∈ accepted) (Cli.parseCliArgs (Cli.argv env)))
    as Hret.
  { intros cfg. unfold Cli.handleCliArguments.
    set (argMap := Cli.parseCliArgs (Cli.argv env)).
    set (loaded := if Cli.has _ _ then _ else _).
    destruct loaded as [effects [cfg0| |]]; [|done|done].
    destruct (Cli.commands env argMap cfg0) as [effects' result] eqn:Hc.
    cbn [snd]. intros ->. apply (commands_returned env argMap cfg0).
    exists cfg. by rewrite Hc. }
  split; [|split; [exact Hret|]].
  - intros p. unfold Cli.handleCliArguments.
    set (argMap := Cli.parseCliArgs (Cli.argv env)).
    set (loaded := if Cli.has _ _ then _ else _).
    assert (Cli.ReadConfig p ∈ loaded.1 -> p = defaultConfigPath env) as Hl.
    { subst loaded. destruct (Cli.has _ _).
      - destruct (mjoin _); cbn -[Cli.loadConfig].
        + apply (loadConfig_reads env None).
        + by intros ?%elem_of_nil.
      - apply (loadConfig_reads env None). }
    destruct loaded as [effects [cfg0| |]]; cbn [fst] in *; try exact Hl.
    destruct (Cli.commands env argMap cfg0) as [effects' result] eqn:Hc.
    cbn [fst]. intros [Hin|Hin]%elem_of_app; [by apply Hl|].
    apply elem_of_cons in Hin as [Hin|Hin]; [done|].
    pose proof (commands_prints env argMap cfg0 (Cli.ReadConfig p)) as Hp.
    rewrite Hc in Hp. by apply Hp in Hin.
  - intros Hhas cfg Hcfg. apply Hret in Hcfg.
    apply has_entry in Hhas as [value Hin].
    rewrite Forall_forall in Hcfg. apply Hcfg in Hin. cbn in Hin.
    unfold accepted in Hin.
    repeat (apply elem_of_cons in Hin as [Hin|Hin]; [by vm_compute in Hin|]).
    by apply elem_of_nil in Hin.
Qed.

Lemma config_option_is_never_used_witness :
  Cli.has (JS.str "--config") (Cli.parseCliArgs (Cli.argv sampleCli)) = true
  /\ match (Cli.handleCliArguments sampleCli).2 with
     | Cli.Returned _ => False
     | _ => True
     end.
Proof.
  split; [reflexivity|].
  destruct (Cli.handleCliArguments sampleCli).2 as [cfg| |] eqn:Hcfg; [|done|done].
  exact (proj2 (proj2 (config_option_is_never_used sampleCli)) eq_refl cfg Hcfg).
Defined.

(** X15.  The loop over the parsed arguments goes through exactly when
    every title is one of the two WebSocket options.  A title that is none
    of the seven the [switch] names is not answered with a message: when no
    help or version title comes before it, whatever comes after it, the
    loop throws the [ReferenceError] of the undeclared [cmd] and has
    printed nothing.  A help or version title that only WebSocket options
    come before ends the process, the help titles after printing the
    usage text, the version titles without printing anything.  The only
    thing the loop ever prints is the usage text. *)
Theorem switch_outcomes (env : Cli.Env) (entries : Cli.args)
    (cfg : gmap (list N) Cli.value) :
  ((exists cfg', (Cli.commands env entries cfg).2 = Cli.Returned cfg')
   <-> Forall (fun e => e.1 ∈ accepted) entries)
  /\ (forall before title value rest,
        entries = before ++ (title, value) :: rest ->
        Forall (fun e => e.1 ∉ exiting) before ->
        title ∉ accepted -> title ∉ exiting ->
        Cli.commands env entries cfg = ([], Cli.Raised Cli.ReferenceErrorCmd))
  /\ (forall before title value rest,
        entries = before ++ (title, value) :: rest ->
        Forall (fun e => e.1 ∈ accepted) before ->
        title ∈ exiting ->
        Cli.commands env entries cfg
        = (if bool_decide (title ∈ [JS.str "-h"; JS.str "--help"])
           then [Cli.LogInfo [Cli.LString (Cli.usage env)]] else [],
           Cli.Exited))
  /\ (forall e, e ∈ (Cli.commands env entries cfg).1 ->
                e = Cli.LogInfo [Cli.LString (Cli.usage env)]).
Proof.
  split; [apply commands_returned|]. split; [|split].
  - intros before title value rest ->. apply commands_reference.
  - intros before title value rest ->. apply commands_exit.
  - apply commands_prints.
Qed.

Lemma switch_outcomes_witness :
  Cli.commands sampleCli
    [(JS.str "--printWebSocketDebuggerUrl", None); (JS.str "--foo", None);
     (JS.str "-h", None)] ∅
  = ([], Cli.Raised Cli.ReferenceErrorCmd).
Proof.
  refine (proj1 (proj2 (switch_outcomes sampleCli _ ∅))
            [(JS.str "--printWebSocketDebuggerUrl", None)] (JS.str "--foo") None
            [(JS.str "-h", None)] eq_refl _ _ _).
  - apply Forall_singleton. cbn. unfold exiting. vm_compute. not_in_list.
  - unfold accepted. vm_compute. not_in_list.
  - unfold exiting. vm_compute. not_in_list.
Defined.

Section CliConfig.

Import Cli.

Lemma replaceAll_backslash s :
  JS.backslash ∉ JS.replaceAll [JS.backslash] (JS.str "/") s.
Proof.
  change (JS.str "/") with [JS.ch "/"]. rewrite replaceAll_one.
  intros Hin. apply list_elem_of_In, in_map_iff in Hin.
  destruct Hin as (c & Hc & _).
  destruct (N.eqb_spec c JS.backslash) as [Heq|Hne]; [by vm_compute in Hc|done].
Qed.

Lemma validate_returns env cfgFileName p cfg :
  validate env cfgFileName p = Returns cfg ->
  exists file q chromium raw,
    p = ParsedObject file
    /\ file !! JS.str "cdpPort" = Some (VNumber q)
    /\ file !! JS.str "chromiumPath" = Some (VString chromium)
    /\ file !! JS.str "archivePath" = Some (VString raw)
    /\ isAbsolute env (stripped raw) = true
    /\ cfg = <[JS.str "archivePath" := VString (normalized raw)]> file.
Proof.
  unfold validate. destruct p as [e| |file|]; try done.
  destruct (file !! JS.str "cdpPort") as [[| |q| |]|] eqn:Hport; try done.
  destruct (file !! JS.str "chromiumPath") as [[| | |chromium|]|] eqn:Hchrome;
    try done.
  destruct (file !! JS.str "archivePath") as [[| | |raw|]|] eqn:Hpath; try done.
  fold (stripped raw).
  destruct (isAbsolute env (stripped raw)) eqn:Habs; [|done].
  cbn [negb]. intros [= <-]. by exists file, q, chromium, raw.
Qed.

Lemma validate_object_throws env cfgFileName file error :
  validate env cfgFileName (ParsedObject file) = Throws error ->
  message error = LUndefined.
Proof.
  unfold validate.
  repeat match goal with
    | |- context [match ?x with _ => _ end] => destruct x; try done
    end; by intros [= <-].
Qed.

End CliConfig.

(** X16.  When [loadConfig] returns, the file held an object with a
    number for [cdpPort] and strings for [chromiumPath] and [archivePath];
    the archive path without one trailing slash or backslash was an
    absolute path; and the configuration returned is that object with the
    name of the file added and the archive path replaced by the stripped
    one with its backslashes turned into slashes, so that it holds no
    backslash; every other property is as it was read. *)
Theorem loadConfig_returns (env : Cli.Env) (cfgPath : option (list N))
    (cfg : (gmap (list N) Cli.value)) :
  (Cli.loadConfig env cfgPath).2 = Cli.Returned cfg ->
  let path := default (defaultConfigPath env) cfgPath in
  exists file q chromium raw,
    Cli.readConfig env path = Cli.ParsedObject file
    /\ file !! JS.str "cdpPort" = Some (Cli.VNumber q)
    /\ file !! JS.str "chromiumPath" = Some (Cli.VString chromium)
    /\ file !! JS.str "archivePath" = Some (Cli.VString raw)
    /\ Cli.isAbsolute env (stripped raw) = true
    /\ cfg !! JS.str "archivePath" = Some (Cli.VString (normalized raw))
    /\ JS.backslash ∉ normalized raw
    /\ cfg !! JS.str "cfgFileName" = Some (Cli.VString (Cli.basename env path))
    /\ (forall key, key <> JS.str "archivePath" -> key <> JS.str "cfgFileName" ->
                    cfg !! key = file !! key).
Proof.
  unfold Cli.loadConfig. fold (defaultConfigPath env). cbn zeta.
  set (path := default (defaultConfigPath env) cfgPath).
  destruct (Cli.validate _ _ _) as [cfg0|e] eqn:Hv; [|done].
  cbn [snd]. intros [= <-].
  apply validate_returns in Hv
    as (file & q & chromium & raw & Hread & Hport & Hchrome & Hraw & Habs & ->).
  exists file, q, chromium, raw.
  split_and!; [done|done|done|done|done| | | |].
  - rewrite lookup_insert_ne by (intros H; by vm_compute in H).
    by rewrite lookup_insert_eq.
  - apply replaceAll_backslash.
  - by rewrite lookup_insert_eq.
  - intros key Hk1 Hk2. by rewrite !lookup_insert_ne.
Qed.

Lemma loadConfig_returns_witness :
  exists cfg,
    (Cli.loadConfig sampleCli None).2 = Cli.Returned cfg
    /\ cfg !! JS.str "archivePath" = Some (Cli.VString (JS.str "C:/archive")).
Proof.
  eexists. split; [reflexivity|].
  destruct (loadConfig_returns sampleCli None _ eq_refl)
    as (file & q & chromium & raw & Hread & _ & _ & Hraw & _ & Hcfg & _).
  injection Hread as <-. vm_compute in Hraw. injection Hraw as <-.
  rewrite Hcfg. reflexivity.
Defined.

(** X17.  [loadConfig] never throws: it returns or it ends the process.
    When the file held an object that is then rejected, the reason is not
    printed: the rejection is a thrown string, which has no [message], and
    [undefined] is printed in its place.  And when the process is ended
    and the file system does not fail, the last thing done was to write
    the default values to the very path that was read. *)
Theorem loadConfig_exits_without_reason (env : Cli.Env)
    (cfgPath : option (list N)) :
  let path := default (defaultConfigPath env) cfgPath in
  (forall e, (Cli.loadConfig env cfgPath).2 <> Cli.Raised e)
  /\ (forall file,
        Cli.readConfig env path = Cli.ParsedObject file ->
        (Cli.loadConfig env cfgPath).2 = Cli.Exited ->
        exists text rest,
          (Cli.loadConfig env cfgPath).1
          = Cli.ReadConfig path
              :: Cli.LogInfo [Cli.LString text; Cli.LUndefined] :: rest)
  /\ ((Cli.loadConfig env cfgPath).2 = Cli.Exited ->
      Cli.mkdirThrows env = None -> Cli.writeThrows env = None ->
      last (Cli.loadConfig env cfgPath).1
      = Some (Cli.WriteFile path (Cli.defaultConfig env))).
Proof.
  unfold Cli.loadConfig. fold (defaultConfigPath env). cbn zeta.
  set (path := default (defaultConfigPath env) cfgPath).
  split; [|split].
  - intros e. by destruct (Cli.validate _ _ _).
  - intros file ->.
    destruct (Cli.validate _ _ _) as [cfg0|e] eqn:Hv; [done|].
    intros _. apply validate_object_throws in Hv. rewrite Hv. cbn [fst].
    by eexists _, _.
  - destruct (Cli.validate _ _ _) as [cfg0|e] eqn:Hv; [done|].
    intros _ Hmk Hwr. cbn [fst]. unfold Cli.createDefault.
    by rewrite Hmk, Hwr.
Qed.

Section Expansion.

Import Cli.

Context (getenv : list N -> option (list N)).

Lemma expand_key d k key rest :
  percent ∉ key ->
  expand getenv (Some (d :: k)) (key ++ percent :: rest)
  = default (JS.str "undefined") (getenv (reverse (d :: k) ++ key))
    ++ expand getenv None rest.
Proof.
  revert d k. induction key as [|c key IH]; intros d k Hnin.
  - cbn [app expand]. rewrite N.eqb_refl. by rewrite app_nil_r.
  - apply not_elem_of_cons in Hnin as [Hc Hnin].
    assert ((c =? percent) = false) as Hcp by (by apply N.eqb_neq).
    cbn [app expand]. rewrite Hcp, IH by done.
    by rewrite (reverse_cons _ c), <- app_assoc.
Qed.

Lemma expand_open key k :
  percent ∉ key ->
  expand getenv (Some k) key = percent :: reverse k ++ key.
Proof.
  revert k. induction key as [|c key IH]; intros k Hnin.
  - cbn. by rewrite app_nil_r.
  - apply not_elem_of_cons in Hnin as [Hc Hnin].
    assert ((c =? percent) = false) as Hcp by (by apply N.eqb_neq).
    cbn [expand]. destruct k as [|d k]; rewrite Hcp.
    + rewrite IH by done. by rewrite reverse_singleton.
    + rewrite IH by done. by rewrite (reverse_cons _ c), <- app_assoc.
Qed.

Lemma expand_plain pre rest :
  percent ∉ pre ->
  expand getenv None (pre ++ rest) = pre ++ expand getenv None rest.
Proof.
  induction pre as [|c pre IH]; intros Hnin; [done|].
  apply not_elem_of_cons in Hnin as [Hc Hnin].
  assert ((c =? percent) = false) as Hcp by (by apply N.eqb_neq).
  cbn [app expand]. by rewrite Hcp, IH.
Qed.

End Expansion.

(** X18.  The replacement of [%NAME%] in a path, as [pickPathThatExists]
    does it on Windows, by the first percent sign of the text: text
    without a percent sign is kept; a percent sign followed by a name of
    one or more code units and a closing percent sign is replaced by the
    value of the variable of that name (by the text [undefined] when it is
    not set) and the replacement goes on after the closing sign; a percent
    sign directly followed by another is kept, and the second one may open
    a name; a percent sign that is never closed is kept with what
    follows. *)
Theorem expand_by_first_percent (getenv : list N -> option (list N))
    (pre : list N) :
  Cli.percent ∉ pre ->
  Cli.expand getenv None pre = pre
  /\ (forall name rest, Cli.percent ∉ name -> name <> [] ->
        Cli.expand getenv None (pre ++ [Cli.percent] ++ name ++ [Cli.percent] ++ rest)
        = pre ++ default (JS.str "undefined") (getenv name)
          ++ Cli.expand getenv None rest)
  /\ (forall rest,
        Cli.expand getenv None (pre ++ [Cli.percent; Cli.percent] ++ rest)
        = pre ++ [Cli.percent]
          ++ Cli.expand getenv None ([Cli.percent] ++ rest))
  /\ (forall tail, Cli.percent ∉ tail ->
        Cli.expand getenv None (pre ++ [Cli.percent] ++ tail)
        = pre ++ [Cli.percent] ++ tail).
Proof.
  intros Hpre. split; [|split; [|split]].
  - rewrite <- (app_nil_r pre) at 1. rewrite expand_plain by done.
    cbn. by rewrite app_nil_r.
  - intros name rest Hname Hne. rewrite expand_plain by done. f_equal.
    destruct name as [|c name]; [done|].
    apply not_elem_of_cons in Hname as [Hc Hname].
    assert ((c =? Cli.percent) = false) as Hcp by (by apply N.eqb_neq).
    cbn [app Cli.expand]. rewrite N.eqb_refl, Hcp.
    by rewrite expand_key.
  - intros rest. rewrite expand_plain by done. reflexivity.
  - intros tail Htail. rewrite expand_plain by done. f_equal.
    cbn [app Cli.expand]. rewrite N.eqb_refl. by rewrite expand_open.
Qed.

Lemma expand_by_first_percent_witness :
  Cli.expand (fun name => if bool_decide (name = JS.str "ProgramFiles")
                          then Some (JS.str "C:/Programs") else None)
    None (JS.str "%ProgramFiles%/Google")
  = JS.str "C:/Programs/Google".
Proof.
  refine (proj1 (proj2 (expand_by_first_percent _ [] _))
            (JS.str "ProgramFiles") (JS.str "/Google") _ _);
    [not_in_list| vm_compute; not_in_list | discriminate].
Defined.

(** ** More on the two channels *)

Section ChannelsMore.

Import Intercept.

Lemma step_emits c ev st :
  wellFormed st ->
  emitted (step c ev st).1.2 = []
  \/ exists r, emitted (step c ev st).1.2 = [r]
               /\ gone (oid r) (step c ev st).1.1.
Proof.
  intros Hwf.
  destruct ev as [t u ty i|t u ty i|ref|ref req rid|ref resp rid|ref rid threw|ref args i];
    cbn [step]; unfold withListener.
  - left. apply inspect_emits_nothing.
  - left. apply inspect_emits_nothing.
  - left. destruct (objects st !! ref) as [s|]; [|done].
    destruct (detachedListener s); [|done].
    cbn [onDetached fst snd]. apply debug_emits_nothing.
  - left. destruct (objects st !! ref) as [s|]; [|done].
    destruct (networkListeners s); [|done].
    unfold onRequestWillBeSent. by destruct (testMultiple _ _).
  - left. destruct (objects st !! ref) as [s|]; [|done].
    destruct (networkListeners s); [|done].
    unfold onResponseReceived.
    by destruct (networkResponseCatchQueue st !! rid).
  - destruct (objects st !! ref) as [s|]; [|by left].
    destruct (networkListeners s); [|by left].
    unfold onLoadingFinished.
    destruct (networkResponseCatchQueue st !! rid) as [result|] eqn:Hrid;
      [|by left].
    destruct (responseReceivedHandler c); cbn [fst snd]; [|by left].
    right. exists result. split; [done|]. by apply evicted_gone.
  - destruct (objects st !! ref) as [s|]; [|by left].
    destruct (pausedListener s); [|by left].
    assert (wellFormed (pausedEvict s args st)) as Hwf1.
    { unfold pausedEvict. destruct (flagged _ _); [|done].
      destruct (pausedNetworkId args) as [nid|]; [|done].
      eapply wellFormed_change; [|exact Hwf]. by apply (Removed _ _ nid 0). }
    unfold onRequestPaused.
    set (st1 := pausedEvict s args st) in *. clearbody st1.
    assert (gone (oid (pausedReport s args st1)) (bumpOid st1)) as Hgone.
    { destruct Hwf1 as [Hlt _]. split; [cbn; lia|].
      cbn. intros k r Hk Heq. specialize (Hlt _ _ Hk). lia. }
    unfold debug.
    paused_cases; cbn [fst snd emitted app]; first [by left | right; eauto].
Qed.

Lemma emitted_once c evs st :
  wellFormed st -> NoDup (oid <$> emitted (run c evs st).2).
Proof.
  revert st. induction evs as [|ev evs IH]; intros st Hwf; [constructor|].
  cbn [run]. pose proof (step_change c ev st) as [Hch _].
  pose proof (step_emits c ev st Hwf) as Hem.
  pose proof (fun o => gone_run c evs o (step c ev st).1.1) as Hgone.
  destruct (step c ev st) as [[st' e] res]. cbn [fst snd] in *.
  specialize (IH st' (wellFormed_change _ _ Hch Hwf)).
  destruct (run c evs st') as [st'' e']. cbn [fst snd] in *.
  rewrite emitted_app. destruct Hem as [->|(r & -> & Hr)]; [done|].
  cbn [app fmap list_fmap]. apply NoDup_cons. split; [|done].
  intros (r' & Heq & Hin)%list_elem_of_fmap.
  by eapply Hgone.
Qed.

End ChannelsMore.

(** X19.  The observation channel from end to end.  On a session with the
    network listeners, a request whose url matches one of the session's
    patterns, then its response, then the end of its loading hand to
    [responseReceivedHandler] exactly one report: it is marked as not
    coming from the pausing channel and carries the url of the target, the
    id of the session, the request id, the request and the response; the
    queue holds nothing under that id afterwards.  When the loading ends
    before a response was seen, the report is handed over all the same,
    without a response. *)
Theorem observation_round_trip (c : Intercept.config) (st : Intercept.State)
    (ref : nat) (s : Intercept.session) (req : Intercept.request)
    (rid : list N) (resp : Intercept.response) :
  Intercept.objects st !! ref = Some s ->
  Intercept.networkListeners s = true ->
  testMultiple (Intercept.requestUrl req) (Intercept.patterns s) = true ->
  Intercept.responseReceivedHandler c = true ->
  let full := Intercept.run c
      [ Intercept.RequestWillBeSent ref req rid;
        Intercept.ResponseReceived ref resp rid;
        Intercept.LoadingFinished ref rid None ] st in
  let short := Intercept.run c
      [ Intercept.RequestWillBeSent ref req rid;
        Intercept.LoadingFinished ref rid None ] st in
  full.2 = [Intercept.CallResponseReceived (observed st s req rid (Some resp))]
  /\ Intercept.networkResponseCatchQueue full.1 !! rid = None
  /\ short.2 = [Intercept.CallResponseReceived (observed st s req rid None)]
  /\ Intercept.networkResponseCatchQueue short.1 !! rid = None.
Proof.
  intros Hs Hnet Hmatch Hhandler.
  cbn [Intercept.run Intercept.step]. unfold Intercept.withListener.
  rewrite Hs, Hnet. unfold Intercept.onRequestWillBeSent. rewrite Hmatch.
  cbn [Intercept.objects Intercept.bumpOid Intercept.setQueue].
  rewrite Hs, Hnet. unfold Intercept.onResponseReceived, Intercept.onLoadingFinished.
  cbn [Intercept.networkResponseCatchQueue Intercept.bumpOid Intercept.setQueue
       Intercept.objects].
  rewrite !lookup_insert_eq.
  cbn [Intercept.networkResponseCatchQueue Intercept.bumpOid Intercept.setQueue
       Intercept.objects].
  rewrite Hs, Hnet, !lookup_insert_eq, Hhandler. cbn.
  by rewrite !lookup_delete_eq.
Qed.

Lemma observation_round_trip_witness :
  (Intercept.run sampleConfig
     [ Intercept.RequestWillBeSent 0 pngRequest (JS.str "1000.7");
       Intercept.ResponseReceived 0 okResponse (JS.str "1000.7");
       Intercept.LoadingFinished 0 (JS.str "1000.7") None ] boundState).2
  = [Intercept.CallResponseReceived
       (observed boundState boundSession pngRequest (JS.str "1000.7")
          (Some okResponse))].
Proof.
  exact (proj1 (observation_round_trip sampleConfig boundState 0 boundSession
                  pngRequest (JS.str "1000.7") okResponse
                  eq_refl eq_refl eq_refl eq_refl)).
Defined.

(** X20.  No report object is handed over twice.  In every run from the
    start, the objects given to [responseReceivedHandler], by either
    channel, are pairwise different objects: an entry of the queue leaves
    the queue when it is handed over, and the pausing channel makes a new
    object each time. *)
Theorem no_report_handed_over_twice (c : Intercept.config)
    (evs : list Intercept.event) :
  NoDup (Intercept.oid <$>
           Intercept.emitted (Intercept.run c evs Intercept.initial).2).
Proof. apply emitted_once, wellFormed_initial. Qed.

Section BindingMore.

Import Intercept.

Lemma debug_no_send c a ref cmd : SessionSend ref cmd ∉ debug c a.
Proof. unfold debug. destruct (DEBUG c); not_in_list. Qed.

Lemma debug_no_session c a t : NewSession t ∉ debug c a.
Proof. unfold debug. destruct (DEBUG c); not_in_list. Qed.

Lemma flagged_handler_only :
  flagged (N.lor 0 byTargetHandler) byResponseCatcher = false.
Proof. reflexivity. Qed.

Lemma bind_no_send c i targetId theUrl mask pats net registered st ref cmd :
  flagged mask byResponseCatcher = false ->
  SessionSend ref cmd ∉ (bind c i targetId theUrl mask pats net registered st).2.
Proof.
  intros Hflag. unfold bind. rewrite Hflag. unfold debug.
  repeat match goal with
    | |- context [match ?x with _ => _ end] => destruct x
    end; cbn; not_in_list.
Qed.

Lemma inspected_not_rebound c targetId theUrl type i st t :
  is_Some (sessions st !! targetId) ->
  NewSession t ∉ (inspectTargetOrNot c targetId theUrl type i st).1.2.
Proof.
  intros Hbeing. unfold inspectTargetOrNot.
  rewrite (bool_decide_eq_true_2 _ Hbeing).
  destruct (catchResponses c) as [rules|]; [|not_in_list].
  destruct (catchLoop rules theUrl type) as [pats net].
  set (regs := if targetHandler c then registrations i else []).
  set (mask := if bool_decide (regs <> []) then _ else _).
  set (e0 := if targetHandler c then [CallTargetHandler type theUrl] else []).
  assert (NewSession t ∉ e0) as He0
    by (subst e0; destruct (targetHandler c); not_in_list).
  destruct (if targetHandler c then handlerThrows i else None); [done|].
  rewrite andb_false_r. cbn [andb].
  assert (NewSession t ∉ (if bool_decide (regs <> [])
                          then [ResolveRegistration None] else []))
    as He1 by (case_bool_decide; not_in_list).
  destruct (mask =? 0); cbn [fst snd]; [|set_solver].
  destruct Hbeing as [ref ->]. cbn [fst snd].
  rewrite !elem_of_app. intros [?|[?|[Hin|Hin]]]; [done|done| |].
  - by apply list_elem_of_singleton in Hin.
  - destruct (detachRejects i); [by apply debug_no_session in Hin|].
    by apply elem_of_nil in Hin.
Qed.

End BindingMore.

(** X21.  A binding that fails half way is not tried again.  When the
    readiness of a new session is refused, the target is already entered
    in [sessions] and stays there: the session object has neither the
    pause listener nor the network listeners, a pause event addressed to it
    does nothing, and another notification for the same target, whatever
    its url, makes no new session. *)
Theorem failed_binding_is_not_retried (c : Intercept.config)
    (targetId theUrl type : list N) (i : Intercept.targetInput)
    (st : Intercept.State) (e : thrown) :
  Intercept.sessions st !! targetId = None ->
  Intercept.failsAt i = Some (Intercept.AtReady, e) ->
  Intercept.NewSession targetId
    ∈ (Intercept.inspectTargetOrNot c targetId theUrl type i st).1.2 ->
  let st' := (Intercept.inspectTargetOrNot c targetId theUrl type i st).1.1 in
  let ref := length (Intercept.objects st) in
  exists s,
    Intercept.sessions st' !! targetId = Some ref
    /\ Intercept.objects st' !! ref = Some s
    /\ Intercept.pausedListener s = false
    /\ Intercept.networkListeners s = false
    /\ (forall args input,
          Intercept.step c (Intercept.RequestPaused ref args input) st'
          = (st', [], Returns ()))
    /\ (forall theUrl' type' i',
          Intercept.NewSession targetId
          ∉ (Intercept.inspectTargetOrNot c targetId theUrl' type' i' st').1.2).
Proof.
  intros Hnone Hfail Hnew st' ref.
  assert (exists s,
    Intercept.sessions st' !! targetId = Some ref
    /\ Intercept.objects st' !! ref = Some s
    /\ Intercept.pausedListener s = false
    /\ Intercept.networkListeners s = false) as (s & Hs & Ho & Hp & Hn).
  { subst st' ref. revert Hnew. unfold Intercept.inspectTargetOrNot.
    rewrite Hnone.
    rewrite (bool_decide_eq_false_2 (is_Some None)) by (by intros [? ?]).
    destruct (Intercept.catchResponses c) as [rules|];
      [|by intros ?%elem_of_nil].
    destruct (Intercept.catchLoop rules theUrl type) as [pats net].
    set (regs := if Intercept.targetHandler c then Intercept.registrations i else []).
    set (mask := if bool_decide (regs <> []) then _ else _).
    set (e0 := if Intercept.targetHandler c
               then [Intercept.CallTargetHandler type theUrl] else []).
    assert (Intercept.NewSession targetId ∉ e0) as He0
      by (subst e0; destruct (Intercept.targetHandler c); not_in_list).
    destruct (if Intercept.targetHandler c then Intercept.handlerThrows i else None);
      [done|].
    cbn [andb negb].
    destruct (mask =? 0); cbn [negb andb fst snd].
    { rewrite app_nil_r || idtac. intros Hin.
      apply elem_of_app in Hin as [Hin|Hin]; [done|].
      case_bool_decide; revert Hin; not_in_list. }
    intros _. unfold Intercept.bind, Intercept.fails. rewrite Hfail.
    cbn [fst snd Intercept.sessions Intercept.objects Intercept.setObjects
         Intercept.setSessions].
    eexists. split; [by rewrite lookup_insert_eq|].
    split; [by rewrite lookup_app_r, Nat.sub_diag|]. done. }
  exists s. split_and!; try done.
  - intros args input. cbn [Intercept.step]. unfold Intercept.withListener.
    fold st'. by rewrite Ho, Hp.
  - intros theUrl' type' i'. apply inspected_not_rebound. by rewrite Hs.
Qed.

Lemma failed_binding_is_not_retried_witness :
  let st' := (Intercept.inspectTargetOrNot sampleConfig (JS.str "tab-A")
                (JS.str "https://app.example/a") (JS.str "page")
                (notReady (JS.str "S-A")) Intercept.initial).1.1 in
  Intercept.sessions st' !! JS.str "tab-A" = Some 0%nat.
Proof.
  intros st'.
  destruct (failed_binding_is_not_retried sampleConfig (JS.str "tab-A")
              (JS.str "https://app.example/a") (JS.str "page")
              (notReady (JS.str "S-A")) Intercept.initial _ eq_refl eq_refl)
    as (s & Hs & _).
  - vm_compute. left.
  - exact Hs.
Defined.

(** X22.  Only the rules of [catchResponses] turn the pausing channel on.
    When no rule matches the target, nothing is sent on a session, whatever
    patterns [targetHandler] gave to [registerInspection]: a session may be
    bound, but neither [Fetch.enable] nor [Network.enable] is sent.  When a
    rule matches a target that is not inspected yet and nothing fails,
    [Fetch.enable] is sent once the session is ready, with the patterns of
    the matching rules followed by the registered ones. *)
Theorem fetch_enabled_only_by_rules (c : Intercept.config)
    (rules : list Intercept.rule) (targetId theUrl type : list N)
    (i : Intercept.targetInput) (st : Intercept.State) :
  Intercept.catchResponses c = Some rules ->
  let pats := (Intercept.catchLoop rules theUrl type).1 in
  let regs := if Intercept.targetHandler c then Intercept.registrations i else [] in
  let effects := (Intercept.inspectTargetOrNot c targetId theUrl type i st).1.2 in
  (pats = [] -> forall ref cmd, Intercept.SessionSend ref cmd ∉ effects)
  /\ (pats <> [] ->
      Intercept.sessions st !! targetId = None ->
      Intercept.failsAt i = None ->
      (if Intercept.targetHandler c then Intercept.handlerThrows i else None) = None ->
      Intercept.SessionSend (length (Intercept.objects st))
        (Intercept.FetchEnable (pats ++ concat regs)) ∈ effects).
Proof.
  intros Hrules pats regs effects. subst pats effects.
  unfold Intercept.inspectTargetOrNot. rewrite Hrules.
  destruct (Intercept.catchLoop rules theUrl type) as [pats net]. cbn [fst].
  fold regs.
  set (e0 := if Intercept.targetHandler c
             then [Intercept.CallTargetHandler type theUrl] else []).
  split.
  - intros -> ref cmd.
    rewrite (bool_decide_eq_true_2 (@nil (list N) = [])) by done.
    assert (Intercept.SessionSend ref cmd ∉ e0) as He0
      by (subst e0; destruct (Intercept.targetHandler c); not_in_list).
    destruct (if Intercept.targetHandler c then Intercept.handlerThrows i else None);
      [done|].
    set (mask := if bool_decide (regs <> []) then _ else _).
    assert (Intercept.flagged mask Intercept.byResponseCatcher = false) as Hflag
      by (subst mask; by case_bool_decide).
    match goal with
    | |- context [Intercept.bind ?c ?i ?t ?u ?m ?p ?n ?r ?st] =>
        pose proof (bind_no_send c i t u m p n r st ref cmd Hflag) as Hb;
        destruct (Intercept.bind c i t u m p n r st) as [stb eb]
    end.
    cbn [snd] in Hb.
    assert (Intercept.SessionSend ref cmd
            ∉ (if bool_decide (regs <> [])
               then [Intercept.ResolveRegistration None] else []))
      as He1 by (case_bool_decide; not_in_list).
    destruct (negb (mask =? 0) && _); cbn [fst snd];
      repeat match goal with
        | |- context [match ?x with _ => _ end] => destruct x
        end; cbn [fst snd];
      rewrite ?not_elem_of_app; split_and?; try done;
      try apply debug_no_send; not_in_list.
  - intros Hpats Hnone Hfail ->. rewrite Hnone.
    rewrite (bool_decide_eq_false_2 (is_Some None)) by (by intros [? ?]).
    rewrite (bool_decide_eq_false_2 (pats = [])) by done.
    set (mask := if bool_decide (regs <> []) then _ else _).
    assert (Intercept.flagged mask Intercept.byResponseCatcher = true) as Hflag
      by (subst mask; by case_bool_decide).
    assert ((mask =? 0) = false) as Hmask
      by (subst mask; by case_bool_decide).
    rewrite Hmask. cbn [negb andb].
    unfold Intercept.bind, Intercept.fails. rewrite Hfail, Hflag.
    destruct net; cbn [fst snd]; rewrite !elem_of_app;
      right; [left|]; repeat (rewrite ?elem_of_app, ?elem_of_cons);
      rewrite ?list_elem_of_singleton; tauto.
Qed.

Lemma fetch_enabled_only_by_rules_witness :
  Intercept.SessionSend 0 (Intercept.FetchEnable [JS.str "*.png"])
  ∈ (Intercept.inspectTargetOrNot sampleConfig (JS.str "tab-A")
       (JS.str "https://app.example/a") (JS.str "page")
       (bindsAs (JS.str "S-A")) Intercept.initial).1.2.
Proof.
  refine (proj2 (fetch_enabled_only_by_rules sampleConfig _ (JS.str "tab-A")
                   (JS.str "https://app.example/a") (JS.str "page")
                   (bindsAs (JS.str "S-A")) Intercept.initial eq_refl)
            _ eq_refl eq_refl eq_refl).
  by vm_compute.
Defined.

Section QueueOrigin.

Import Intercept.

Lemma bind_objects c i targetId theUrl mask pats net registered st ref s :
  objects st !! ref = Some s ->
  objects (bind c i targetId theUrl mask pats net registered st).1 !! ref = Some s.
Proof.
  intros Hs. unfold bind.
  repeat match goal with
    | |- context [match ?x with _ => _ end] => destruct x
    end; cbn [fst objects setObjects setSessions]; try done;
    by apply lookup_app_l_Some.
Qed.

Lemma inspect_objects c targetId theUrl type i st ref s :
  objects st !! ref = Some s ->
  objects (inspectTargetOrNot c targetId theUrl type i st).1.1 !! ref = Some s.
Proof.
  intros Hs. unfold inspectTargetOrNot.
  destruct (catchResponses c) as [rules|]; [|done].
  destruct (catchLoop rules theUrl type) as [pats net].
  destruct (if targetHandler c then handlerThrows i else None); [done|].
  match goal with
  | |- context [bind ?c ?i ?t ?u ?m ?p ?n ?r ?st] =>
      pose proof (bind_objects c i t u m p n r st ref s Hs) as Hb;
      destruct (bind c i t u m p n r st) as [stb eb]
  end.
  cbn [fst] in Hb.
  repeat match goal with
    | |- context [if ?x then _ else _] => destruct x
    | |- context [match ?x with _ => _ end] => destruct x
    end; done.
Qed.

Lemma step_objects c ev st ref s :
  objects st !! ref = Some s ->
  exists s', objects (step c ev st).1.1 !! ref = Some s' /\ sameSession s s'.
Proof.
  intros Hs.
  assert (exists s', objects st !! ref = Some s' /\ sameSession s s') as Hsame
    by (by exists s).
  destruct ev as [t u ty i|t u ty i|r0|r0 req rid|r0 resp rid|r0 rid threw|r0 args i];
    cbn [step]; unfold withListener.
  - exists s. split; [by apply inspect_objects|done].
  - exists s. split; [by apply inspect_objects|done].
  - destruct (objects st !! r0) as [s0|] eqn:Hs0; [|done].
    destruct (detachedListener s0); [|done].
    cbn [onDetached fst objects setObjects].
    destruct (decide (r0 = ref)) as [->|Hne].
    + rewrite list_lookup_insert_eq by (by eapply lookup_lt_Some).
      eexists. split; [done|]. rewrite Hs in Hs0. by injection Hs0 as <-.
    + rewrite list_lookup_insert_ne by done. done.
  - destruct (objects st !! r0) as [s0|]; [|done].
    destruct (networkListeners s0); [|done].
    unfold onRequestWillBeSent. by destruct (testMultiple _ _).
  - destruct (objects st !! r0) as [s0|]; [|done].
    destruct (networkListeners s0); [|done].
    unfold onResponseReceived. by destruct (networkResponseCatchQueue st !! rid).
  - destruct (objects st !! r0) as [s0|]; [|done].
    destruct (networkListeners s0); [|done].
    unfold onLoadingFinished.
    destruct (networkResponseCatchQueue st !! rid); [|done].
    by destruct (responseReceivedHandler c).
  - destruct (objects st !! r0) as [s0|]; [|done].
    destruct (pausedListener s0); [|done].
    unfold onRequestPaused, pausedEvict.
    destruct (pausedNetworkId args); paused_cases; done.
Qed.

Lemma origin_kept c ev st k r :
  (Intercept.requestId r = k
   /\ Intercept.asFetch r = false
   /\ Intercept.networkId r = None
   /\ exists ref s,
        objects st !! ref = Some s
        /\ sessionId r = sid s /\ initiator r = url s
        /\ testMultiple (requestUrl (theRequest r)) (patterns s) = true) ->
  Intercept.requestId r = k
  /\ Intercept.asFetch r = false
  /\ Intercept.networkId r = None
  /\ exists ref s,
       objects (step c ev st).1.1 !! ref = Some s
       /\ sessionId r = sid s /\ initiator r = url s
       /\ testMultiple (requestUrl (theRequest r)) (patterns s) = true.
Proof.
  intros (H1 & H2 & H3 & ref & s & Hs & H4 & H5 & H6).
  destruct (step_objects c ev st ref s Hs) as (s' & Hs' & Hsid & Hurl & Hpat).
  split_and!; try done. exists ref, s'. by rewrite Hsid, Hurl, Hpat.
Qed.

Lemma step_queue c ev st k r :
  networkResponseCatchQueue (step c ev st).1.1 !! k = Some r ->
  networkResponseCatchQueue st !! k = Some r
  \/ (exists resp r0, networkResponseCatchQueue st !! k = Some r0
                      /\ r = setResponse resp r0)
  \/ (exists ref s req,
        objects st !! ref = Some s
        /\ testMultiple (requestUrl req) (patterns s) = true
        /\ r = {| oid := nextOid st; initiator := url s; asFetch := false;
                  requestId := k; networkId := None; sessionId := sid s;
                  theRequest := req; theResponse := None |}).
Proof.
  destruct ev as [t u ty i|t u ty i|r0|r0 req rid|r0 resp rid|r0 rid threw|r0 args i];
    cbn [step]; unfold withListener.
  - rewrite (proj1 (inspect_queue c t u ty i st)). by left.
  - rewrite (proj1 (inspect_queue c t u ty i st)). by left.
  - destruct (objects st !! r0) as [s0|]; [|by left].
    destruct (detachedListener s0); by left.
  - destruct (objects st !! r0) as [s0|] eqn:Hs0; [|by left].
    destruct (networkListeners s0); [|by left].
    unfold onRequestWillBeSent.
    destruct (testMultiple _ _) eqn:Hmatch; [|by left].
    cbn [fst networkResponseCatchQueue bumpOid setQueue].
    intros [[<- <-]|[_ Hk]]%lookup_insert_Some; [|by left].
    right. right. by exists r0, s0, req.
  - destruct (objects st !! r0) as [s0|]; [|by left].
    destruct (networkListeners s0); [|by left].
    unfold onResponseReceived.
    destruct (networkResponseCatchQueue st !! rid) as [result|] eqn:Hrid;
      [|by left].
    cbn [fst networkResponseCatchQueue setQueue].
    intros [[<- <-]|[_ Hk]]%lookup_insert_Some; [|by left].
    right. left. by exists resp, result.
  - destruct (objects st !! r0) as [s0|]; [|by left].
    destruct (networkListeners s0); [|by left].
    unfold onLoadingFinished.
    destruct (networkResponseCatchQueue st !! rid) as [result|]; [|by left].
    destruct (responseReceivedHandler c);
      cbn [fst networkResponseCatchQueue setQueue];
      intros [_ Hk]%lookup_delete_Some; by left.
  - destruct (objects st !! r0) as [s0|]; [|by left].
    destruct (pausedListener s0); [|by left].
    unfold onRequestPaused, pausedEvict.
    destruct (pausedNetworkId args) as [nid|]; paused_cases; cbn;
      first [ by left | intros [_ Hk]%lookup_delete_Some; by left ].
Qed.

Lemma queueOrigin_step c ev st :
  queueOrigin st -> queueOrigin (step c ev st).1.1.
Proof.
  intros Hinv k r Hk.
  apply step_queue in Hk
    as [Hk|[(resp & r0 & Hk & ->)|(ref & s & req & Hs & Hmatch & ->)]].
  - exact (origin_kept c ev st k r (Hinv k r Hk)).
  - apply (origin_kept c ev st k (setResponse resp r0)).
    exact (Hinv k r0 Hk).
  - apply (origin_kept c ev st). split_and!; try done. by exists ref, s.
Qed.

End QueueOrigin.

(** X23.  Where the entries of the queue come from.  In every run from the
    start, each entry of [networkResponseCatchQueue] sits under its own
    request id, is marked as not coming from the pausing channel, and was
    made for a request whose url matched a pattern of a session that is
    still among the session objects; it carries the id of that session and
    the url its target had when the session was bound. *)
Theorem queue_entries_have_an_origin (c : Intercept.config)
    (evs : list Intercept.event) :
  queueOrigin (Intercept.run c evs Intercept.initial).1.
Proof.
  assert (forall st, queueOrigin st -> queueOrigin (Intercept.run c evs st).1)
    as Hrun.
  { induction evs as [|ev evs IH]; intros st Hinv; [done|].
    cbn [Intercept.run]. pose proof (queueOrigin_step c ev st Hinv) as Hstep.
    destruct (Intercept.step c ev st) as [[st' e] res]. cbn [fst] in Hstep.
    specialize (IH st' Hstep). by destruct (Intercept.run c evs st'). }
  apply Hrun. intros k r Hk. cbn in Hk. by rewrite lookup_empty in Hk.
Qed.

Section DebugIndependence.

Import Intercept.

Lemma quiet_app e1 e2 : quiet (e1 ++ e2) = quiet e1 ++ quiet e2.
Proof.
  induction e1 as [|[] e1 IH]; cbn [quiet app]; by rewrite ?IH.
Qed.

Lemma quiet_debug c a : quiet (debug c a) = [].
Proof. unfold debug. by destruct (DEBUG c). Qed.

Lemma bind_debug b c i targetId theUrl mask pats net registered st :
  (bind (withDebug b c) i targetId theUrl mask pats net registered st).1
  = (bind c i targetId theUrl mask pats net registered st).1
  /\ quiet (bind (withDebug b c) i targetId theUrl mask pats net registered st).2
     = quiet (bind c i targetId theUrl mask pats net registered st).2.
Proof.
  unfold bind.
  repeat match goal with
    | |- context [match ?x with _ => _ end] => destruct x
    end;
    cbn [fst snd]; (split; [done|]);
    cbn [quiet app]; rewrite ?quiet_app, ?quiet_debug; cbn [quiet app];
    rewrite ?quiet_app, ?quiet_debug; reflexivity.
Qed.

Lemma inspect_debug b c targetId theUrl type i st :
  let r := inspectTargetOrNot c targetId theUrl type i st in
  let r' := inspectTargetOrNot (withDebug b c) targetId theUrl type i st in
  r'.1.1 = r.1.1 /\ quiet r'.1.2 = quiet r.1.2 /\ r'.2 = r.2.
Proof.
  cbn zeta. unfold inspectTargetOrNot.
  change (catchResponses (withDebug b c)) with (catchResponses c).
  change (targetHandler (withDebug b c)) with (targetHandler c).
  destruct (catchResponses c) as [rules|]; [|done].
  destruct (catchLoop rules theUrl type) as [pats net].
  destruct (if targetHandler c then handlerThrows i else None); [done|].
  match goal with
  | |- context [bind c ?i ?t ?u ?m ?p ?n ?r ?st] =>
      pose proof (bind_debug b c i t u m p n r st) as [Hb1 Hb2];
      destruct (bind c i t u m p n r st) as [stb eb];
      destruct (bind (withDebug b c) i t u m p n r st) as [stb' eb']
  end.
  cbn [fst snd] in Hb1, Hb2. subst stb'.
  repeat match goal with
    | |- context [if ?x then _ else _] => destruct x
    | |- context [match ?x with _ => _ end] => destruct x
    end; cbn [fst snd];
    rewrite ?quiet_app, ?quiet_debug, ?Hb2; done.
Qed.

Lemma step_debug b c ev st :
  (step (withDebug b c) ev st).1.1 = (step c ev st).1.1
  /\ quiet (step (withDebug b c) ev st).1.2 = quiet (step c ev st).1.2
  /\ (step (withDebug b c) ev st).2 = (step c ev st).2.
Proof.
  destruct ev as [t u ty i|t u ty i|ref|ref req rid|ref resp rid|ref rid threw|ref args i];
    cbn [step]; unfold withListener.
  - apply inspect_debug.
  - apply inspect_debug.
  - destruct (objects st !! ref) as [s|]; [|done].
    destruct (detachedListener s); [|done].
    cbn [onDetached fst snd]. by rewrite !quiet_debug.
  - done.
  - done.
  - done.
  - destruct (objects st !! ref) as [s|]; [|done].
    destruct (pausedListener s); [|done].
    unfold onRequestPaused.
    change (responseReceivedHandler (withDebug b c))
      with (responseReceivedHandler c).
    change (requestPausedHandler (withDebug b c)) with (requestPausedHandler c).
    unfold debug. cbn [DEBUG withDebug].
    destruct b; paused_cases; done.
Qed.

End DebugIndependence.

(** X24.  The DEBUG environment variable changes nothing but the console.
    For every run of events, from every state, the shared variables at the
    end are the same with the variable set and unset, and so are the
    effects, in their order, once the lines that [debug] prints are left
    out. *)
Theorem debug_only_prints (b : bool) (c : Intercept.config)
    (evs : list Intercept.event) (st : Intercept.State) :
  (Intercept.run (withDebug b c) evs st).1 = (Intercept.run c evs st).1
  /\ quiet (Intercept.run (withDebug b c) evs st).2
     = quiet (Intercept.run c evs st).2.
Proof.
  revert st. induction evs as [|ev evs IH]; intros st; [done|].
  cbn [Intercept.run].
  pose proof (step_debug b c ev st) as (Hst & Heff & _).
  destruct (Intercept.step c ev st) as [[st1 e1] r1].
  destruct (Intercept.step (withDebug b c) ev st) as [[st1' e1'] r1'].
  cbn [fst snd] in Hst, Heff. subst st1'.
  specialize (IH st1) as [IHst IHeff].
  destruct (Intercept.run c evs st1) as [st2 e2].
  destruct (Intercept.run (withDebug b c) evs st1) as [st2' e2'].
  cbn [fst snd] in *. subst st2'. split; [done|].
  by rewrite !quiet_app, Heff, IHeff.
Qed.

(** X25.  The [detached] listener of a session removes the entry of its
    target from [sessions] whichever session that entry points to.  When
    the target has meanwhile been bound to another session, a late
    [detached] event of the old session thus removes the entry of the new
    one, which keeps its listeners; the target then counts as not
    inspected, and the next notification with interest in it binds one
    more session. *)
Theorem late_detach_unbinds_successor (c : Intercept.config)
    (st : Intercept.State) (ref ref' : nat) (s : Intercept.session) :
  Intercept.objects st !! ref = Some s ->
  Intercept.detachedListener s = true ->
  Intercept.sessions st !! Intercept.target s = Some ref' ->
  ref' <> ref ->
  let st' := (Intercept.step c (Intercept.Detached ref) st).1.1 in
  Intercept.sessions st' !! Intercept.target s = None
  /\ Intercept.objects st' !! ref' = Intercept.objects st !! ref'
  /\ (forall rules theUrl type i,
        Intercept.catchResponses c = Some rules ->
        (Intercept.catchLoop rules theUrl type).1 <> [] ->
        (if Intercept.targetHandler c then Intercept.handlerThrows i else None) = None ->
        Intercept.NewSession (Intercept.target s)
        ∈ (Intercept.inspectTargetOrNot c (Intercept.target s) theUrl type i st').1.2).
Proof.
  intros Hs Hlisten Hsucc Hne st'. subst st'.
  cbn [Intercept.step]. unfold Intercept.withListener. rewrite Hs, Hlisten.
  cbn [Intercept.onDetached fst Intercept.sessions Intercept.objects
       Intercept.setObjects Intercept.setSessions].
  split; [by rewrite lookup_delete_eq|].
  split; [by rewrite list_lookup_insert_ne|].
  intros rules theUrl type i Hrules Hpats Hthrow.
  unfold Intercept.inspectTargetOrNot.
  cbn [Intercept.sessions Intercept.setObjects Intercept.setSessions].
  rewrite lookup_delete_eq, Hrules.
  rewrite (bool_decide_eq_false_2 (is_Some None)) by (by intros [? ?]).
  destruct (Intercept.catchLoop rules theUrl type) as [pats net]. cbn [fst] in Hpats.
  rewrite Hthrow. rewrite (bool_decide_eq_false_2 (pats = [])) by done.
  set (mask := if bool_decide _ then _ else _).
  assert ((mask =? 0) = false) as Hmask by (subst mask; by case_bool_decide).
  rewrite Hmask. cbn [negb andb].
  match goal with
  | |- context [Intercept.bind ?c ?i ?t ?u ?m ?p ?n ?r ?st] =>
      assert (Intercept.NewSession t ∈ (Intercept.bind c i t u m p n r st).2) as Hb;
      [|destruct (Intercept.bind c i t u m p n r st) as [stb eb]]
  end.
  { unfold Intercept.bind.
    repeat match goal with
      | |- context [match ?x with _ => _ end] => destruct x
      end; cbn [snd]; rewrite <- ?app_assoc; cbn [app]; left. }
  cbn [fst snd] in *. rewrite !elem_of_app. tauto.
Qed.

Lemma late_detach_unbinds_successor_witness :
  let st := (Intercept.run sampleConfig reboundRun Intercept.initial).1 in
  let st' := (Intercept.step sampleConfig (Intercept.Detached 0) st).1.1 in
  Intercept.sessions st !! JS.str "tab-A" = Some 1%nat
  /\ Intercept.sessions st' !! JS.str "tab-A" = None
  /\ Intercept.objects st' !! 1%nat = Intercept.objects st !! 1%nat.
Proof.
  intros st st'.
  assert (Intercept.objects st !! 0%nat = Some boundSession) as Hs
    by (by vm_compute).
  assert (Intercept.sessions st !! Intercept.target boundSession = Some 1%nat)
    as Hsucc by (by vm_compute).
  split; [exact Hsucc|].
  destruct (late_detach_unbinds_successor sampleConfig st 0 1 boundSession
              Hs eq_refl Hsucc ltac:(discriminate)) as (Hnone & Hobj & _).
  split; [exact Hnone|exact Hobj].
Defined.
